(** * thread.ts: the [post] pipeline of the thread command-line tool

    A shallow embedding of [src/thread.ts]: the document parser
    ([makeBlocks]), the image extractor ([extractImage]), the validators
    ([lint], [checkImageNumberPerPost], [checkImageSize]), the three-phase
    media upload ([uploadImages]) and the reply-chain poster ([post]),
    together with the action of the [post <filename>] command that chains
    them, followed by the properties the specification states of them.

    Conventions.
    - A JavaScript string is a sequence of UTF-16 code units; the model uses
      the Standard Library's [string] and so keeps the code units below 256.
      [String.length] is JavaScript's [.length].
    - A thrown [Error] is a [Throw] of the [Result] type; the functions that
      can throw return a [Result].
    - The file system, the answer typed at the prompt and the network are
      the environment: they are parameters of the functions that touch them.
    - Every request handed to the Twitter client is appended to a log,
      which is what the theorems about requests sent speak about.
    - [console.log] is not modelled. *)

From Stdlib Require Import Ascii String List ZArith Lia Bool Arith.
From Stdlib Require Import DecimalString.
From stdpp Require Import base list strings.
Import ListNotations.
Local Open Scope string_scope.
Local Open Scope list_scope.

(** ** JavaScript strings *)

Module Js.

Definition code (c : ascii) : nat := nat_of_ascii c.

(** [String.prototype.trim] strips WhiteSpace and LineTerminator code
    units: TAB, LF, VT, FF, CR, SP and NBSP are the ones below 256. *)
Definition is_white (c : ascii) : bool :=
  let n := code c in
  (Nat.leb 9 n && Nat.leb n 13) || Nat.eqb n 32 || Nat.eqb n 160.

(** The dot of a regular expression matches everything but a
    LineTerminator: LF and CR are the ones below 256. *)
Definition is_line_terminator (c : ascii) : bool :=
  let n := code c in Nat.eqb n 10 || Nat.eqb n 13.

Fixpoint trimStart (s : string) : string :=
  match s with
  | String c s' => if is_white c then trimStart s' else s
  | EmptyString => EmptyString
  end.

Definition rev (s : string) : string :=
  string_of_list_ascii (List.rev (list_ascii_of_string s)).

Definition trimEnd (s : string) : string := rev (trimStart (rev s)).

Definition trim (s : string) : string := trimEnd (trimStart s).

(** [s.slice(0, n)] *)
Definition slice0 (n : nat) (s : string) : string := substring 0 n s.

(** [s.slice(1)] *)
Definition slice1 (s : string) : string :=
  match s with String _ s' => s' | EmptyString => EmptyString end.

(** [`${n}`] for a non-negative integer. *)
Definition of_nat (n : nat) : string := NilZero.string_of_uint (Nat.to_uint n).

(** [String.prototype.toLowerCase] on code units below 256. *)
Definition lower (c : ascii) : ascii :=
  let n := code c in
  if (Nat.leb 65 n && Nat.leb n 90)
     || (Nat.leb 192 n && Nat.leb n 222 && negb (Nat.eqb n 215))
  then ascii_of_nat (n + 32) else c.

Fixpoint toLowerCase (s : string) : string :=
  match s with
  | String c s' => String (lower c) (toLowerCase s')
  | EmptyString => EmptyString
  end.

(** [xs.join(sep)] on an array of strings. *)
Fixpoint join (sep : string) (xs : list string) : string :=
  match xs with
  | [] => ""
  | [x] => x
  | x :: rest => x +:+ sep +:+ join sep rest
  end.

Definition is_dash (c : ascii) : bool := Ascii.eqb c "-".

Definition cons_head (c : ascii) (pieces : list string) : list string :=
  match pieces with
  | p :: ps => String c p :: ps
  | [] => [String c ""]
  end.

(** [s.split('---')]: the pieces between the leftmost, non-overlapping
    occurrences of the three-dash separator, empty pieces included. *)
Fixpoint split_dashes (s : string) : list string :=
  match s with
  | EmptyString => [""]
  | String c1 s1 =>
      match s1 with
      | String c2 (String c3 rest) =>
          if is_dash c1 && is_dash c2 && is_dash c3
          then "" :: split_dashes rest
          else cons_head c1 (split_dashes s1)
      | _ => cons_head c1 (split_dashes s1)
      end
  end.

(** [arr.indexOf(x)] with strict equality on strings; [None] is -1. *)
Fixpoint indexOf (x : string) (arr : list string) : option nat :=
  match arr with
  | [] => None
  | y :: ys => if String.eqb y x then Some 0
               else option_map S (indexOf x ys)
  end.

(** [arr.map((x, i) => f x i)] *)
Fixpoint mapi_from {A B} (f : A -> nat -> B) (i : nat) (arr : list A) : list B :=
  match arr with
  | [] => []
  | x :: xs => f x i :: mapi_from f (S i) xs
  end.
Definition mapi {A B} (f : A -> nat -> B) (arr : list A) : list B :=
  mapi_from f 0 arr.

(** [arr.filter((x, i, arr) => p x i arr)] *)
Fixpoint filteri_from {A} (p : A -> nat -> bool) (i : nat) (arr : list A) : list A :=
  match arr with
  | [] => []
  | x :: xs => if p x i then x :: filteri_from p (S i) xs
               else filteri_from p (S i) xs
  end.
Definition filteri {A} (p : A -> nat -> list A -> bool) (arr : list A) : list A :=
  filteri_from (fun x i => p x i arr) 0 arr.

End Js.


(** ** Regular expressions

    The two patterns of [extractImage] use literal characters and the lazy
    quantifiers [.*?] and [.+?] only.  A pattern is a list of items; a match
    is the list of the substrings its items consumed, so that the text of
    the match is their concatenation and a capture group is one of them.
    Lazy items try the shortest extension first and backtrack to longer
    ones, as the ECMAScript matcher does. *)

Module Regex.

Inductive item : Type :=
| Chr (c : ascii)      (* a literal character *)
| LazyStar             (* .*? *)
| LazyPlus.            (* .+? *)

Definition extend (c : ascii) (segs : list string) : list string :=
  match segs with
  | seg :: rest => String c seg :: rest
  | [] => []
  end.

(** [lazy_any k s]: let the dot consume as few characters of [s] as
    possible so that the continuation [k] matches what follows. *)
Fixpoint lazy_any (k : string -> option (list string)) (s : string)
  : option (list string) :=
  match k s with
  | Some segs => Some ("" :: segs)
  | None =>
      match s with
      | String c s' =>
          if Js.is_line_terminator c then None
          else option_map (extend c) (lazy_any k s')
      | EmptyString => None
      end
  end.

(** Match the pattern at the start of [s]. *)
Fixpoint match_here (items : list item) (s : string) : option (list string) :=
  match items with
  | [] => Some []
  | Chr c :: items' =>
      match s with
      | String c' s' =>
          if Ascii.eqb c c'
          then option_map (cons (String c' "")) (match_here items' s')
          else None
      | EmptyString => None
      end
  | LazyStar :: items' => lazy_any (match_here items') s
  | LazyPlus :: items' =>
      match s with
      | String c s' =>
          if Js.is_line_terminator c then None
          else option_map (extend c) (lazy_any (match_here items') s')
      | EmptyString => None
      end
  end.

Definition text (segs : list string) : string :=
  fold_right String.append "" segs.

(** [s.match(re)] without the [g] flag: the leftmost match, [None] for null. *)
Fixpoint match_first (items : list item) (s : string) : option (list string) :=
  match match_here items s with
  | Some segs => Some segs
  | None =>
      match s with
      | String _ s' => match_first items s'
      | EmptyString => None
      end
  end.

(** [s.match(re)] with the [g] flag: the texts of all matches, left to
    right, each search resuming where the previous match ended ([skip]
    counts the characters of [s] still covered by the previous match). *)
Fixpoint match_all_from (items : list item) (s : string) (skip : nat) : list string :=
  match s with
  | EmptyString =>
      match skip, match_here items "" with
      | 0, Some segs => [text segs]
      | _, _ => []
      end
  | String c s' =>
      match skip with
      | S k => match_all_from items s' k
      | 0 =>
          match match_here items s with
          | Some segs =>
              text segs :: match_all_from items s' (String.length (text segs) - 1)
          | None => match_all_from items s' 0
          end
      end
  end.
Definition match_all (items : list item) (s : string) : list string :=
  match_all_from items s 0.

(** [s.replace(re, '')] with the [g] flag. *)
Fixpoint remove_all_from (items : list item) (s : string) (skip : nat) : string :=
  match s with
  | EmptyString => EmptyString
  | String c s' =>
      match skip with
      | S k => remove_all_from items s' k
      | 0 =>
          match match_here items s with
          | Some segs =>
              match String.length (text segs) with
              | 0 => String c (remove_all_from items s' 0)
              | S k => remove_all_from items s' k
              end
          | None => String c (remove_all_from items s' 0)
          end
      end
  end.
Definition remove_all (items : list item) (s : string) : string :=
  remove_all_from items s 0.

End Regex.

(** ** Node's [path] module, POSIX flavour

    [extname], [dirname], [resolve] and [join] are library functions of the
    runtime; they are modelled after the algorithms of Node's [path.posix].
    [resolve] reads the working directory of the process, here [cwd]. *)

Module Path.

Definition is_slash (c : ascii) : bool := Ascii.eqb c "/".
Definition is_dot (c : ascii) : bool := Ascii.eqb c ".".

Definition chars := list_ascii_of_string.
Definition str := string_of_list_ascii.

Fixpoint drop_while (p : ascii -> bool) (l : list ascii) : list ascii :=
  match l with
  | c :: l' => if p c then drop_while p l' else l
  | [] => []
  end.

Fixpoint take_while (p : ascii -> bool) (l : list ascii) : list ascii :=
  match l with
  | c :: l' => if p c then c :: take_while p l' else []
  | [] => []
  end.

Definition not_slash (c : ascii) : bool := negb (is_slash c).
Definition not_dot (c : ascii) : bool := negb (is_dot c).

(** The last component of the path, reversed: trailing slashes are
    skipped, then everything up to the previous slash is taken. *)
Definition rev_basename (path : string) : list ascii :=
  take_while not_slash (drop_while is_slash (List.rev (chars path))).

(** [path.extname(p)]: from the last dot of the last component to its
    end; empty when there is no dot, when the dot is the first character
    of the component, or when the component is [..]. *)
Definition extname (path : string) : string :=
  let rc := rev_basename path in
  let ext_rev := take_while not_dot rc in
  match drop_while not_dot rc with
  | [] => ""                                   (* no dot *)
  | _dot :: before_rev =>
      match before_rev, ext_rev with
      | [], _ => ""                            (* .bashrc *)
      | [c], [] => if is_dot c then "" else "."   (* .. *)
      | _, _ => str ("."%char :: List.rev ext_rev)
      end
  end.

(** [path.dirname(p)] *)
Definition dirname (path : string) : string :=
  match chars path with
  | [] => "."
  | c0 :: rest =>
      let hasRoot := is_slash c0 in
      match drop_while not_slash (drop_while is_slash (List.rev rest)) with
      | [] => if hasRoot then "/" else "."
      | _slash :: before_rev =>
          match before_rev with
          | [] => if hasRoot then "//" else str [c0]
          | _ => str (c0 :: List.rev before_rev)
          end
      end
  end.

Fixpoint split_slash (s : string) : list string :=
  match s with
  | EmptyString => [""]
  | String c s' =>
      if is_slash c then "" :: split_slash s'
      else Js.cons_head c (split_slash s')
  end.

(** [normalizeString]: resolve [.] and [..] segments; [stack] holds the
    segments kept so far, last first. *)
Fixpoint normalize_segments (allowAboveRoot : bool) (segs stack : list string)
  : list string :=
  match segs with
  | [] => List.rev stack
  | seg :: segs' =>
      if String.eqb seg "" || String.eqb seg "."
      then normalize_segments allowAboveRoot segs' stack
      else if String.eqb seg ".."
      then match stack with
           | top :: below =>
               if String.eqb top ".."
               then normalize_segments allowAboveRoot segs'
                      (if allowAboveRoot then ".." :: stack else stack)
               else normalize_segments allowAboveRoot segs' below
           | [] =>
               normalize_segments allowAboveRoot segs'
                 (if allowAboveRoot then [".."] else [])
           end
      else normalize_segments allowAboveRoot segs' (seg :: stack)
  end.

Definition normalizeString (path : string) (allowAboveRoot : bool) : string :=
  Js.join "/" (normalize_segments allowAboveRoot (split_slash path) []).

Definition isAbsolute (path : string) : bool :=
  match path with String c _ => is_slash c | EmptyString => false end.

Definition endsWithSlash (path : string) : bool :=
  match List.rev (chars path) with c :: _ => is_slash c | [] => false end.

(** [path.normalize(p)] *)
Definition normalize (path : string) : string :=
  match path with
  | EmptyString => "."
  | _ =>
      let abs := isAbsolute path in
      let trailing := endsWithSlash path in
      let p := normalizeString path (negb abs) in
      match p with
      | EmptyString => if abs then "/" else if trailing then "./" else "."
      | _ =>
          let p' := if trailing then p +:+ "/" else p in
          if abs then "/" +:+ p' else p'
      end
  end.

(** [path.join(a, b)] *)
Definition join (a b : string) : string :=
  match a, b with
  | EmptyString, EmptyString => "."
  | EmptyString, _ => normalize b
  | _, EmptyString => normalize a
  | _, _ => normalize (a +:+ "/" +:+ b)
  end.

(** [path.resolve(p)] with one argument, in a process whose working
    directory is [cwd] (an absolute path). *)
Definition resolve (cwd : string) (p : string) : string :=
  let unresolved :=
    match p with
    | EmptyString => cwd +:+ "/"
    | _ => if isAbsolute p then p +:+ "/" else cwd +:+ "/" +:+ p +:+ "/"
    end in
  "/" +:+ normalizeString unresolved false.

End Path.

(** ** Data model *)

Definition LF : string := String "010"%char "".

(** A value of unknown shape coming back from the network, as far as its
    truthiness is concerned. *)
Inductive JsValue : Type :=
| JUndefined
| JNull
| JBool (b : bool)
| JNum (z : Z)
| JStr (s : string)
| JObject.

Definition truthy (v : JsValue) : bool :=
  match v with
  | JUndefined | JNull => false
  | JBool b => b
  | JNum z => negb (Z.eqb z 0)
  | JStr s => negb (String.eqb s "")
  | JObject => true
  end.

Record TwitterCredential : Type := {
  consumer_key : string;
  consumer_secret : string;
  access_token_key : string;
  access_token_secret : string;
}.

Record Profile : Type := {
  name : string;
  active : bool;
  credential : TwitterCredential;
}.

Record Content : Type := {
  text : string;
  images : list string;
}.

(** An element of [mediaIds] is a string or [undefined]. *)
Record PostContent : Type := {
  post_text : string;
  mediaIds : list (option string);
}.

Record ImageData : Type := {
  path : string;
  total_bytes : Z;
  media_type : string;
  media_data : string;
}.

(** The [{ path, mediaId }] objects [uploadImages] resolves to. *)
Record UploadedMedia : Type := {
  up_path : string;
  mediaId : option string;
}.

(** What [thread.ts] reads of a file: its text as UTF-8, and of the
    [Buffer] of its bytes the [length] and the base64 rendering. *)
Record File : Type := {
  utf8 : string;
  byte_length : Z;
  base64 : string;
}.

(** What a path names: a regular file the process can read, a directory,
    or a file the process may not read. *)
Inductive Entry : Type :=
| RegularFile (file : File)
| Directory
| Unreadable.

(** What the process sees at the path handed to an [fs] call (a relative
    one is resolved by the operating system); [None] where nothing is. *)
Definition FileSystem : Type := string -> option Entry.

(** The errors the pipeline ends with.  [thread.ts] throws plain [Error]s
    that differ by their message; each constructor stands for one message
    and carries what the message interpolates. *)
Inductive Err : Type :=
| FileNotFound (filename : string)    (* The file ${filename} does not exist. *)
| ContentTooLong (shown : string)     (* It should have stopped at:\n ${block.slice(0, 280)} *)
| TooManyGifs (at_text : string)      (* Only 1 'gif' per post allowed. At ${content.text} *)
| TooManyImages (at_text : string)    (* Only 4 images per post allowed. At ${content.text} *)
| ImageTooLarge (file : string)       (* Image size must not more than 5MB. File: ${image.path} *)
| UploadFailed (error : JsValue)      (* Failed to upload image: ${finalizeResponse.error} *)
| UploadRejected (reason : JsValue)   (* a media/upload request was rejected *)
| PostFailed (reason : JsValue)       (* a statuses/update request was rejected *)
| ENOENT (file : string)              (* readFileSync on a missing file *)
| EISDIR (file : string)              (* readFileSync on a directory *)
| EACCES (file : string)              (* readFileSync without the permission to read *)
| TypeError (what : string).          (* a property read of null or undefined *)

(** ** Exceptions *)

Inductive Result (A : Type) : Type :=
| Ok (a : A)
| Throw (e : Err).
Arguments Ok {A} a.
Arguments Throw {A} e.

Definition bind {A B} (m : Result A) (k : A -> Result B) : Result B :=
  match m with
  | Ok a => k a
  | Throw e => Throw e
  end.

Declare Scope result_scope.
Delimit Scope result_scope with result.
Notation "x <- m ;; k" := (bind m (fun x => k))
  (at level 100, m at next level, right associativity) : result_scope.
Notation "m ;; k" := (bind m (fun _ => k))
  (at level 100, right associativity) : result_scope.
Local Open Scope result_scope.

(** [arr.forEach(f)] where [f] may throw. *)
Fixpoint forEach {A} (f : A -> Result unit) (arr : list A) : Result unit :=
  match arr with
  | [] => Ok tt
  | x :: xs => f x ;; forEach f xs
  end.

(** [arr.map(f)] where [f] may throw. *)
Fixpoint mapM {A B} (f : A -> Result B) (arr : list A) : Result (list B) :=
  match arr with
  | [] => Ok []
  | x :: xs => y <- f x ;; ys <- mapM f xs ;; Ok (y :: ys)
  end.

(** ** Reading files *)

Definition existsSync (fs : FileSystem) (filename : string) : bool :=
  match fs filename with Some _ => true | None => false end.

Definition readFileSync (fs : FileSystem) (filename : string) : Result File :=
  match fs filename with
  | Some (RegularFile f) => Ok f
  | Some Directory => Throw (EISDIR filename)
  | Some Unreadable => Throw (EACCES filename)
  | None => Throw (ENOENT filename)
  end.

Definition getProfile (config : list Profile) : option Profile :=
  List.find active config.

Definition checkFileExists (fs : FileSystem) (filename : string) : Result unit :=
  if existsSync fs filename then Ok tt else Throw (FileNotFound filename).

(** ** DocumentParser *)

(** [`${i}/${total}`] *)
Definition counter (i total : nat) : string :=
  Js.of_nat i +:+ "/" +:+ Js.of_nat total.

(** The callback of [makeBlocks], on a piece, its index and the array. *)
Definition makeBlock (text : string) (i : nat) (arr : list string) : string :=
  let total := length arr - 1 in
  counter i total +:+ LF +:+ LF +:+ Js.trim text.

Definition makeBlocks (fs : FileSystem) (filename : string) : Result (list string) :=
  file <- readFileSync fs filename ;;
  let arr := Js.split_dashes (utf8 file) in
  Ok (Js.mapi (fun text i => makeBlock text i arr) arr).

(** ** Validator: length *)

Definition lint_block (block : string) : Result unit :=
  if Nat.ltb 280 (String.length block)
  then Throw (ContentTooLong (Js.slice0 280 block))
  else Ok tt.

Definition lint (blocks : list string) : Result unit :=
  forEach lint_block blocks.

(** ** ContentExtractor *)

(** [/!\[.*?\]\(.+?\)/g] *)
Definition imagesRegex : list Regex.item :=
  [Regex.Chr "!"; Regex.Chr "["; Regex.LazyStar; Regex.Chr "]";
   Regex.Chr "("; Regex.LazyPlus; Regex.Chr ")"].

(** [/!\[.*?\]\((.+?)\)/]: the same items; the parenthesised group is the
    sixth of them. *)
Definition imagePathRegex : list Regex.item := imagesRegex.
Definition group1 (segs : list string) : string := nth 5 segs "".

(** [const [, path] = img.match(imagePathRegex)!; return join(...)] *)
Definition imagePath (cwd filename img : string) : Result string :=
  match Regex.match_first imagePathRegex img with
  | Some segs => Ok (Path.join (Path.resolve cwd (Path.dirname filename)) (group1 segs))
  | None => Throw (TypeError "img.match(imagePathRegex) is null")
  end.

Definition extractBlock (cwd filename block : string) : Result Content :=
  let images := Regex.match_all imagesRegex block in
  imagePaths <- mapM (imagePath cwd filename) images ;;
  let text := Regex.remove_all imagesRegex block in
  Ok {| text := text; images := imagePaths |}.

Definition extractImage (cwd : string) (blocks : list string) (filename : string)
  : Result (list Content) :=
  mapM (extractBlock cwd filename) blocks.

(** ** Validator: media mix and size *)

(** The body of the inner [forEach] of [checkImageNumberPerPost]. *)
Definition checkImageNumber (content : Content) (path : string) : Result unit :=
  let ext := Js.slice1 (Path.extname path) in
  if String.eqb ext "gif"
  then if Nat.ltb 1 (length (images content))
       then Throw (TooManyGifs (text content)) else Ok tt
  else if Nat.ltb 4 (length (images content))
       then Throw (TooManyImages (text content)) else Ok tt.

Definition checkContent (content : Content) : Result unit :=
  forEach (checkImageNumber content) (images content).

Definition checkImageNumberPerPost (contents : list Content) : Result unit :=
  forEach checkContent contents.

Definition checkImageSize (image : ImageData) : Result unit :=
  if Z.ltb 5242880 (total_bytes image)
  then Throw (ImageTooLarge (path image))
  else Ok tt.

Definition getImagesData (fs : FileSystem) (path : string) : Result ImageData :=
  buffer <- readFileSync fs path ;;
  Ok {| path := path;
        total_bytes := byte_length buffer;
        media_type := "image/" +:+ Js.slice1 (Path.extname path);
        media_data := base64 buffer |}.

(** [contents.reduce((acc, b) => [...acc, ...b.images], [])
      .filter((path, i, arr) => arr.indexOf(path) === i)] *)
Definition allImages (contents : list Content) : list string :=
  fold_left (fun acc b => acc ++ images b) contents [].

Definition firstOccurrence (path : string) (i : nat) (arr : list string) : bool :=
  match Js.indexOf path arr with
  | Some j => Nat.eqb j i
  | None => false
  end.

Definition uniqueImagePaths (contents : list Content) : list string :=
  Js.filteri firstOccurrence (allImages contents).

(** Lines 93 to 104 of the [post] action: everything that happens before
    the confirmation prompt.  No request is sent here. *)
Definition prepare (fs : FileSystem) (cwd filename : string)
  : Result (list Content * list ImageData) :=
  checkFileExists fs filename ;;
  blocks <- makeBlocks fs filename ;;
  contents <- extractImage cwd blocks filename ;;
  lint (map text contents) ;;
  let imagePaths := uniqueImagePaths contents in
  forEach (checkFileExists fs) imagePaths ;;
  checkImageNumberPerPost contents ;;
  imagesData <- mapM (getImagesData fs) imagePaths ;;
  forEach checkImageSize imagesData ;;
  Ok (contents, imagesData).

(** ** The Twitter client

    [tw.post(endpoint, params)] sends one request and returns a promise
    that resolves to the decoded body of the answer or rejects. *)

Record Json : Type := {
  media_id_string : option string;
  error : JsValue;
  id_str : option string;
}.

Inductive Response : Type :=
| Resolve (body : Json)
| Reject (reason : JsValue).

(** The [in_reply_to_status_id] parameter: absent in the request of the
    first post, the [id_str] of the previous answer in the others. *)
Inductive ReplyTarget : Type :=
| NoReply
| ReplyTo (id : option string).

Inductive Request : Type :=
| MediaInit (total_bytes : Z) (media_type : string)
| MediaAppend (media_id : option string) (media_data : string) (segment_index : Z)
| MediaFinalize (media_id : option string)
| StatusUpdate (status : string) (media_ids : string) (in_reply_to_status_id : ReplyTarget).

Definition endpoint (r : Request) : string :=
  match r with
  | MediaInit _ _ | MediaAppend _ _ _ | MediaFinalize _ => "media/upload"
  | StatusUpdate _ _ _ => "statuses/update"
  end.

(** Who issued a request: the upload pipeline of an image, or [post] at
    an index. *)
Inductive Origin : Type :=
| Upload (path : string)
| Post (index : nat).

(** One entry of the log: a request and the answer its promise settles to. *)
Record Call : Type := {
  origin : Origin;
  request : Request;
  response : Response;
}.

Definition isCreatePost (c : Call) : bool :=
  match request c with StatusUpdate _ _ _ => true | _ => false end.

Definition isInitOf (p : string) (c : Call) : bool :=
  match origin c, request c with
  | Upload q, MediaInit _ _ => String.eqb p q
  | _, _ => false
  end.

Definition isAppendOf (p : string) (c : Call) : bool :=
  match origin c, request c with
  | Upload q, MediaAppend _ _ _ => String.eqb p q
  | _, _ => false
  end.

Definition isFinalizeOf (p : string) (c : Call) : bool :=
  match origin c, request c with
  | Upload q, MediaFinalize _ => String.eqb p q
  | _, _ => false
  end.

Definition count (p : Call -> bool) (log : list Call) : nat :=
  length (List.filter p log).

(** The state of one image's pipeline between two of its steps: which
    promise it awaits and what that promise settles to, or how it ended. *)
Inductive Pipeline : Type :=
| AwaitInit (r : Response)
| AwaitAppend (mediaId : option string) (r : Response)
| AwaitFinalize (r : Response)
| Uploaded (u : UploadedMedia)
| Failed (e : Err).

Inductive UploadOutcome : Type :=
| AllUploaded (pathAndImageId : list UploadedMedia)
| UploadAborted (e : Err)
| UploadPending.

(** How a run of the [post] action ends. *)
Inductive Outcome : Type :=
| NoProfile                 (* There is no active profile. Did you add one? *)
| Thrown (e : Err)
| Declined                  (* Tweets do not post. *)
| Hung                      (* an upload never answers *)
| Completed (final : Json). (* Post Completed *)

(** [mediaIds.join(',')]: [undefined] elements print as nothing. *)
Definition joinIds (ids : list (option string)) : string :=
  Js.join "," (map (fun id => match id with Some s => s | None => "" end) ids).

Section Network.

(** The remote side: a state, and for each request it receives the
    answer it will give and its next state.  The answer is fixed when the
    request is sent; when it reaches the program is up to the schedule of
    [uploadImages] below. *)
Variable World : Type.
Variable respond : Request -> World -> Response * World.

Record UploadState : Type := {
  world : World;
  pipes : list Pipeline;
  log : list Call;
  rejection : option Err;   (* what [Promise.all] rejected with, if it did *)
}.

(** The synchronous part of [data.map(async imgData => ...)]: each
    callback runs up to its first [await], that is, sends INIT. *)
Definition launch_one (st : UploadState) (imgData : ImageData) : UploadState :=
  let req := MediaInit (total_bytes imgData) (media_type imgData) in
  let '(resp, w) := respond req (world st) in
  {| world := w;
     pipes := pipes st ++ [AwaitInit resp];
     log := log st ++ [{| origin := Upload (path imgData); request := req; response := resp |}];
     rejection := rejection st |}.

Definition launch (data : list ImageData) (w : World) : UploadState :=
  fold_left launch_one data
    {| world := w; pipes := []; log := []; rejection := None |}.

(** Pipeline [k] sends [req] and awaits its answer. *)
Definition send (st : UploadState) (k : nat) (imgData : ImageData)
    (req : Request) (next : Response -> Pipeline) : UploadState :=
  let '(resp, w) := respond req (world st) in
  {| world := w;
     pipes := <[k := next resp]> (pipes st);
     log := log st ++ [{| origin := Upload (path imgData); request := req; response := resp |}];
     rejection := rejection st |}.

(** Pipeline [k] throws: its promise rejects, and so does [Promise.all]
    unless it already has. *)
Definition fail (st : UploadState) (k : nat) (e : Err) : UploadState :=
  {| world := world st;
     pipes := <[k := Failed e]> (pipes st);
     log := log st;
     rejection := match rejection st with Some e0 => Some e0 | None => Some e end |}.

Definition finish (st : UploadState) (k : nat) (u : UploadedMedia) : UploadState :=
  {| world := world st;
     pipes := <[k := Uploaded u]> (pipes st);
     log := log st;
     rejection := rejection st |}.

(** The promise awaited by pipeline [k] settles and the callback of
    [uploadImages] runs up to its next [await], or to its end. *)
Definition resume (data : list ImageData) (st : UploadState) (k : nat) : UploadState :=
  match data !! k, pipes st !! k with
  | Some imgData, Some (AwaitInit (Resolve initResponse)) =>
      let mediaId := media_id_string initResponse in
      send st k imgData (MediaAppend mediaId (media_data imgData) 0)
        (AwaitAppend mediaId)
  | Some imgData, Some (AwaitAppend mediaId (Resolve _)) =>
      send st k imgData (MediaFinalize mediaId) AwaitFinalize
  | Some imgData, Some (AwaitFinalize (Resolve finalizeResponse)) =>
      if truthy (error finalizeResponse)
      then fail st k (UploadFailed (error finalizeResponse))
      else finish st k {| up_path := path imgData;
                          mediaId := media_id_string finalizeResponse |}
  | Some _, Some (AwaitInit (Reject reason))
  | Some _, Some (AwaitAppend _ (Reject reason))
  | Some _, Some (AwaitFinalize (Reject reason)) =>
      fail st k (UploadRejected reason)
  | _, _ => st
  end.

(** [uploadImages]: [Promise.all] over one [async] callback per image.
    The callbacks are launched in order; after that they interleave, each
    running from one [await] to the next when the answer it waits for
    arrives.  [sched] lists whose answer arrives next: every interleaving
    of the pipelines is the run of some schedule.  A turn given to a
    pipeline that has ended changes nothing; a schedule that ends while a
    pipeline still waits is a network that never answers it.  A rejection
    does not cancel the other pipelines: they go on as scheduled. *)
Definition uploadImages (data : list ImageData) (sched : list nat) (w : World)
  : UploadState :=
  fold_left (resume data) sched (launch data w).

Definition uploaded (p : Pipeline) : option UploadedMedia :=
  match p with Uploaded u => Some u | _ => None end.

Fixpoint allUploaded (ps : list Pipeline) : option (list UploadedMedia) :=
  match ps with
  | [] => Some []
  | p :: ps' =>
      match uploaded p, allUploaded ps' with
      | Some u, Some us => Some (u :: us)
      | _, _ => None
      end
  end.

(** What [await Promise.all(...)] gives the action. *)
Definition settle (st : UploadState) : UploadOutcome :=
  match rejection st with
  | Some e => UploadAborted e
  | None =>
      match allUploaded (pipes st) with
      | Some us => AllUploaded us
      | None => UploadPending
      end
  end.

(** [post]: the request for [index] is sent once the recursive call for
    [index - 1] has returned, and carries the [id_str] of its answer. *)
Fixpoint post (index : nat) (contents : list PostContent) (w : World)
  : Result Json * World * list Call :=
  match contents !! index with
  | None => (Throw (TypeError "contents[index] is undefined"), w, [])
  | Some content =>
      let status := post_text content in
      let media_ids := joinIds (mediaIds content) in
      match index with
      | 0 =>
          let req := StatusUpdate status media_ids NoReply in
          let '(resp, w') := respond req w in
          let call := {| origin := Post 0; request := req; response := resp |} in
          match resp with
          | Resolve response => (Ok response, w', [call])
          | Reject reason => (Throw (PostFailed reason), w', [call])
          end
      | S previous =>
          match post previous contents w with
          | (Throw e, w1, log1) => (Throw e, w1, log1)
          | (Ok prev, w1, log1) =>
              let req := StatusUpdate status media_ids (ReplyTo (id_str prev)) in
              let '(resp, w2) := respond req w1 in
              let call := {| origin := Post index; request := req; response := resp |} in
              match resp with
              | Resolve response => (Ok response, w2, log1 ++ [call])
              | Reject reason => (Throw (PostFailed reason), w2, log1 ++ [call])
              end
          end
      end
  end.

(** [post({ tw, index: postContents.length - 1, contents: postContents })]:
    on an empty array the index is -1 and [contents[-1].text] throws. *)
Definition postThread (contents : list PostContent) (w : World)
  : Result Json * World * list Call :=
  match length contents with
  | 0 => (Throw (TypeError "contents[index] is undefined"), w, [])
  | S index => post index contents w
  end.

(** [pathAndImageId.find(img => path === img.path)] then [it?.mediaId] *)
Definition resolveMediaId (pathAndImageId : list UploadedMedia) (path : string)
  : option string :=
  match List.find (fun img => String.eqb path (up_path img)) pathAndImageId with
  | Some it => mediaId it
  | None => None
  end.

Definition makePostContent (pathAndImageId : list UploadedMedia) (content : Content)
  : PostContent :=
  {| post_text := text content;
     mediaIds := map (resolveMediaId pathAndImageId) (images content) |}.

Definition confirmed (input : string) : bool :=
  String.eqb (Js.toLowerCase input) "y".

(** Lines 106 to 126 of the [post] action: the prompt, the uploads and
    the posts.  Returns how the run ends and the requests it sent. *)
Definition publish (contents : list Content) (imagesData : list ImageData)
    (input : string) (sched : list nat) (w : World) : Outcome * list Call :=
  if negb (confirmed input) then (Declined, [])
  else
    let st := uploadImages imagesData sched w in
    match settle st with
    | UploadAborted e => (Thrown e, log st)
    | UploadPending => (Hung, log st)
    | AllUploaded pathAndImageId =>
        let postContents := map (makePostContent pathAndImageId) contents in
        match postThread postContents (world st) with
        | (Ok response, _, plog) => (Completed response, log st ++ plog)
        | (Throw e, _, plog) => (Thrown e, log st ++ plog)
        end
    end.

(** The action of [post <filename>]. *)
Definition postAction (config : list Profile) (fs : FileSystem)
    (cwd filename input : string) (sched : list nat) (w : World)
  : Outcome * list Call :=
  match getProfile config with
  | None => (NoProfile, [])
  | Some profile =>
      match prepare fs cwd filename with
      | Throw e => (Thrown e, [])
      | Ok (contents, imagesData) => publish contents imagesData input sched w
      end
  end.

End Network.

Arguments world {World}.
Arguments pipes {World}.
Arguments log {World}.
Arguments rejection {World}.

(** ** An in-memory client

    It numbers the requests it receives and answers each with fresh ids;
    it rejects the requests whose number is in [reject] and reports an
    error on the FINALIZE requests whose number is in [broken]. *)

Module Fake.

Record World : Type := {
  served : nat;
  reject : list nat;
  broken : list nat;
}.

Definition mem (n : nat) (l : list nat) : bool := List.existsb (Nat.eqb n) l.

Definition respond (req : Request) (w : World) : Response * World :=
  let n := served w in
  let w' := {| served := S n; reject := reject w; broken := broken w |} in
  let id := Js.of_nat n in
  if mem n (reject w) then (Reject (JStr "rejected"), w')
  else
    match req with
    | MediaFinalize media_id =>
        (Resolve {| media_id_string := media_id;
                    error := if mem n (broken w) then JStr "InvalidMedia" else JUndefined;
                    id_str := None |}, w')
    | StatusUpdate _ _ _ =>
        (Resolve {| media_id_string := None; error := JUndefined;
                    id_str := Some ("t" +:+ id) |}, w')
    | MediaInit _ _ =>
        (Resolve {| media_id_string := Some ("m" +:+ id); error := JUndefined;
                    id_str := None |}, w')
    | MediaAppend _ _ _ =>
        (Resolve {| media_id_string := None; error := JUndefined;
                    id_str := None |}, w')
    end.

Definition fresh : World := {| served := 0; reject := []; broken := [] |}.

End Fake.

(** * Vocabulary of the properties *)

(** ** Trimming *)

Definition all_white (s : string) : bool :=
  forallb Js.is_white (list_ascii_of_string s).

Definition starts_white (s : string) : bool :=
  match s with String c _ => Js.is_white c | EmptyString => false end.

Definition ends_white (s : string) : bool := starts_white (Js.rev s).

(** ** Media mix *)

(** The test of the [switch] of [checkImageNumberPerPost]. *)
Definition is_gif (path : string) : bool :=
  String.eqb (Js.slice1 (Path.extname path)) "gif".

Definition has_gif (content : Content) : bool := existsb is_gif (images content).

Definition first_is_gif (content : Content) : bool :=
  match images content with
  | p :: _ => is_gif p
  | [] => false
  end.

Definition plain_char (c : ascii) : bool := Path.not_slash c && Path.not_dot c.

(** ** Matchers *)

(** Three facts about a matcher [k]: it consumes a prefix of its input,
    it only reads what it consumes, and it fails on a prefix of an input
    on which it fails. *)
Definition consumes_prefix (k : string -> option (list string)) : Prop :=
  forall s segs, k s = Some segs -> exists rest, s = Regex.text segs +:+ rest.
Definition stable (k : string -> option (list string)) : Prop :=
  forall s segs, k s = Some segs -> k (Regex.text segs) = Some segs.
Definition fails_on_prefix (k : string -> option (list string)) : Prop :=
  forall m rest, k (m +:+ rest) = None -> k m = None.

(** ** What a successful [prepare] has checked *)

Record Prepared (fs : FileSystem) (cwd filename : string)
    (contents : list Content) (imagesData : list ImageData) : Prop := {
  prep_blocks : exists blocks, makeBlocks fs filename = Ok blocks
                               /\ extractImage cwd blocks filename = Ok contents;
  prep_lint : lint (map text contents) = Ok tt;
  prep_exist : forEach (checkFileExists fs) (uniqueImagePaths contents) = Ok tt;
  prep_number : checkImageNumberPerPost contents = Ok tt;
  prep_data : mapM (getImagesData fs) (uniqueImagePaths contents) = Ok imagesData;
  prep_size : forEach checkImageSize imagesData = Ok tt;
}.

(** ** Vocabulary of the upload invariant *)

(** The log holds a FINALIZE of the pipeline of [p] answered by [r]. *)
Definition finalizeLogged (lg : list Call) (p : string) (r : Response) : Prop :=
  exists call, In call lg /\ isFinalizeOf p call = true /\ response call = r.

(** How far the pipeline of [img] has come, read off the log. *)
Definition pipeline_ok (lg : list Call) (img : ImageData) (pipe : Pipeline) : Prop :=
  let p := path img in
  count (isInitOf p) lg = 1 /\
  match pipe with
  | AwaitInit _ =>
      count (isAppendOf p) lg = 0 /\ count (isFinalizeOf p) lg = 0
  | AwaitAppend _ _ =>
      count (isAppendOf p) lg = 1 /\ count (isFinalizeOf p) lg = 0
  | AwaitFinalize r =>
      count (isAppendOf p) lg = 1 /\ count (isFinalizeOf p) lg = 1
      /\ finalizeLogged lg p r
  | Uploaded u =>
      count (isAppendOf p) lg = 1 /\ count (isFinalizeOf p) lg = 1
      /\ up_path u = p
      /\ exists body, finalizeLogged lg p (Resolve body)
                      /\ mediaId u = media_id_string body
                      /\ truthy (error body) = false
  | Failed _ =>
      count (isAppendOf p) lg <= 1 /\ count (isFinalizeOf p) lg <= 1
  end.

Record upload_inv {World : Type} (data : list ImageData) (st : UploadState World)
  : Prop := {
  inv_length : length (pipes st) = length data;
  inv_pipes : forall k img pipe,
      data !! k = Some img -> pipes st !! k = Some pipe ->
      pipeline_ok (log st) img pipe;
}.

(** The upload stage posts nothing, and [Promise.all] has rejected as soon
    as one pipeline has failed. *)
Record upload_quiet {World : Type} (st : UploadState World) : Prop := {
  quiet_noposts : count isCreatePost (log st) = 0;
  quiet_origins : forall call, In call (log st) -> exists p, origin call = Upload p;
  quiet_failed : forall k e,
      pipes st !! k = Some (Failed e) -> rejection st <> None;
}.

(** The state after the pipelines of [started], a prefix of [data],
    have sent INIT. *)
Record launched {World : Type} (started : list ImageData) (st : UploadState World)
  : Prop := {
  la_length : length (pipes st) = length started;
  la_pipes : forall k pipe, pipes st !! k = Some pipe -> exists r, pipe = AwaitInit r;
  la_inits : forall p, count (isInitOf p) (log st)
                       = List.count_occ string_dec (map path started) p;
  la_appends : forall p, count (isAppendOf p) (log st) = 0;
  la_finalizes : forall p, count (isFinalizeOf p) (log st) = 0;
  la_noposts : count isCreatePost (log st) = 0;
  la_origins : forall call, In call (log st) -> exists p, origin call = Upload p;
  la_rejection : rejection st = None;
}.

(** ** Vocabulary of the reply chain *)

(** The reply target the request of index [i] must carry, given the log. *)
Definition replyOf (plog : list Call) (i : nat) (target : ReplyTarget) : Prop :=
  match i with
  | 0 => target = NoReply
  | S j => exists prev body,
      plog !! j = Some prev /\ response prev = Resolve body
      /\ target = ReplyTo (id_str body)
  end.

(** Entry [i] of the log is the createPost request of [contents[i]]. *)
Definition chain_ok (contents : list PostContent) (plog : list Call)
    (i : nat) (call : Call) : Prop :=
  origin call = Post i /\
  exists content target,
    contents !! i = Some content
    /\ request call
       = StatusUpdate (post_text content) (joinIds (mediaIds content)) target
    /\ replyOf plog i target.

(** What [post] at [index] leaves behind. *)
Record posted (contents : list PostContent) (index : nat)
    (res : Result Json) (plog : list Call) : Prop := {
  po_length : length plog <= S index;
  po_chain : forall i call, plog !! i = Some call -> chain_ok contents plog i call;
  po_earlier : forall i call,
      plog !! i = Some call -> S i < length plog ->
      exists body, response call = Resolve body;
  po_ok : forall r, res = Ok r ->
      length plog = S index
      /\ exists call, plog !! index = Some call /\ response call = Resolve r;
  po_throw : forall e, res = Throw e ->
      exists i call reason,
        plog !! i = Some call /\ response call = Reject reason
        /\ e = PostFailed reason /\ length plog = S i;
}.

(** ** Vocabulary of the exchange with the client *)

(** The log is the exchange with the client that starts in state [w] and
    ends in state [w']: the requests were handed to the client one after
    the other in the order of the log, and each answer logged is the one the
    client gave. *)
Fixpoint exchanged {World : Type} (respond : Request -> World -> Response * World)
    (w : World) (lg : list Call) (w' : World) : Prop :=
  match lg with
  | [] => w' = w
  | call :: rest =>
      response call = (respond (request call) w).1
      /\ exchanged respond (respond (request call) w).2 rest w'
  end.

(** A client that answers without an error every request it gets in a
    state of [Good], and stays in [Good]: it rejects nothing, and no answer
    carries an error indicator. *)
Definition cooperative {World : Type} (respond : Request -> World -> Response * World)
    (Good : World -> Prop) : Prop :=
  forall req w, Good w ->
    Good (respond req w).2
    /\ exists body, (respond req w).1 = Resolve body /\ truthy (error body) = false.

(** The number of answers the schedule delivers to pipeline [k]. *)
Definition turns (sched : list nat) (k : nat) : nat := count_occ Nat.eq_dec sched k.

(** The schedule delivers its three answers to each of [n] pipelines. *)
Definition complete (n : nat) (sched : list nat) : Prop :=
  forall k, k < n -> 3 <= turns sched k.

(** Where a pipeline stands after [n] answers of a cooperative client. *)
Definition advanced (n : nat) (pipe : Pipeline) : Prop :=
  match n with
  | 0 => exists b, pipe = AwaitInit (Resolve b)
  | 1 => exists mediaId b, pipe = AwaitAppend mediaId (Resolve b)
  | 2 => exists b, pipe = AwaitFinalize (Resolve b) /\ truthy (error b) = false
  | _ => exists u, pipe = Uploaded u
  end.

(** The upload stage after the answers of [delivered] have arrived from a
    cooperative client. *)
Record upload_progress {World : Type} (Good : World -> Prop) (data : list ImageData)
    (delivered : list nat) (st : UploadState World) : Prop := {
  pr_good : Good (world st);
  pr_rejection : rejection st = None;
  pr_length : length (pipes st) = length data;
  pr_pipes : forall k pipe,
      pipes st !! k = Some pipe -> advanced (turns delivered k) pipe;
}.

(** * Sample inputs *)

Module Sample.

Definition keys : TwitterCredential :=
  {| consumer_key := "ck"; consumer_secret := "cs";
     access_token_key := "tk"; access_token_secret := "ts" |}.

Definition config : list Profile :=
  [{| name := "draft"; active := false; credential := keys |};
   {| name := "main"; active := true; credential := keys |}].

Definition textFile (s : string) : File :=
  {| utf8 := s; byte_length := Z.of_nat (String.length s); base64 := "" |}.

Definition imageFile (size : Z) : File :=
  {| utf8 := ""; byte_length := size; base64 := "iVBORw0KGgo=" |}.

(** A directory [/home/me] holding a document [thread.md], looked up
    from inside it, and a list of further files by absolute path. *)
Definition directory (document : string) (files : list (string * File)) : FileSystem :=
  fun p =>
    if String.eqb p "thread.md" then Some (RegularFile (textFile document))
    else option_map (fun e => RegularFile (snd e))
           (List.find (fun e => String.eqb p (fst e)) files).

Definition cwd : string := "/home/me".

(** The two-block document of the specification's example. *)
Definition helloWorld : string :=
  "Hello ![a](./img.png)" +:+ LF +:+ "---" +:+ LF +:+ "World".

Definition helloFs : FileSystem :=
  directory helloWorld [("/home/me/img.png", imageFile 1000)].

Definition helloContents : list Content :=
  [{| text := "0/1" +:+ LF +:+ LF +:+ "Hello "; images := ["/home/me/img.png"] |};
   {| text := "1/1" +:+ LF +:+ LF +:+ "World"; images := [] |}].
Definition helloImages : list ImageData :=
  [{| path := "/home/me/img.png"; total_bytes := 1000; media_type := "image/png";
      media_data := "iVBORw0KGgo=" |}].

(** Blocks with white space around them. *)
Definition spaced : string := " a --- b ".
Definition spacedFs : FileSystem := directory spaced [].

(** The same picture in two blocks, spelled in two ways. *)
Definition sharedPicture : string :=
  "One ![a](pic.png)" +:+ LF +:+ "---" +:+ LF +:+ "Two ![b](./pic.png)".
Definition sharedFs : FileSystem :=
  directory sharedPicture [("/home/me/pic.png", imageFile 2048)].

Definition sharedContents : list Content :=
  [{| text := "0/1" +:+ LF +:+ LF +:+ "One "; images := ["/home/me/pic.png"] |};
   {| text := "1/1" +:+ LF +:+ LF +:+ "Two "; images := ["/home/me/pic.png"] |}].
Definition sharedImages : list ImageData :=
  [{| path := "/home/me/pic.png"; total_bytes := 2048; media_type := "image/png";
      media_data := "iVBORw0KGgo=" |}].

(** A picture of 6,000,000 bytes. *)
Definition bigFs : FileSystem :=
  directory "Look ![big](big.png)" [("/home/me/big.png", imageFile 6000000)].

(** The picture [big.png] is a directory. *)
Definition folderFs : FileSystem :=
  fun p => if String.eqb p "/home/me/big.png" then Some Directory else bigFs p.

(** A second block of 300 letters. *)
Fixpoint letters (n : nat) : string :=
  match n with
  | 0 => ""
  | S n' => String "x" (letters n')
  end.
Definition longFs : FileSystem :=
  directory ("Short" +:+ LF +:+ "---" +:+ LF +:+ letters 300) [].

(** The picture of 6,000,000 bytes in a block of more than 280 letters. *)
Definition bigLongFs : FileSystem :=
  directory ("Look ![big](big.png)" +:+ letters 300)
    [("/home/me/big.png", imageFile 6000000)].

(** Five images, the second of them a gif. *)
Definition mixed : Content :=
  {| text := "0/0";
     images := ["/home/me/a.png"; "/home/me/b.gif"; "/home/me/c.png";
                "/home/me/d.png"; "/home/me/e.png"] |}.

(** Two pictures whose extension is an upper-case spelling of gif. *)
Definition shouting : Content :=
  {| text := "0/0"; images := ["/home/me/a.GIF"; "/home/me/b.Gif"] |}.

Definition twoPosts : list PostContent :=
  [{| post_text := "0/1"; mediaIds := [Some "m7"; None] |};
   {| post_text := "1/1"; mediaIds := [] |}].

Definition twoImages : list ImageData :=
  [{| path := "/home/me/a.png"; total_bytes := 10; media_type := "image/png";
      media_data := "AAAA" |};
   {| path := "/home/me/b.png"; total_bytes := 20; media_type := "image/png";
      media_data := "BBBB" |}].

End Sample.

(** The parsing stage as the specification words it: the raw pieces of
    the unfiltered split, untrimmed. *)
Definition rawBlocks (document : string) : list string := Js.split_dashes document.

(** The media-mix rule as the specification words it, with the error it
    names for each case. *)
Definition mediaMixAsStated (content : Content) : Prop :=
  (has_gif content = true ->
     if Nat.eqb (length (images content)) 1
     then checkContent content = Ok tt
     else checkContent content = Throw (TooManyGifs (text content)))
  /\ (has_gif content = false ->
     if Nat.leb (length (images content)) 4
     then checkContent content = Ok tt
     else checkContent content = Throw (TooManyImages (text content))).

(** The count of the posting operation as the specification words it: for
    [N] contents exactly [N] createPost calls occur. *)
Definition postCountAsStated {World : Type}
    (respond : Request -> World -> Response * World)
    (contents : list PostContent) (w : World) : Prop :=
  count isCreatePost (postThread World respond contents w).2 = length contents.

(** The size rule as the specification words it: a referenced image of
    more than 5,242,880 bytes makes the checks end with [ImageTooLarge]. *)
Definition sizeRuleAsStated (fs : FileSystem) (cwd filename : string) : Prop :=
  forall blocks contents p f,
    makeBlocks fs filename = Ok blocks ->
    extractImage cwd blocks filename = Ok contents ->
    (exists c, In c contents /\ In p (images c)) ->
    fs p = Some (RegularFile f) ->
    (5242880 < byte_length f)%Z ->
    exists q, prepare fs cwd filename = Throw (ImageTooLarge q).

(** * The profile store and the other commands *)

(** ** JavaScript objects

    An object with string keys is the list of its own properties in the
    order [Object.values], the spread syntax and [JSON.stringify] visit
    them: the keys that are array indices first, in ascending order, then
    the others in the order they were created. *)

Module Obj.

Fixpoint digits (s : string) (acc : N) : option N :=
  match s with
  | EmptyString => Some acc
  | String c s' =>
      let n := N_of_ascii c in
      if (N.leb 48 n && N.leb n 57)%bool
      then digits s' (acc * 10 + (n - 48))%N
      else None
  end.

(** An array index: a canonical decimal numeral below 2^32 - 1. *)
Definition arrayIndex (k : string) : option N :=
  match k with
  | EmptyString => None
  | _ =>
      match digits k 0 with
      | Some n =>
          if (N.leb n 4294967294
              && String.eqb (NilZero.string_of_uint (N.to_uint n)) k)%bool
          then Some n else None
      | None => None
      end
  end.

(** [precedes k k']: a property with key [k] is visited before one with
    key [k'] whenever it was created. *)
Definition precedes (k k' : string) : bool :=
  match arrayIndex k, arrayIndex k' with
  | Some n, Some n' => N.ltb n n'
  | Some _, None => true
  | None, _ => false
  end.

Section Properties.
Variable V : Type.

Definition t : Type := list (string * V).

(** Create or overwrite the own property [k]: what an object literal,
    the spread syntax and [JSON.parse] do with a key. *)
Fixpoint define (k : string) (v : V) (o : t) : t :=
  match o with
  | [] => [(k, v)]
  | (k', v') :: o' =>
      if String.eqb k k' then (k, v) :: o'
      else if precedes k k' then (k, v) :: (k', v') :: o'
      else (k', v') :: define k v o'
  end.

(** [o[k] = v] on an ordinary object, with a value that is an object: the
    key [__proto__] reaches the setter of [Object.prototype], which
    replaces the prototype and creates no property. *)
Definition assign (k : string) (v : V) (o : t) : t :=
  if String.eqb k "__proto__" then o else define k v o.

(** [Object.values(o)] *)
Definition values (o : t) : list V := map snd o.

Definition keys (o : t) : list string := map fst o.

(** [o[k]] for an own property. *)
Definition get (k : string) (o : t) : option V :=
  option_map snd (List.find (fun e => String.eqb k (fst e)) o).

(** [{ ...o }] on top of [into]. *)
Definition spread (o into : t) : t :=
  fold_left (fun acc e => define (fst e) (snd e) acc) o into.

(** [JSON.parse] of an object whose members are [members], in the order
    of the text; [JSON.stringify] writes the properties of an object in
    their order. *)
Definition of_members (members : list (string * V)) : t := spread members [].

(** The lists that are objects: no key twice, and no key after one that
    it precedes. *)
Fixpoint ordered (o : t) : Prop :=
  match o with
  | [] => True
  | (k, _) :: o' =>
      (forall k', In k' (keys o') -> k' <> k /\ precedes k' k = false)
      /\ ordered o'
  end.

End Properties.

Arguments define {V} k v o.
Arguments assign {V} k v o.
Arguments values {V} o.
Arguments keys {V} o.
Arguments get {V} k o.
Arguments spread {V} o into.
Arguments of_members {V} members.
Arguments ordered {V} o.

End Obj.

(** ** The profile store *)

Definition Config : Type := Obj.t Profile.

(** The file [~/.thread.json]: absent, holding text that [JSON.parse]
    rejects with [message], or holding the JSON of a [Config] with these
    members. *)
Inductive ConfigFile : Type :=
| Missing
| Unparsable (message : string)
| Holds (members : list (string * Profile)).

(** [writeConfig] *)
Definition writeConfig (config : Config) : ConfigFile := Holds config.

(** [checkAndCreateConfigFile] *)
Definition checkAndCreateConfigFile (store : ConfigFile) : ConfigFile :=
  match store with
  | Missing => writeConfig []
  | _ => store
  end.

(** [readConfig]: the configuration, what is printed, and the file. *)
Definition readConfig (store : ConfigFile) : Config * list string * ConfigFile :=
  let store' := checkAndCreateConfigFile store in
  match store' with
  | Holds members => (Obj.of_members members, [], store')
  | Unparsable message => ([], [message], store')
  | Missing => ([], [], store')
  end.

(** The configuration a command reads from the file. *)
Definition configOf (store : ConfigFile) : Config := (readConfig store).1.1.

(** [getProfile], from the file. *)
Definition activeProfile (store : ConfigFile) : option Profile :=
  getProfile (Obj.values (readConfig store).1.1).

(** The options of [authenticate]; an option not given is [undefined]. *)
Record Options : Type := {
  ckey : option string;
  csecret : option string;
  tkey : option string;
  tsecret : option string;
}.

(** [!option] *)
Definition notGiven (o : option string) : bool :=
  match o with
  | None => true
  | Some s => String.eqb s ""
  end.

Definition given (o : option string) : string :=
  match o with Some s => s | None => "" end.

Definition newProfile (profileName : string) (options : Options) : Profile :=
  {| name := profileName;
     active := false;
     credential := {| consumer_key := given (ckey options);
                      consumer_secret := given (csecret options);
                      access_token_key := given (tkey options);
                      access_token_secret := given (tsecret options) |} |}.

(** The action of [authenticate <profileName>]: what it prints and the
    file it leaves. *)
Definition authenticate (profileName : string) (options : Options) (store : ConfigFile)
  : list string * ConfigFile :=
  if String.eqb profileName "" then (["Please enter a valid profile name."], store)
  else if notGiven (ckey options)
  then (["Please enter your consumer key with '--ckey'."], store)
  else if notGiven (csecret options)
  then (["Please enter your consumer secret with '--csecret'."], store)
  else if notGiven (tkey options)
  then (["Please enter your access token key with '--tkey'."], store)
  else if notGiven (tsecret options)
  then (["Please enter your access token secret with '--tsecret'."], store)
  else
    let '(config, printed, _) := readConfig store in
    let newConfig :=
      Obj.define profileName (newProfile profileName options) (Obj.spread config []) in
    (printed ++ ["Profile created."], writeConfig newConfig).

(** [{ ...profile, active: profileName === profile.name }] *)
Definition switched (profileName : string) (profile : Profile) : Profile :=
  {| name := name profile;
     active := String.eqb profileName (name profile);
     credential := credential profile |}.

(** The action of [profile:set <profileName>]. *)
Definition profileSet (profileName : string) (store : ConfigFile)
  : list string * ConfigFile :=
  if String.eqb profileName ""
  then (["Please enter a valid profile name and retry."], store)
  else
    let '(config, printed, store') := readConfig store in
    let profiles := Obj.values config in
    if negb (List.existsb (fun it => String.eqb (name it) profileName) profiles)
    then (printed ++ ["The profile does not exist. Please check the name and retry."],
          store')
    else
      let newConfig :=
        fold_left (fun acc profile =>
                     Obj.assign (name profile) (switched profileName profile) acc)
          profiles [] in
      (printed ++ ["Profile switched to " +:+ profileName +:+ "."],
       writeConfig newConfig).

(** A row of the table of [profile:list]; the mark stands for the
    check-mark cell, which is empty for an inactive profile. *)
Record Row : Type := {
  row_name : string;
  row_marked : bool;
}.

(** The action of [profile:list]: the rows of the table, what else is
    printed, and the file. *)
Definition profileList (store : ConfigFile) : list Row * list string * ConfigFile :=
  let '(config, printed, store') := readConfig store in
  (map (fun it => {| row_name := name it; row_marked := active it |})
     (Obj.values config),
   printed, store').

(** Each profile is stored under its own name. *)
Definition keyed (config : Config) : Prop :=
  forall k p, In (k, p) config -> name p = k.

Definition oneActive (config : Config) : Prop :=
  forall k k' p p',
    In (k, p) config -> In (k', p') config ->
    active p = true -> active p' = true -> k = k'.

(** The files the commands leave behind. *)
Definition tidy (store : ConfigFile) : Prop :=
  match store with
  | Missing => True
  | Unparsable _ => False
  | Holds members => Obj.ordered members /\ keyed members /\ oneActive members
  end.

(** The commands that touch the profile store. *)
Inductive Command : Type :=
| Authenticate (profileName : string) (options : Options)
| ProfileSet (profileName : string)
| ProfileList.

Definition runCommand (store : ConfigFile) (c : Command) : ConfigFile :=
  match c with
  | Authenticate profileName options => (authenticate profileName options store).2
  | ProfileSet profileName => (profileSet profileName store).2
  | ProfileList => (profileList store).2
  end.

Definition runCommands (store : ConfigFile) (cs : list Command) : ConfigFile :=
  fold_left runCommand cs store.

(** Inputs for the examples of the profile commands. *)
Module Demo.

Definition options : Options :=
  {| ckey := Some "ck"; csecret := Some "cs"; tkey := Some "tk"; tsecret := Some "ts" |}.

Definition noSecret : Options :=
  {| ckey := Some "ck"; csecret := None; tkey := Some "tk"; tsecret := Some "ts" |}.

(** A file written by three [authenticate] and one [profile:set]. *)
Definition store : ConfigFile :=
  runCommands Missing
    [Authenticate "main" options; Authenticate "7" options;
     Authenticate "draft" options; ProfileSet "draft"].

(** A file that holds a profile named [__proto__]. *)
Definition protoStore : ConfigFile :=
  runCommands Missing [Authenticate "main" options; Authenticate "__proto__" options].

End Demo.

(** The errors an upload aborts with. *)
Definition guarded_upload (e : Err) : bool :=
  match e with
  | UploadFailed _ | UploadRejected _ => true
  | _ => false
  end.

(** ** The requests of one pipeline *)

Definition fromPipeline (p : string) (c : Call) : bool :=
  match origin c with
  | Upload q => String.eqb p q
  | Post _ => false
  end.

(** The requests of the pipeline of [p], in the order they were sent. *)
Definition pipelineLog (p : string) (lg : list Call) : list Call :=
  List.filter (fromPipeline p) lg.

Definition initCall (img : ImageData) (r : Response) : Call :=
  {| origin := Upload (path img);
     request := MediaInit (total_bytes img) (media_type img);
     response := r |}.

Definition appendCall (img : ImageData) (mediaId : option string) (r : Response) : Call :=
  {| origin := Upload (path img);
     request := MediaAppend mediaId (media_data img) 0;
     response := r |}.

Definition finalizeCall (img : ImageData) (mediaId : option string) (r : Response) : Call :=
  {| origin := Upload (path img);
     request := MediaFinalize mediaId;
     response := r |}.

(** What the pipeline of [img] has sent when it is in state [pipe]: INIT,
    then APPEND with the id INIT returned, then FINALIZE with the same id,
    each after a positive answer to the one before. *)
Definition pipeline_trace (img : ImageData) (pipe : Pipeline) (lg : list Call) : Prop :=
  match pipe with
  | AwaitInit r => lg = [initCall img r]
  | AwaitAppend mediaId r =>
      exists b, mediaId = media_id_string b
                /\ lg = [initCall img (Resolve b); appendCall img mediaId r]
  | AwaitFinalize r =>
      exists b a,
        lg = [initCall img (Resolve b);
              appendCall img (media_id_string b) (Resolve a);
              finalizeCall img (media_id_string b) r]
  | Uploaded u =>
      exists b a f,
        truthy (error f) = false
        /\ u = {| up_path := path img; mediaId := media_id_string f |}
        /\ lg = [initCall img (Resolve b);
                 appendCall img (media_id_string b) (Resolve a);
                 finalizeCall img (media_id_string b) (Resolve f)]
  | Failed e =>
      (exists reason,
          e = UploadRejected reason /\ lg = [initCall img (Reject reason)])
      \/ (exists b reason,
            e = UploadRejected reason
            /\ lg = [initCall img (Resolve b);
                     appendCall img (media_id_string b) (Reject reason)])
      \/ (exists b a reason,
            e = UploadRejected reason
            /\ lg = [initCall img (Resolve b);
                     appendCall img (media_id_string b) (Resolve a);
                     finalizeCall img (media_id_string b) (Reject reason)])
      \/ (exists b a f,
            truthy (error f) = true /\ e = UploadFailed (error f)
            /\ lg = [initCall img (Resolve b);
                     appendCall img (media_id_string b) (Resolve a);
                     finalizeCall img (media_id_string b) (Resolve f)])
  end.

Record upload_traced {World : Type} (data : list ImageData) (st : UploadState World)
  : Prop := {
  tr_length : length (pipes st) = length data;
  tr_pipes : forall k img pipe,
      data !! k = Some img -> pipes st !! k = Some pipe ->
      pipeline_trace img pipe (pipelineLog (path img) (log st));
  tr_origins : forall call, In call (log st) ->
      exists img, In img data /\ origin call = Upload (path img);
  tr_uploaded : forall k u, pipes st !! k = Some (Uploaded u) ->
      exists img, data !! k = Some img /\ up_path u = path img;
  tr_rejection : forall e, rejection st = Some e -> guarded_upload e = true;
}.

(** The errors the [post] action can end with; the other two would come
    from a read of a path that no check has found, or of a property of
    [undefined]. *)
Definition guarded (e : Err) : bool :=
  match e with
  | TypeError _ | ENOENT _ => false
  | _ => true
  end.

(** [e] is the error of reading [p], a path that exists and is not a file
    the process can read. *)
Definition readErrorAt (fs : FileSystem) (e : Err) (p : string) : Prop :=
  (e = EISDIR p /\ fs p = Some Directory)
  \/ (e = EACCES p /\ fs p = Some Unreadable).

(** The errors of the checks. *)
Definition checkError (e : Err) : bool :=
  match e with
  | FileNotFound _ | ContentTooLong _ | TooManyGifs _ | TooManyImages _
  | ImageTooLarge _ => true
  | _ => false
  end.

Definition isReadError (e : Err) : bool :=
  match e with
  | EISDIR _ | EACCES _ => true
  | _ => false
  end.

(** ** The [lint] and [apply] commands *)

(** The text holds the three-dash delimiter somewhere. *)
Definition hasDelimiter (s : string) : Prop :=
  exists a b, s = a +:+ "---" +:+ b.


(** [`${counter} ${text}`] *)
Definition currentBlock (i total : nat) (text : string) : string :=
  counter i total +:+ " " +:+ text.

(** The first line the [lint] command prints for a block. *)
Definition blockReport (i total : nat) (text : string) : string :=
  "Block [" +:+ counter i total +:+ "]: " +:+ text +:+ LF
  +:+ "It has " +:+ Js.of_nat (String.length (currentBlock i total text))
  +:+ " characters.".

(** The line it prints for a block that is too long; [console.log] puts
    a space between its two arguments. *)
Definition stopReport (i total : nat) (text : string) : string :=
  "It should have stopped at:" +:+ LF +:+ " "
  +:+ Js.slice0 280 (currentBlock i total text).

(** The loop of the [lint] command from block [i] on; each element is
    one call of [console.log]. *)
Fixpoint lintLoop (blocks : list string) (i total : nat) : list string :=
  match blocks with
  | [] => []
  | text :: rest =>
      blockReport i total text
      :: if Nat.ltb 280 (String.length (currentBlock i total text))
         then [stopReport i total text]
         else "---" :: lintLoop rest (S i) total
  end.

(** The action of [lint <filename>]: what it prints, or the error of the
    read, thrown before anything is printed. *)
Definition lintCommand (fs : FileSystem) (filename : string) : Result (list string) :=
  if negb (existsSync fs filename)
  then Ok ["The file " +:+ filename +:+ " does not exist."]
  else
    file <- readFileSync fs filename ;;
    let blocks := Js.split_dashes (utf8 file) in
    Ok (lintLoop blocks 0 (length blocks - 1) ++ ["Completed"]).

(** The action of [apply <filename>]: what it prints, or the error of the
    read. *)
Definition applyCommand (fs : FileSystem) (filename : string) : Result (list string) :=
  if negb (existsSync fs filename)
  then Ok ["The file " +:+ filename +:+ " does not exist."]
  else
    file <- readFileSync fs filename ;;
    let blocks := Js.split_dashes (utf8 file) in
    let mappedBlocks :=
      Js.mapi (fun it i => currentBlock i (length blocks - 1) it) blocks in
    Ok [Js.join ("---" +:+ LF) mappedBlocks].


(** ** Vocabulary of the de-duplication *)

(** The first occurrences of the elements of a list, in the order of the
    list: its head, then the first occurrences of its tail without those
    of the head. *)
Fixpoint keepFirst (l : list string) : list string :=
  match l with
  | [] => []
  | x :: rest => x :: List.filter (fun y => negb (String.eqb y x)) (keepFirst rest)
  end.

(** [y] is not among [seen]. *)
Definition unseen (seen : list string) (y : string) : bool :=
  negb (List.existsb (String.eqb y) seen).

(** ** Vocabulary of the [apply] round trip *)

(** The last character of the text is a dash. *)
Fixpoint ends_dash (s : string) : bool :=
  match s with
  | EmptyString => false
  | String c EmptyString => Js.is_dash c
  | String _ rest => ends_dash rest
  end.

(** The text holds no dash. *)
Fixpoint no_dash (s : string) : bool :=
  match s with
  | EmptyString => true
  | String c rest => negb (Js.is_dash c) && no_dash rest
  end.

(** Block [i] of the output of [apply], as a later split finds it: the
    line feed that follows the delimiter belongs to the next block. *)
Definition appliedBlock (i total : nat) (text : string) : string :=
  match i with
  | 0 => currentBlock 0 total text
  | S _ => LF +:+ currentBlock i total text
  end.
(** * Properties *)

(** ** The functions on small inputs *)

Example split_two_pieces : Js.split_dashes "a---b" = ["a"; "b"].
Proof. reflexivity. Qed.

Example split_keeps_empty_pieces : Js.split_dashes "a------" = ["a"; ""; ""].
Proof. reflexivity. Qed.

Example split_leftmost : Js.split_dashes "----" = [""; "-"].
Proof. reflexivity. Qed.

Example split_without_delimiter : Js.split_dashes "a--b" = ["a--b"].
Proof. reflexivity. Qed.

Example trim_both_ends : Js.trim (LF +:+ "  a b " +:+ LF) = "a b".
Proof. reflexivity. Qed.

Example counter_label : counter 3 12 = "3/12".
Proof. reflexivity. Qed.

Example images_found :
  Regex.match_all imagesRegex "x ![a](./p.png) y ![](q.gif)![b]())"
  = ["![a](./p.png)"; "![](q.gif)"; "![b]())"].
Proof. reflexivity. Qed.

Example images_lazy_alt : Regex.match_all imagesRegex "![a][b](c)(d)" = ["![a][b](c)"].
Proof. reflexivity. Qed.

Example images_not_across_lines :
  Regex.match_all imagesRegex ("![a" +:+ LF +:+ "](x) ![]()") = [].
Proof. reflexivity. Qed.

Example images_removed :
  Regex.remove_all imagesRegex "x ![a](./p.png) y ![](q.gif)z" = "x  y z".
Proof. reflexivity. Qed.

Example image_path_group :
  option_map group1 (Regex.match_first imagePathRegex "![a](./p.png)") = Some "./p.png".
Proof. reflexivity. Qed.

Example extname_samples :
  map Path.extname
    ["a.gif"; ".gif"; "a/b.gif/"; "a.b/c"; ".."; "..."; "a."; "a.b.GIF"; "/x/.a.b"; ""]
  = [".gif"; ""; ".gif"; ""; ""; "."; "."; ".GIF"; ".b"; ""].
Proof. reflexivity. Qed.

Example dirname_samples :
  map Path.dirname ["/a/b/c.md"; "c.md"; "a/b"; "/a"; "/"; "a//b"; "//a"; ""; "a/b/"]
  = ["/a/b"; "."; "a"; "/"; "/"; "a/"; "//"; "."; "a"].
Proof. reflexivity. Qed.

Example resolve_samples :
  map (Path.resolve "/home/me") ["."; "/a/b"; "docs"; "../x"; ""; "a/../../.."]
  = ["/home/me"; "/a/b"; "/home/me/docs"; "/home/x"; "/home/me"; "/"].
Proof. reflexivity. Qed.

Example join_samples :
  map (Path.join "/home/me") ["./img.png"; "../img.png"; "img.png"; "/abs.png"; "a/./b/"]
  = ["/home/me/img.png"; "/home/img.png"; "/home/me/img.png"; "/home/me/abs.png";
     "/home/me/a/b/"].
Proof. reflexivity. Qed.

Example unique_paths :
  uniqueImagePaths [{| text := ""; images := ["a"; "b"; "a"] |};
                    {| text := ""; images := ["c"; "b"] |}]
  = ["a"; "b"; "c"].
Proof. reflexivity. Qed.

Example no_profile_no_run :
  postAction Fake.World Fake.respond [] Sample.helloFs Sample.cwd "thread.md" "y"
    [0; 0; 0] Fake.fresh = (NoProfile, []).
Proof. reflexivity. Qed.

Example declined_run :
  postAction Fake.World Fake.respond Sample.config Sample.helloFs Sample.cwd
    "thread.md" "n" [0; 0; 0] Fake.fresh = (Declined, []).
Proof. vm_compute. reflexivity. Qed.

Example missing_document :
  postAction Fake.World Fake.respond Sample.config Sample.helloFs Sample.cwd
    "other.md" "y" [0; 0; 0] Fake.fresh = (Thrown (FileNotFound "other.md"), []).
Proof. vm_compute. reflexivity. Qed.

Example unanswered_upload :
  (postAction Fake.World Fake.respond Sample.config Sample.helloFs Sample.cwd
     "thread.md" "y" [0; 0] Fake.fresh).1 = Hung.
Proof. vm_compute. reflexivity. Qed.

(** ** Strings *)

Section StringFacts.

Lemma string_length_ind (P : string -> Prop) :
  (forall s, (forall t, String.length t < String.length s -> P t) -> P s) ->
  forall s, P s.
Proof.
  intros step s.
  remember (String.length s) as n eqn:Hn.
  revert s Hn. induction n as [n IH] using lt_wf_ind.
  intros s ->. apply step. intros t Ht. eapply IH; eauto.
Qed.

Lemma split_dashes_cons (s : string) :
  exists p ps, Js.split_dashes s = p :: ps.
Proof.
  induction s as [s IH] using string_length_ind.
  destruct s as [|c1 s1]; [simpl; eauto|].
  assert (Hk : exists p ps, Js.cons_head c1 (Js.split_dashes s1) = p :: ps).
  { destruct (IH s1) as (p & ps & ->); [simpl; lia|]. simpl. eauto. }
  destruct s1 as [|c2 [|c3 rest]]; try exact Hk.
  cbn [Js.split_dashes].
  destruct (Js.is_dash c1 && Js.is_dash c2 && Js.is_dash c3); [eauto|exact Hk].
Qed.

Lemma join_cons (sep p : string) (q : string) (ps : list string) :
  Js.join sep (p :: q :: ps) = p +:+ sep +:+ Js.join sep (q :: ps).
Proof. reflexivity. Qed.

Lemma join_cons_head (sep : string) (c : ascii) (l : list string) :
  l <> [] -> Js.join sep (Js.cons_head c l) = String c (Js.join sep l).
Proof.
  destruct l as [|p [|q ps]]; [congruence| reflexivity | reflexivity].
Qed.

Lemma is_dash_true (c : ascii) : Js.is_dash c = true -> c = "-"%char.
Proof. unfold Js.is_dash. apply Ascii.eqb_eq. Qed.

(** Gluing the pieces back with the separator gives the text back:
    the split loses nothing and filters nothing. *)
Lemma join_split_dashes (s : string) :
  Js.join "---" (Js.split_dashes s) = s.
Proof.
  induction s as [s IH] using string_length_ind.
  destruct s as [|c1 s1]; [reflexivity|].
  assert (Hk : Js.join "---" (Js.cons_head c1 (Js.split_dashes s1)) = String c1 s1).
  { rewrite join_cons_head.
    - rewrite IH; [reflexivity | simpl; lia].
    - destruct (split_dashes_cons s1) as (p & ps & ->). congruence. }
  destruct s1 as [|c2 [|c3 rest]]; try exact Hk.
  cbn [Js.split_dashes].
  destruct (Js.is_dash c1 && Js.is_dash c2 && Js.is_dash c3) eqn:Hd; [|exact Hk].
  apply andb_true_iff in Hd as [Hd H3]. apply andb_true_iff in Hd as [H1 H2].
  apply is_dash_true in H1, H2, H3. subst.
  destruct (split_dashes_cons rest) as (p & ps & Hs).
  rewrite Hs, join_cons, <- Hs, IH; [reflexivity | simpl; lia].
Qed.

End StringFacts.

(** ** Trimming *)

Section TrimFacts.

Lemma chars_app (a b : string) :
  list_ascii_of_string (a +:+ b) = list_ascii_of_string a ++ list_ascii_of_string b.
Proof. induction a as [|c a IH]; simpl; [reflexivity | now rewrite IH]. Qed.

Lemma str_app (a b : list ascii) :
  string_of_list_ascii (a ++ b) = string_of_list_ascii a +:+ string_of_list_ascii b.
Proof. induction a as [|c a IH]; simpl; [reflexivity | now rewrite IH]. Qed.

Lemma rev_involutive (s : string) : Js.rev (Js.rev s) = s.
Proof.
  unfold Js.rev.
  rewrite list_ascii_of_string_of_list_ascii, List.rev_involutive.
  apply string_of_list_ascii_of_string.
Qed.

Lemma rev_app (a b : string) : Js.rev (a +:+ b) = Js.rev b +:+ Js.rev a.
Proof. unfold Js.rev. now rewrite chars_app, List.rev_app_distr, str_app. Qed.

Lemma all_white_rev (s : string) : all_white (Js.rev s) = all_white s.
Proof.
  unfold all_white, Js.rev.
  rewrite list_ascii_of_string_of_list_ascii.
  induction (list_ascii_of_string s) as [|c l IH]; [reflexivity|].
  simpl. rewrite forallb_app, IH. simpl. rewrite andb_true_r. apply andb_comm.
Qed.

Lemma trimStart_spec (s : string) :
  exists pre, s = pre +:+ Js.trimStart s /\ all_white pre = true
              /\ starts_white (Js.trimStart s) = false.
Proof.
  induction s as [|c s IH].
  - exists "". auto.
  - simpl. destruct (Js.is_white c) eqn:Hc.
    + destruct IH as (pre & Heq & Hw & Hs).
      exists (String c pre). split; [change (String c s = String c (pre +:+ Js.trimStart s)); congruence|].
      split; [|exact Hs]. unfold all_white in *. simpl. now rewrite Hc.
    + exists "". simpl. auto.
Qed.

Lemma starts_white_prefix (a b : string) :
  starts_white (a +:+ b) = false -> starts_white a = false.
Proof. destruct a; simpl; auto. Qed.

(** [trim] cuts a run of white space off each end, and nothing else. *)
Lemma trim_spec (s : string) :
  exists pre suf,
    s = pre +:+ Js.trim s +:+ suf
    /\ all_white pre = true /\ all_white suf = true
    /\ starts_white (Js.trim s) = false /\ ends_white (Js.trim s) = false.
Proof.
  destruct (trimStart_spec s) as (pre & Hs & Hpre & Hstart).
  destruct (trimStart_spec (Js.rev (Js.trimStart s))) as (fus & Hr & Hfus & Hend).
  assert (Ht : Js.trimStart s = Js.trim s +:+ Js.rev fus).
  { rewrite <- (rev_involutive (Js.trimStart s)), Hr at 1.
    rewrite rev_app. reflexivity. }
  exists pre, (Js.rev fus). repeat split.
  - now rewrite <- Ht.
  - exact Hpre.
  - now rewrite all_white_rev.
  - rewrite Ht in Hstart. eapply starts_white_prefix, Hstart.
  - unfold ends_white, Js.trim, Js.trimEnd. now rewrite rev_involutive.
Qed.

End TrimFacts.

(** ** Media mix *)

Section ForEachFacts.
Context {A : Type} (f : A -> Result unit).

Lemma forEach_ok (l : list A) :
  forEach f l = Ok tt <-> (forall x, In x l -> f x = Ok tt).
Proof.
  induction l as [|x l IH]; simpl.
  - split; [intros _ x []|reflexivity].
  - destruct (f x) as [[]|e] eqn:Hx; simpl.
    + rewrite IH. split.
      * intros H y [<-|Hy]; auto.
      * intros H y Hy. apply H. now right.
    + split; [discriminate|].
      intros H. specialize (H x (or_introl eq_refl)). congruence.
Qed.

(** A [forEach] throws what its callback throws on the first element it
    rejects. *)
Lemma forEach_throw (l : list A) (e : Err) :
  forEach f l = Throw e <->
  exists pre x post, l = pre ++ x :: post
                     /\ (forall y, In y pre -> f y = Ok tt) /\ f x = Throw e.
Proof.
  induction l as [|x l IH]; simpl.
  - split; [discriminate|]. intros (pre & y & post & H & _). now destruct pre.
  - destruct (f x) as [[]|e'] eqn:Hx; simpl.
    + rewrite IH. split.
      * intros (pre & y & post & -> & Hpre & Hy).
        exists (x :: pre), y, post. split; [reflexivity|]. split; [|exact Hy].
        intros z [<-|Hz]; auto.
      * intros (pre & y & post & Heq & Hpre & Hy).
        destruct pre as [|x' pre]; simpl in Heq; inversion Heq; subst.
        -- congruence.
        -- exists pre, y, post. split; [reflexivity|]. split; [|exact Hy].
           intros z Hz. apply Hpre. now right.
    + split.
      * intros [= <-]. exists [], x, l. split; [reflexivity|]. split; [intros ? []|exact Hx].
      * intros (pre & y & post & Heq & Hpre & Hy).
        destruct pre as [|x' pre]; simpl in Heq; inversion Heq; subst.
        -- congruence.
        -- specialize (Hpre x' (or_introl eq_refl)). congruence.
Qed.

Lemma forEach_total (l : list A) :
  forEach f l = Ok tt \/ exists e, forEach f l = Throw e.
Proof. destruct (forEach f l) as [[]|e]; eauto. Qed.

End ForEachFacts.

Section MediaMix.

Lemma checkImageNumber_gif (c : Content) (p : string) :
  is_gif p = true ->
  checkImageNumber c p =
    if Nat.ltb 1 (length (images c)) then Throw (TooManyGifs (text c)) else Ok tt.
Proof. unfold is_gif, checkImageNumber. now intros ->. Qed.

Lemma checkImageNumber_other (c : Content) (p : string) :
  is_gif p = false ->
  checkImageNumber c p =
    if Nat.ltb 4 (length (images c)) then Throw (TooManyImages (text c)) else Ok tt.
Proof. unfold is_gif, checkImageNumber. now intros ->. Qed.

Lemma checkImageNumber_ok (c : Content) (p : string) :
  checkImageNumber c p = Ok tt <->
  length (images c) <= (if is_gif p then 1 else 4).
Proof.
  destruct (is_gif p) eqn:Hp.
  - rewrite checkImageNumber_gif by exact Hp.
    destruct (Nat.ltb_spec 1 (length (images c))); split; intros; (congruence || lia).
  - rewrite checkImageNumber_other by exact Hp.
    destruct (Nat.ltb_spec 4 (length (images c))); split; intros; (congruence || lia).
Qed.

Lemma has_gif_length (c : Content) : has_gif c = true -> 1 <= length (images c).
Proof. unfold has_gif. destruct (images c); simpl; [discriminate | lia]. Qed.

Lemma checkContent_ok (c : Content) :
  checkContent c = Ok tt <->
  length (images c) <= (if has_gif c then 1 else 4).
Proof.
  unfold checkContent. rewrite forEach_ok. unfold has_gif.
  destruct (existsb is_gif (images c)) eqn:Hg.
  - apply existsb_exists in Hg as (g & Hin & Hgif). split.
    + intros H. apply H, checkImageNumber_ok in Hin. now rewrite Hgif in Hin.
    + intros H p _. apply checkImageNumber_ok. destruct (is_gif p); lia.
  - split.
    + intros H. destruct (images c) as [|p l] eqn:Hi; [simpl; lia|].
      specialize (H p (or_introl eq_refl)). apply checkImageNumber_ok in H.
      rewrite Hi in H. simpl in Hg. apply orb_false_iff in Hg as [Hp _].
      now rewrite Hp in H.
    + intros H p Hin. apply checkImageNumber_ok.
      assert (is_gif p = false) as ->; [|exact H].
      destruct (is_gif p) eqn:Hp; [|reflexivity].
      assert (existsb is_gif (images c) = true); [|congruence].
      apply existsb_exists. eauto.
Qed.

(** Which of the two errors a rejected Content gets. *)
Lemma checkContent_throw (c : Content) (e : Err) :
  checkContent c = Throw e ->
  e = if first_is_gif c || Nat.leb (length (images c)) 4
      then TooManyGifs (text c) else TooManyImages (text c).
Proof.
  unfold checkContent. intros H.
  apply forEach_throw in H as (pre & p & post & Heq & Hpre & Hp).
  unfold first_is_gif. destruct (Nat.leb_spec (length (images c)) 4) as [Hle|Hgt].
  - rewrite orb_true_r. destruct (is_gif p) eqn:Hg.
    + rewrite checkImageNumber_gif in Hp by exact Hg.
      destruct (Nat.ltb 1 _); congruence.
    + rewrite checkImageNumber_other in Hp by exact Hg.
      destruct (Nat.ltb_spec 4 (length (images c))); [lia|congruence].
  - rewrite orb_false_r. destruct pre as [|q pre].
    + rewrite Heq. simpl. destruct (is_gif p) eqn:Hg.
      * rewrite checkImageNumber_gif in Hp by exact Hg.
        destruct (Nat.ltb 1 _); congruence.
      * rewrite checkImageNumber_other in Hp by exact Hg.
        destruct (Nat.ltb 4 _); congruence.
    + specialize (Hpre q (or_introl eq_refl)).
      apply checkImageNumber_ok in Hpre. destruct (is_gif q); lia.
Qed.

End MediaMix.

(** ** Extensions *)

Section ExtnameFacts.

Lemma take_while_app (p : ascii -> bool) (r l : list ascii) :
  forallb p r = true ->
  Path.take_while p (r ++ l) = r ++ Path.take_while p l.
Proof.
  induction r as [|c r IH]; simpl; [reflexivity|].
  intros H. apply andb_true_iff in H as [-> H]. now rewrite IH.
Qed.

Lemma drop_while_app (p : ascii -> bool) (r l : list ascii) :
  forallb p r = true ->
  Path.drop_while p (r ++ l) = Path.drop_while p l.
Proof.
  induction r as [|c r IH]; simpl; [reflexivity|].
  intros H. apply andb_true_iff in H as [-> H]. now rewrite IH.
Qed.

Lemma plain_not_slash (r : list ascii) :
  forallb plain_char r = true -> forallb Path.not_slash r = true.
Proof.
  intros H. apply forallb_forall. intros c Hc.
  eapply forallb_forall in H; [|exact Hc].
  now apply andb_true_iff in H as [? _].
Qed.

Lemma plain_not_dot (r : list ascii) :
  forallb plain_char r = true -> forallb Path.not_dot r = true.
Proof.
  intros H. apply forallb_forall. intros c Hc.
  eapply forallb_forall in H; [|exact Hc].
  now apply andb_true_iff in H as [_ ?].
Qed.

Lemma forallb_rev (p : ascii -> bool) (l : list ascii) :
  forallb p (List.rev l) = forallb p l.
Proof.
  induction l as [|c l IH]; [reflexivity|].
  simpl. rewrite forallb_app, IH. simpl. rewrite andb_true_r. apply andb_comm.
Qed.

(** The extension of [stem.e], for an [e] without dot or slash, is [.e],
    unless the last component of the path is the dot file [.e]. *)
Lemma extname_suffix (stem e : string) :
  e <> "" ->
  forallb plain_char (list_ascii_of_string e) = true ->
  Path.extname (stem +:+ "." +:+ e) = "" \/
  Path.extname (stem +:+ "." +:+ e) = "." +:+ e.
Proof.
  intros Hne Hplain.
  unfold Path.extname, Path.rev_basename, Path.chars.
  rewrite !chars_app, !List.rev_app_distr. simpl.
  assert (He : string_of_list_ascii (List.rev (List.rev (list_ascii_of_string e))) = e).
  { now rewrite List.rev_involutive, string_of_list_ascii_of_string. }
  revert He.
  set (r := List.rev (list_ascii_of_string e)). intros He.
  assert (Hr : forallb plain_char r = true) by (unfold r; now rewrite forallb_rev).
  assert (Hr0 : r <> []).
  { unfold r. destruct e as [|c e]; [congruence|]. simpl.
    intros H. apply app_eq_nil in H as [_ H]. discriminate. }
  rewrite <- !app_assoc. simpl.
  assert (Hd : forall l, Path.drop_while Path.is_slash (r ++ l) = r ++ l).
  { intros l. destruct r as [|c r']; [congruence|]. simpl.
    simpl in Hr. apply andb_true_iff in Hr as [Hc _].
    apply andb_true_iff in Hc as [Hc _]. unfold Path.not_slash in Hc.
    now destruct (Path.is_slash c). }
  rewrite Hd, take_while_app by now apply plain_not_slash.
  simpl. rewrite take_while_app, drop_while_app by now apply plain_not_dot.
  simpl. rewrite app_nil_r. unfold Path.str. rewrite He.
  destruct (Path.take_while _ _) as [|c [|c' l]]; [now left | | now right].
  destruct r; [congruence | now right].
Qed.

Lemma lower_fixes_separators (c : ascii) :
  plain_char c = false -> Js.lower c = c.
Proof.
  unfold plain_char, Path.not_slash, Path.not_dot, Path.is_slash, Path.is_dot.
  destruct (Ascii.eqb_spec c "/") as [->|_]; [reflexivity|].
  destruct (Ascii.eqb_spec c ".") as [->|_]; [reflexivity|discriminate].
Qed.

(** A spelling of [gif] in any letter case has neither dot nor slash. *)
Lemma gif_spelling_plain (e : string) :
  Js.toLowerCase e = "gif" ->
  e <> "" /\ forallb plain_char (list_ascii_of_string e) = true.
Proof.
  assert (Hc : forall c x, Js.lower c = x -> plain_char x = true -> plain_char c = true).
  { intros c x Hl Hx. destruct (plain_char c) eqn:Hp; [reflexivity|].
    pose proof (lower_fixes_separators _ Hp). congruence. }
  destruct e as [|c1 [|c2 [|c3 [|c4 e]]]]; simpl; try discriminate.
  intros [= H1 H2 H3]. split; [discriminate|].
  rewrite (Hc _ _ H1), (Hc _ _ H2), (Hc _ _ H3); reflexivity.
Qed.

Lemma is_gif_other_case (stem e : string) :
  Js.toLowerCase e = "gif" -> e <> "gif" ->
  is_gif (stem +:+ "." +:+ e) = false.
Proof.
  intros Hl Hne. destruct (gif_spelling_plain e Hl) as [H0 Hp].
  unfold is_gif.
  destruct (extname_suffix stem e H0 Hp) as [-> | ->]; [reflexivity|].
  simpl. now apply String.eqb_neq.
Qed.

End ExtnameFacts.

(** ** The image patterns always match their own matches *)

Section RegexFacts.

Lemma text_extend (c : ascii) (segs : list string) :
  segs <> [] -> Regex.text (Regex.extend c segs) = String c (Regex.text segs).
Proof. destruct segs; [congruence | reflexivity]. Qed.

Lemma lazy_any_nonempty k s segs : Regex.lazy_any k s = Some segs -> segs <> [].
Proof.
  revert segs. induction s as [|c s IH]; intros segs; simpl.
  - destruct (k ""); [intros [= <-]|]; congruence.
  - destruct (k (String c s)); [intros [= <-]; congruence|].
    destruct (Js.is_line_terminator c); [discriminate|].
    destruct (Regex.lazy_any k s) as [segs'|]; [|discriminate].
    intros [= <-]. specialize (IH _ eq_refl). now destruct segs'.
Qed.

Section Lazy.
Variable k : string -> option (list string).
Hypothesis k_prefix : consumes_prefix k.
Hypothesis k_stable : stable k.
Hypothesis k_fails : fails_on_prefix k.

Lemma lazy_any_prefix : consumes_prefix (Regex.lazy_any k).
Proof.
  intros s. induction s as [|c s IH]; intros segs; simpl.
  - destruct (k "") eqn:Hk; [|discriminate]. intros [= <-].
    apply k_prefix in Hk. exact Hk.
  - destruct (k (String c s)) eqn:Hk.
    + intros [= <-]. apply k_prefix in Hk. exact Hk.
    + destruct (Js.is_line_terminator c); [discriminate|].
      destruct (Regex.lazy_any k s) as [segs'|] eqn:Hl; [|discriminate].
      intros [= <-]. destruct (IH _ eq_refl) as [rest Hrest].
      exists rest. rewrite text_extend by (eapply lazy_any_nonempty; eauto).
      change (String c s = String c (Regex.text segs' +:+ rest)). congruence.
Qed.

Lemma lazy_any_fails : fails_on_prefix (Regex.lazy_any k).
Proof.
  intros m. induction m as [|c m IH]; intros rest H.
  - simpl. destruct (k "") eqn:Hk; [|reflexivity].
    assert (Hn : k ("" +:+ rest) = None).
    { destruct rest; simpl in H |- *; destruct (k _); congruence. }
    apply k_fails in Hn. congruence.
  - change (String c m +:+ rest) with (String c (m +:+ rest)) in H.
    simpl in H |- *.
    destruct (k (String c (m +:+ rest))) eqn:Hk; [discriminate|].
    change (String c (m +:+ rest)) with (String c m +:+ rest) in Hk.
    apply k_fails in Hk. rewrite Hk.
    destruct (Js.is_line_terminator c); [reflexivity|].
    destruct (Regex.lazy_any k (m +:+ rest)) eqn:Hl; [discriminate|].
    now rewrite (IH _ Hl).
Qed.

Lemma lazy_any_stable : stable (Regex.lazy_any k).
Proof.
  intros s. induction s as [|c s IH]; intros segs; simpl.
  - destruct (k "") eqn:Hk; [|discriminate]. intros [= <-].
    change (Regex.text ("" :: l)) with (Regex.text l).
    pose proof (k_stable _ _ Hk) as Hs.
    destruct (Regex.text l); simpl; now rewrite Hs.
  - destruct (k (String c s)) eqn:Hk.
    + intros [= <-]. change (Regex.text ("" :: l)) with (Regex.text l).
      pose proof (k_stable _ _ Hk) as Hs.
      destruct (Regex.text l); simpl; now rewrite Hs.
    + destruct (Js.is_line_terminator c) eqn:Hc; [discriminate|].
      destruct (Regex.lazy_any k s) as [segs'|] eqn:Hl; [|discriminate].
      intros [= <-].
      rewrite text_extend by (eapply lazy_any_nonempty; eauto).
      destruct (lazy_any_prefix _ _ Hl) as [rest Hrest].
      assert (Hn : k (String c (Regex.text segs')) = None).
      { apply (k_fails _ rest).
        change (k (String c (Regex.text segs' +:+ rest)) = None).
        now rewrite <- Hrest. }
      simpl. rewrite Hn, Hc, (IH _ eq_refl). reflexivity.
Qed.
End Lazy.

Lemma match_here_facts (items : list Regex.item) :
  consumes_prefix (Regex.match_here items)
  /\ stable (Regex.match_here items)
  /\ fails_on_prefix (Regex.match_here items).
Proof.
  induction items as [|it items (IHp & IHs & IHf)].
  - repeat split.
    + intros s segs [= <-]. now exists s.
    + intros s segs [= <-]. reflexivity.
    + intros m rest. discriminate.
  - destruct it as [c| |].
    + repeat split.
      * intros [|c' s] segs; simpl; [discriminate|].
        destruct (Ascii.eqb c c'); [|discriminate].
        destruct (Regex.match_here items s) as [segs'|] eqn:Hm; [|discriminate].
        intros [= <-]. destruct (IHp _ _ Hm) as [rest ->].
        now exists rest.
      * intros [|c' s] segs; simpl; [discriminate|].
        destruct (Ascii.eqb c c') eqn:Hc; [|discriminate].
        destruct (Regex.match_here items s) as [segs'|] eqn:Hm; [|discriminate].
        intros [= <-].
        change (Regex.text (String c' "" :: segs')) with (String c' (Regex.text segs')).
        simpl. now rewrite Hc, (IHs _ _ Hm).
      * intros [|c' m] rest; [reflexivity|].
        change (String c' m +:+ rest) with (String c' (m +:+ rest)). simpl.
        destruct (Ascii.eqb c c'); [|reflexivity].
        destruct (Regex.match_here items (m +:+ rest)) eqn:Hm; [discriminate|].
        now rewrite (IHf _ _ Hm).
    + split; [|split].
      * now apply lazy_any_prefix.
      * now apply lazy_any_stable.
      * now apply lazy_any_fails.
    + pose proof (lazy_any_prefix _ IHp) as Lp.
      pose proof (lazy_any_stable _ IHp IHs IHf) as Ls.
      pose proof (lazy_any_fails _ IHf) as Lf.
      repeat split.
      * intros [|c s] segs; simpl; [discriminate|].
        destruct (Js.is_line_terminator c); [discriminate|].
        destruct (Regex.lazy_any _ s) as [segs'|] eqn:Hl; [|discriminate].
        intros [= <-]. destruct (Lp _ _ Hl) as [rest ->]. exists rest.
        rewrite text_extend by (eapply lazy_any_nonempty; eauto). reflexivity.
      * intros [|c s] segs; simpl; [discriminate|].
        destruct (Js.is_line_terminator c) eqn:Hc; [discriminate|].
        destruct (Regex.lazy_any _ s) as [segs'|] eqn:Hl; [|discriminate].
        intros [= <-].
        rewrite text_extend by (eapply lazy_any_nonempty; eauto).
        simpl. now rewrite Hc, (Ls _ _ Hl).
      * intros [|c m] rest; [reflexivity|].
        change (String c m +:+ rest) with (String c (m +:+ rest)). simpl.
        destruct (Js.is_line_terminator c); [reflexivity|].
        destruct (Regex.lazy_any _ (m +:+ rest)) eqn:Hl; [discriminate|].
        now rewrite (Lf _ _ Hl).
Qed.

Lemma match_all_from_matches items s skip img :
  In img (Regex.match_all_from items s skip) ->
  exists s' segs, Regex.match_here items s' = Some segs /\ img = Regex.text segs.
Proof.
  revert skip. induction s as [|c s IH]; intros skip; simpl.
  - destruct skip; [|intros []].
    destruct (Regex.match_here items "") eqn:Hm; [|intros []].
    intros [<-|[]]. eauto.
  - destruct skip as [|k]; [|apply IH].
    destruct (Regex.match_here items (String c s)) eqn:Hm; [|apply IH].
    intros [<-|Hin]; [eauto | eapply IH, Hin].
Qed.

Lemma match_first_of_match items s img :
  In img (Regex.match_all items s) -> Regex.match_first items img <> None.
Proof.
  intros Hin. apply match_all_from_matches in Hin as (s' & segs & Hm & ->).
  destruct (match_here_facts items) as (_ & Hs & _).
  apply Hs in Hm. destruct (Regex.text segs); simpl; now rewrite Hm.
Qed.

End RegexFacts.

Section MapMFacts.
Context {A B : Type} (f : A -> Result B).

Lemma mapM_ok_total (l : list A) :
  (forall x, In x l -> exists y, f x = Ok y) -> exists ys, mapM f l = Ok ys.
Proof.
  induction l as [|x l IH]; intros H; simpl; [eauto|].
  destruct (H x (or_introl eq_refl)) as [y ->].
  destruct IH as [ys ->]; [intros; apply H; now right|]. simpl. eauto.
Qed.

Lemma mapM_ok_lookup (l : list A) (ys : list B) :
  mapM f l = Ok ys ->
  length ys = length l /\
  forall i x, l !! i = Some x -> exists y, ys !! i = Some y /\ f x = Ok y.
Proof.
  revert ys. induction l as [|x l IH]; intros ys; simpl.
  - intros [= <-]. split; [reflexivity|]. intros i x H. discriminate.
  - destruct (f x) as [y|e] eqn:Hx; simpl; [|discriminate].
    destruct (mapM f l) as [ys'|e]; simpl; [|discriminate].
    intros [= <-]. destruct (IH _ eq_refl) as [Hlen Hl]. split; [simpl; lia|].
    intros [|i] x' Hi; simpl in Hi.
    + injection Hi as <-. eauto.
    + apply Hl, Hi.
Qed.

End MapMFacts.

Lemma extractImage_total (cwd : string) (blocks : list string) (filename : string) :
  exists contents, extractImage cwd blocks filename = Ok contents.
Proof.
  apply mapM_ok_total. intros block _. unfold extractBlock.
  destruct (mapM_ok_total (imagePath cwd filename)
              (Regex.match_all imagesRegex block)) as [paths ->]; [|simpl; eauto].
  intros img Hin. unfold imagePath.
  apply match_first_of_match in Hin. unfold imagePathRegex.
  destruct (Regex.match_first imagesRegex img); [eauto | congruence].
Qed.

(** ** De-duplication of the image paths *)

Section Dedup.

Lemma indexOf_notin (x : string) (pre l : list string) :
  ~ In x pre ->
  Js.indexOf x (pre ++ l) = option_map (Nat.add (length pre)) (Js.indexOf x l).
Proof.
  induction pre as [|y pre IH]; intros Hn; simpl.
  - now destruct (Js.indexOf x l).
  - destruct (String.eqb_spec y x) as [->|Hne]; [exfalso; apply Hn; now left|].
    rewrite IH by (intros H; apply Hn; now right).
    now destruct (Js.indexOf x l).
Qed.

Lemma indexOf_in (x : string) (pre l : list string) :
  In x pre -> exists j, Js.indexOf x (pre ++ l) = Some j /\ j < length pre.
Proof.
  induction pre as [|y pre IH]; intros Hin; [destruct Hin|]. simpl.
  destruct (String.eqb_spec y x) as [->|Hne]; [exists 0; split; [reflexivity|lia]|].
  destruct IH as (j & -> & Hj); [destruct Hin; congruence|].
  exists (S j). split; [reflexivity|lia].
Qed.

Lemma indexOf_head (x : string) (l : list string) : Js.indexOf x (x :: l) = Some 0.
Proof. simpl. now rewrite String.eqb_refl. Qed.

(** An element passes the filter exactly when it has not occurred before. *)
Lemma firstOccurrence_spec (x : string) (pre rest : list string) :
  firstOccurrence x (length pre) (pre ++ x :: rest) = true <-> ~ In x pre.
Proof.
  unfold firstOccurrence. split.
  - intros H Hin. destruct (indexOf_in x pre (x :: rest) Hin) as (j & Hj & Hlt).
    rewrite Hj in H. apply Nat.eqb_eq in H. lia.
  - intros Hn. rewrite indexOf_notin, indexOf_head by exact Hn. simpl.
    apply Nat.eqb_eq. lia.
Qed.

Lemma filteri_from_first (arr rest pre : list string) :
  arr = pre ++ rest ->
  let out := Js.filteri_from (fun x i => firstOccurrence x i arr) (length pre) rest in
  List.NoDup out /\ forall x, In x out <-> In x rest /\ ~ In x pre.
Proof.
  revert pre. induction rest as [|x rest IH]; intros pre Harr; simpl.
  - split; [constructor|]. intros x. tauto.
  - assert (Harr' : arr = (pre ++ [x]) ++ rest) by now rewrite <- app_assoc.
    specialize (IH _ Harr'). rewrite length_app, Nat.add_1_r in IH. simpl in IH.
    destruct IH as [Hnd Hin].
    assert (Hx : ~ In x (Js.filteri_from (fun x i => firstOccurrence x i arr)
                           (S (length pre)) rest)).
    { rewrite Hin, in_app_iff. simpl. tauto. }
    destruct (firstOccurrence x (length pre) arr) eqn:Hf.
    + rewrite Harr in Hf. apply firstOccurrence_spec in Hf. split.
      * now constructor.
      * intros y. simpl. rewrite Hin, in_app_iff. simpl.
        destruct (string_dec x y) as [->|Hne]; [tauto|]. tauto.
    + assert (Hp : In x pre).
      { destruct (in_dec string_dec x pre) as [H|H]; [exact H|].
        apply (firstOccurrence_spec x pre rest) in H. congruence. }
      split; [exact Hnd|].
      intros y. rewrite Hin, in_app_iff. simpl.
      destruct (string_dec x y) as [->|Hne]; [tauto|]. tauto.
Qed.

Lemma allImages_fold (contents : list Content) (acc : list string) :
  fold_left (fun acc b => acc ++ images b) contents acc
  = acc ++ concat (map images contents).
Proof.
  revert acc. induction contents as [|c cs IH]; intros acc; simpl.
  - now rewrite app_nil_r.
  - now rewrite IH, app_assoc.
Qed.

Lemma in_allImages (contents : list Content) (p : string) :
  In p (allImages contents) <-> exists c, In c contents /\ In p (images c).
Proof.
  unfold allImages. rewrite allImages_fold. simpl. rewrite in_concat. split.
  - intros (l & Hl & Hp). apply in_map_iff in Hl as (c & <- & Hc). eauto.
  - intros (c & Hc & Hp). exists (images c). split; [now apply in_map|exact Hp].
Qed.

Lemma uniqueImagePaths_NoDup (contents : list Content) :
  List.NoDup (uniqueImagePaths contents).
Proof. apply (filteri_from_first _ _ [] eq_refl). Qed.

Lemma in_uniqueImagePaths (contents : list Content) (p : string) :
  In p (uniqueImagePaths contents) <-> exists c, In c contents /\ In p (images c).
Proof.
  rewrite <- in_allImages. unfold uniqueImagePaths, Js.filteri.
  destruct (filteri_from_first (allImages contents) _ [] eq_refl) as [_ H].
  rewrite (H p). simpl. tauto.
Qed.

End Dedup.

(** ** What a successful [prepare] has checked *)

Section Prepare.

Lemma bind_ok {A B} (m : Result A) (k : A -> Result B) (b : B) :
  bind m k = Ok b -> exists a, m = Ok a /\ k a = Ok b.
Proof. destruct m; simpl; [eauto | discriminate]. Qed.

Lemma makeBlocks_ok (fs : FileSystem) (filename : string) (blocks : list string) :
  makeBlocks fs filename = Ok blocks ->
  exists file, fs filename = Some (RegularFile file)
    /\ blocks = Js.mapi (fun text i => makeBlock text i (Js.split_dashes (utf8 file)))
                  (Js.split_dashes (utf8 file)).
Proof.
  unfold makeBlocks, readFileSync.
  destruct (fs filename) as [[file| |]|]; simpl; try discriminate.
  intros [= <-]. eauto.
Qed.

Lemma getImagesData_ok (fs : FileSystem) (p : string) (img : ImageData) :
  getImagesData fs p = Ok img ->
  path img = p /\ exists f, fs p = Some (RegularFile f)
                            /\ total_bytes img = byte_length f
                            /\ media_data img = base64 f.
Proof.
  unfold getImagesData, readFileSync.
  destruct (fs p) as [[f| |]|]; simpl; try discriminate.
  intros [= <-]. simpl. eauto.
Qed.

Lemma imagesData_paths (fs : FileSystem) (paths : list string) (data : list ImageData) :
  mapM (getImagesData fs) paths = Ok data -> map path data = paths.
Proof.
  revert data. induction paths as [|p paths IH]; intros data; simpl.
  - now intros [= <-].
  - destruct (getImagesData fs p) as [img|] eqn:Hp; simpl; [|discriminate].
    destruct (mapM _ paths) as [data'|]; simpl; [|discriminate].
    intros [= <-]. simpl. apply getImagesData_ok in Hp as [-> _].
    now rewrite (IH _ eq_refl).
Qed.

Lemma prepare_ok fs cwd filename contents imagesData :
  prepare fs cwd filename = Ok (contents, imagesData) ->
  Prepared fs cwd filename contents imagesData.
Proof.
  unfold prepare. intros H.
  apply bind_ok in H as ([] & _ & H).
  apply bind_ok in H as (blocks & Hb & H).
  apply bind_ok in H as (contents' & Hc & H).
  apply bind_ok in H as ([] & Hl & H).
  apply bind_ok in H as ([] & He & H).
  apply bind_ok in H as ([] & Hn & H).
  apply bind_ok in H as (data & Hd & H).
  apply bind_ok in H as ([] & Hs & H).
  injection H as <- <-. constructor; eauto.
Qed.

Lemma lint_first (contents : list Content) :
  (exists c, In c contents /\ 280 < String.length (text c)) ->
  exists pre c post,
    contents = pre ++ c :: post
    /\ (forall c', In c' pre -> String.length (text c') <= 280)
    /\ 280 < String.length (text c)
    /\ lint (map text contents) = Throw (ContentTooLong (Js.slice0 280 (text c))).
Proof.
  unfold lint.
  induction contents as [|b contents IH]; intros (x & Hin & Hx); [destruct Hin|].
  simpl. unfold lint_block at 1.
  destruct (Nat.ltb_spec 280 (String.length (text b))) as [Hb|Hb]; simpl.
  - exists [], b, contents. split; [reflexivity|].
    split; [intros c' []|]. split; [exact Hb|reflexivity].
  - destruct IH as (pre & c & post & -> & Hpre & Hlen & Hl).
    + exists x. split; [|exact Hx]. destruct Hin as [->|Hin]; [lia|exact Hin].
    + exists (b :: pre), c, post. split; [reflexivity|].
      split; [|split; [exact Hlen|exact Hl]].
      intros c' [<-|Hc']; [exact Hb|now apply Hpre].
Qed.

Lemma substring_prefix (n : nat) (s : string) :
  n <= String.length s ->
  String.length (substring 0 n s) = n /\ exists rest, s = substring 0 n s +:+ rest.
Proof.
  revert s. induction n as [|n IH]; intros s Hn.
  - destruct s; simpl; split; eauto.
  - destruct s as [|c s]; simpl in Hn; [lia|].
    destruct (IH s) as [Hl [rest Hr]]; [lia|]. simpl. split; [now rewrite Hl|].
    exists rest. change (String c s = String c (substring 0 n s +:+ rest)). congruence.
Qed.

End Prepare.

(** ** The upload stage *)

Section UploadFacts.
Context {World : Type} (respond : Request -> World -> Response * World).

Lemma count_snoc (f : Call -> bool) (lg : list Call) (c : Call) :
  count f (lg ++ [c]) = count f lg + (if f c then 1 else 0).
Proof.
  unfold count. rewrite List.filter_app, length_app. simpl.
  now destruct (f c).
Qed.

Lemma count_app (f : Call -> bool) (l1 l2 : list Call) :
  count f (l1 ++ l2) = count f l1 + count f l2.
Proof. unfold count. now rewrite List.filter_app, length_app. Qed.

Lemma nodup_path_index (data : list ImageData) (i j : nat) (a b : ImageData) :
  List.NoDup (map path data) ->
  data !! i = Some a -> data !! j = Some b -> path a = path b -> i = j.
Proof.
  intros Hnd. revert i j. induction data as [|x data IH]; intros i j Hi Hj Hp.
  - discriminate.
  - inversion Hnd as [|? ? Hx Hnd']; subst.
    destruct i as [|i], j as [|j]; simpl in Hi, Hj.
    + reflexivity.
    + exfalso. apply Hx. injection Hi as <-. rewrite Hp.
      apply in_map. eapply list_elem_of_In, list_elem_of_lookup_2, Hj.
    + exfalso. apply Hx. injection Hj as <-. rewrite <- Hp.
      apply in_map. eapply list_elem_of_In, list_elem_of_lookup_2, Hi.
    + f_equal. eapply IH; eauto.
Qed.

Lemma finalizeLogged_snoc lg p r c :
  finalizeLogged lg p r -> finalizeLogged (lg ++ [c]) p r.
Proof.
  intros (call & Hin & H). exists call. split; [|exact H].
  apply in_app_iff. now left.
Qed.

(** A request of another pipeline leaves the account of this one as
    it is. *)
Lemma pipeline_ok_other lg img pipe (c : Call) q :
  origin c = Upload q -> q <> path img ->
  pipeline_ok lg img pipe -> pipeline_ok (lg ++ [c]) img pipe.
Proof.
  intros Ho Hq. unfold pipeline_ok. rewrite !count_snoc.
  assert (Hi : isInitOf (path img) c = false).
  { unfold isInitOf. rewrite Ho. destruct (request c); try reflexivity.
    apply String.eqb_neq. congruence. }
  assert (Ha : isAppendOf (path img) c = false).
  { unfold isAppendOf. rewrite Ho. destruct (request c); try reflexivity.
    apply String.eqb_neq. congruence. }
  assert (Hf : isFinalizeOf (path img) c = false).
  { unfold isFinalizeOf. rewrite Ho. destruct (request c); try reflexivity.
    apply String.eqb_neq. congruence. }
  rewrite Hi, Ha, Hf, !Nat.add_0_r.
  destruct pipe; intuition auto using finalizeLogged_snoc.
  destruct H4 as (body & ? & ?). exists body. intuition auto using finalizeLogged_snoc.
Qed.

Section Launch.
Variable data : list ImageData.
Hypothesis data_nodup : List.NoDup (map path data).

Lemma launch_one_launched started st img :
  launched started st -> launched (started ++ [img]) (launch_one World respond st img).
Proof.
  intros [Hl Hp Hi Ha Hf Hn Ho Hr]. unfold launch_one.
  destruct (respond _ (world st)) as [resp w]. constructor; simpl.
  - rewrite !length_app, Hl. reflexivity.
  - intros k pipe Hk. apply lookup_app_Some in Hk as [Hk|[_ Hk]]; [eauto|].
    apply list_lookup_singleton_Some in Hk as [_ <-]. eauto.
  - intros p. rewrite count_snoc, Hi, map_app, List.count_occ_app. simpl.
    unfold isInitOf. simpl.
    destruct (string_dec (path img) p) as [->|Hne].
    + now rewrite String.eqb_refl.
    + assert (String.eqb p (path img) = false) as ->; [|reflexivity].
      apply String.eqb_neq. congruence.
  - intros p. rewrite count_snoc, Ha. reflexivity.
  - intros p. rewrite count_snoc, Hf. reflexivity.
  - rewrite count_snoc, Hn. reflexivity.
  - intros call Hin. apply in_app_iff in Hin as [Hin|[<-|[]]]; [eauto|].
    simpl. eauto.
  - exact Hr.
Qed.

Lemma fold_launched todo started st :
  launched started st ->
  launched (started ++ todo) (fold_left (launch_one World respond) todo st).
Proof.
  revert started st. induction todo as [|img todo IH]; intros started st H; simpl.
  - now rewrite app_nil_r.
  - replace (started ++ img :: todo) with ((started ++ [img]) ++ todo)
      by now rewrite <- app_assoc.
    apply IH, launch_one_launched, H.
Qed.

Lemma launch_launched (w : World) : launched data (launch World respond data w).
Proof.
  apply (fold_launched data []). constructor; simpl; try reflexivity.
  - intros k pipe Hk. discriminate.
  - intros call [].
Qed.

Lemma launch_inv (w : World) : upload_inv data (launch World respond data w).
Proof.
  destruct (launch_launched w) as [Hl Hp Hi Ha Hf Hn Ho Hr].
  constructor; try assumption.
  intros k img pipe Hk Hpipe. destruct (Hp _ _ Hpipe) as [r ->].
  unfold pipeline_ok. rewrite Hi, Ha, Hf. split; [|split; reflexivity].
  apply List.NoDup_count_occ'; [exact data_nodup|].
  apply in_map. eapply list_elem_of_In, list_elem_of_lookup_2, Hk.
Qed.

Lemma send_inv st k img req next :
  upload_inv data st -> data !! k = Some img ->
  (forall resp,
      pipeline_ok (log st ++ [{| origin := Upload (path img); request := req;
                                 response := resp |}]) img (next resp)) ->
  upload_inv data (send World respond st k img req next).
Proof.
  intros [Hl Hp] Hk Hnext. unfold send.
  destruct (respond req (world st)) as [resp w]. constructor; simpl.
  - now rewrite length_insert.
  - intros k' img' pipe Hk' Hpipe.
    destruct (decide (k = k')) as [<-|Hne].
    + rewrite list_lookup_insert_eq in Hpipe
        by (rewrite Hl; eapply lookup_lt_Some, Hk).
      injection Hpipe as <-. replace img' with img by congruence. apply Hnext.
    + rewrite list_lookup_insert_ne in Hpipe by exact Hne.
      eapply pipeline_ok_other; [reflexivity | | eapply Hp; eauto].
      intros Heq. apply Hne. eapply nodup_path_index; eauto.
Qed.

Lemma pipeline_ok_failed lg img pipe e :
  pipeline_ok lg img pipe -> pipeline_ok lg img (Failed e).
Proof. unfold pipeline_ok. destruct pipe; intuition lia. Qed.

Lemma fail_inv st k img pipe e :
  upload_inv data st -> data !! k = Some img -> pipes st !! k = Some pipe ->
  upload_inv data (fail World st k e).
Proof.
  intros [Hl Hp] Hk Hpipe. constructor; simpl.
  - now rewrite length_insert.
  - intros k' img' pipe' Hk' Hpipe'.
    destruct (decide (k = k')) as [<-|Hne].
    + rewrite list_lookup_insert_eq in Hpipe'
        by (rewrite Hl; eapply lookup_lt_Some, Hk).
      injection Hpipe' as <-. replace img' with img by congruence.
      eapply pipeline_ok_failed, Hp; eauto.
    + rewrite list_lookup_insert_ne in Hpipe' by exact Hne. eapply Hp; eauto.
Qed.

Lemma finish_inv st k img u :
  upload_inv data st -> data !! k = Some img ->
  pipeline_ok (log st) img (Uploaded u) ->
  upload_inv data (finish World st k u).
Proof.
  intros [Hl Hp] Hk Hu. constructor; simpl.
  - now rewrite length_insert.
  - intros k' img' pipe' Hk' Hpipe'.
    destruct (decide (k = k')) as [<-|Hne].
    + rewrite list_lookup_insert_eq in Hpipe'
        by (rewrite Hl; eapply lookup_lt_Some, Hk).
      injection Hpipe' as <-. replace img' with img by congruence. exact Hu.
    + rewrite list_lookup_insert_ne in Hpipe' by exact Hne. eapply Hp; eauto.
Qed.

Lemma resume_inv st k :
  upload_inv data st -> upload_inv data (resume World respond data st k).
Proof.
  intros Hinv. unfold resume.
  destruct (data !! k) as [img|] eqn:Hk; [|exact Hinv].
  destruct (pipes st !! k) as [pipe|] eqn:Hpipe; [|exact Hinv].
  pose proof (inv_pipes _ _ Hinv _ _ _ Hk Hpipe) as Hok.
  destruct pipe as [[body|reason]|mid [body|reason]|[body|reason]|u|e];
    try exact Hinv; try (eapply fail_inv; eauto; fail).
  - apply send_inv; try assumption.
    intros resp. unfold pipeline_ok in *. rewrite !count_snoc.
    destruct Hok as (-> & -> & ->).
    unfold isInitOf, isAppendOf, isFinalizeOf. simpl.
    rewrite String.eqb_refl. auto.
  - apply send_inv; try assumption.
    intros resp. unfold pipeline_ok in *. rewrite !count_snoc.
    destruct Hok as (-> & -> & ->).
    unfold isInitOf, isAppendOf. simpl. unfold isFinalizeOf at 1. simpl.
    rewrite String.eqb_refl. repeat split.
    eexists. split; [apply in_app_iff; right; left; reflexivity|].
    split; [|reflexivity]. unfold isFinalizeOf. simpl. apply String.eqb_refl.
  - destruct (truthy (error body)) eqn:Ht; [eapply fail_inv; eauto|].
    apply (finish_inv _ _ img); try assumption.
    unfold pipeline_ok in *. simpl.
    destruct Hok as (Hi & Ha & Hf & Hlogged). repeat split; try assumption.
    exists body. auto.
Qed.

Lemma uploadImages_inv sched w :
  upload_inv data (uploadImages World respond data sched w).
Proof.
  unfold uploadImages. generalize (launch_inv w).
  generalize (launch World respond data w).
  induction sched as [|k sched IH]; intros st H; simpl; [exact H|].
  apply IH, resume_inv, H.
Qed.

End Launch.

(** *** Nothing is posted while uploading *)

Lemma launch_quiet data w : upload_quiet (launch World respond data w).
Proof.
  destruct (launch_launched data w) as [Hl Hp Hi Ha Hf Hn Ho Hr].
  constructor; try assumption.
  intros k e Hk. destruct (Hp _ _ Hk) as [r Hr']. discriminate.
Qed.

Lemma insert_lookup_cases (ps : list Pipeline) (k k' : nat) (x y : Pipeline) :
  <[k := x]> ps !! k' = Some y -> y = x \/ ps !! k' = Some y.
Proof.
  destruct (decide (k = k')) as [<-|Hne].
  - destruct (decide (k < length ps)) as [Hlt|Hge].
    + rewrite list_lookup_insert_eq by exact Hlt. intros [= <-]. now left.
    + rewrite list_insert_ge by lia. now right.
  - rewrite list_lookup_insert_ne by exact Hne. now right.
Qed.

Lemma send_quiet st k img req next :
  upload_quiet st -> endpoint req = "media/upload" ->
  (forall resp e, next resp <> Failed e) ->
  upload_quiet (send World respond st k img req next).
Proof.
  intros [Hn Ho Hf] Hreq Hnext. unfold send.
  destruct (respond req (world st)) as [resp w]. constructor; simpl.
  - rewrite count_snoc, Hn. unfold isCreatePost. simpl.
    destruct req; try reflexivity. discriminate.
  - intros call Hin. apply in_app_iff in Hin as [Hin|[<-|[]]]; [eauto|].
    simpl. eauto.
  - intros k' e Hk'. apply insert_lookup_cases in Hk' as [Hk'|Hk'].
    + symmetry in Hk'. now apply Hnext in Hk'.
    + eapply Hf, Hk'.
Qed.

Lemma fail_quiet st k e : upload_quiet st -> upload_quiet (fail World st k e).
Proof.
  intros [Hn Ho Hf]. constructor; simpl; try assumption.
  intros k' e' _. now destruct (rejection st).
Qed.

Lemma finish_quiet st k u : upload_quiet st -> upload_quiet (finish World st k u).
Proof.
  intros [Hn Ho Hf]. constructor; simpl; try assumption.
  intros k' e Hk'. apply insert_lookup_cases in Hk' as [Hk'|Hk'];
    [discriminate | eapply Hf, Hk'].
Qed.

Lemma resume_quiet data st k :
  upload_quiet st -> upload_quiet (resume World respond data st k).
Proof.
  intros H. unfold resume.
  destruct (data !! k) as [img|]; [|exact H].
  destruct (pipes st !! k) as [pipe|]; [|exact H].
  destruct pipe as [[body|reason]|mid [body|reason]|[body|reason]|u|e];
    try exact H; try (now apply fail_quiet).
  - apply send_quiet; [exact H | reflexivity | discriminate].
  - apply send_quiet; [exact H | reflexivity | discriminate].
  - destruct (truthy (error body)); [now apply fail_quiet|now apply finish_quiet].
Qed.

Lemma uploadImages_quiet data sched w :
  upload_quiet (uploadImages World respond data sched w).
Proof.
  unfold uploadImages. generalize (launch_quiet data w).
  generalize (launch World respond data w).
  induction sched as [|k sched IH]; intros st H; simpl; [exact H|].
  apply IH, resume_quiet, H.
Qed.

(** *** What [Promise.all] resolves to *)

Lemma allUploaded_lookup (ps : list Pipeline) (us : list UploadedMedia) :
  allUploaded ps = Some us ->
  forall k, (forall pipe, ps !! k = Some pipe ->
               exists u, pipe = Uploaded u /\ us !! k = Some u)
            /\ (forall u, us !! k = Some u -> ps !! k = Some (Uploaded u)).
Proof.
  revert us. induction ps as [|p ps IH]; intros us; simpl.
  - intros [= <-] k. split; intros ? H; discriminate.
  - destruct p as [| | |u|]; simpl; try discriminate.
    destruct (allUploaded ps) as [us'|]; [|discriminate].
    intros [= <-] [|k]; simpl.
    + split; [intros pipe [= <-]; eauto | intros u' [= <-]; reflexivity].
    + apply (IH _ eq_refl).
Qed.

Lemma settle_all st us :
  settle World st = AllUploaded us ->
  rejection st = None /\ allUploaded (pipes st) = Some us.
Proof.
  unfold settle. destruct (rejection st); [discriminate|].
  destruct (allUploaded (pipes st)); [|discriminate].
  now intros [= <-].
Qed.

Lemma settle_failed st k e :
  upload_quiet st -> pipes st !! k = Some (Failed e) ->
  exists e', settle World st = UploadAborted e'.
Proof.
  intros [_ _ Hf] Hk. apply Hf in Hk. unfold settle.
  destruct (rejection st) as [e'|]; [eauto | congruence].
Qed.

End UploadFacts.

(** ** The posting stage *)

Section PostFacts.
Context {World : Type} (respond : Request -> World -> Response * World).

Lemma replyOf_snoc plog c i target :
  replyOf plog i target -> replyOf (plog ++ [c]) i target.
Proof.
  destruct i as [|j]; simpl; [auto|].
  intros (prev & body & Hj & H). exists prev, body. split; [|exact H].
  now apply lookup_app_l_Some.
Qed.

Lemma chain_ok_snoc contents plog c i call :
  chain_ok contents plog i call -> chain_ok contents (plog ++ [c]) i call.
Proof.
  intros (Ho & content & target & Hc & Hr & Ht).
  split; [exact Ho|]. exists content, target. auto using replyOf_snoc.
Qed.

Lemma post_posted (index : nat) (contents : list PostContent) (w : World) :
  index < length contents ->
  posted contents index (post World respond index contents w).1.1
                        (post World respond index contents w).2.
Proof.
  revert w. induction index as [|n IH]; intros w Hlt.
  - destruct (lookup_lt_is_Some_2 contents 0 Hlt) as [content Hc].
    simpl. rewrite Hc.
    destruct (respond _ w) as [[body|reason] w'] eqn:Hr; simpl.
    + constructor; simpl.
      * lia.
      * intros [|i] call Hi; [|discriminate]. injection Hi as <-.
        split; [reflexivity|]. exists content, NoReply. simpl. auto.
      * intros i call _ Hi. lia.
      * intros r [= <-]. split; [reflexivity|]. eexists. split; reflexivity.
      * intros e He. discriminate.
    + constructor; simpl.
      * lia.
      * intros [|i] call Hi; [|discriminate]. injection Hi as <-.
        split; [reflexivity|]. exists content, NoReply. simpl. auto.
      * intros i call _ Hi. lia.
      * intros r Hr'. discriminate.
      * intros e [= <-]. exists 0. eexists. exists reason. simpl. auto.
  - destruct (lookup_lt_is_Some_2 contents (S n) Hlt) as [content Hc].
    specialize (IH w ltac:(lia)).
    cbn [post]. rewrite Hc.
    destruct (post World respond n contents w) as [[res1 w1] log1].
    simpl in IH. destruct IH as [Hlen Hchain Hearlier Hok Hthrow].
    destruct res1 as [prev|e1].
    + destruct (Hok _ eq_refl) as (Hlen1 & pcall & Hpcall & Hpresp).
      assert (Hnew : forall resp,
        chain_ok contents
          (log1 ++ [{| origin := Post (S n);
                       request := StatusUpdate (post_text content)
                                    (joinIds (mediaIds content)) (ReplyTo (id_str prev));
                       response := resp |}]) (S n)
          {| origin := Post (S n);
             request := StatusUpdate (post_text content)
                          (joinIds (mediaIds content)) (ReplyTo (id_str prev));
             response := resp |}).
      { intros resp. split; [reflexivity|].
        exists content, (ReplyTo (id_str prev)). split; [exact Hc|].
        split; [reflexivity|]. simpl. exists pcall, prev.
        split; [now apply lookup_app_l_Some|]. auto. }
      assert (Hall : forall resp i call,
        (log1 ++ [{| origin := Post (S n);
                     request := StatusUpdate (post_text content)
                                  (joinIds (mediaIds content)) (ReplyTo (id_str prev));
                     response := resp |}]) !! i = Some call ->
        (i < S n /\ log1 !! i = Some call) \/
        (i = S n /\ call = {| origin := Post (S n);
                     request := StatusUpdate (post_text content)
                                  (joinIds (mediaIds content)) (ReplyTo (id_str prev));
                     response := resp |})).
      { intros resp i call Hi. apply lookup_app_Some in Hi as [Hi|[Hge Hi]].
        - left. split; [|exact Hi]. apply lookup_lt_Some in Hi. lia.
        - right. apply list_lookup_singleton_Some in Hi as [Hi <-].
          split; [lia|reflexivity]. }
      destruct (respond _ w1) as [[body|reason] w2]; simpl.
      * constructor; simpl.
        -- rewrite length_app. simpl. lia.
        -- intros i call Hi. destruct (Hall _ _ _ Hi) as [[_ Hi']|[-> ->]].
           ++ apply chain_ok_snoc, Hchain, Hi'.
           ++ apply Hnew.
        -- intros i call Hi Hlt'. rewrite length_app in Hlt'. simpl in Hlt'.
           destruct (Hall _ _ _ Hi) as [[Hi0 Hi']|[-> ->]]; [|lia].
           destruct (decide (i = n)) as [->|Hne].
           ++ exists prev. congruence.
           ++ apply (Hearlier _ _ Hi'). lia.
        -- intros r [= <-]. rewrite length_app. simpl. split; [lia|].
           eexists. split; [rewrite lookup_app_r by lia; rewrite Hlen1, Nat.sub_diag;
                            reflexivity | reflexivity].
        -- intros e He. discriminate.
      * constructor; simpl.
        -- rewrite length_app. simpl. lia.
        -- intros i call Hi. destruct (Hall _ _ _ Hi) as [[_ Hi']|[-> ->]].
           ++ apply chain_ok_snoc, Hchain, Hi'.
           ++ apply Hnew.
        -- intros i call Hi Hlt'. rewrite length_app in Hlt'. simpl in Hlt'.
           destruct (Hall _ _ _ Hi) as [[Hi0 Hi']|[-> ->]]; [|lia].
           destruct (decide (i = n)) as [->|Hne].
           ++ exists prev. congruence.
           ++ apply (Hearlier _ _ Hi'). lia.
        -- intros r Hr. discriminate.
        -- intros e [= <-]. exists (S n). eexists. exists reason.
           split; [rewrite lookup_app_r by lia; rewrite Hlen1, Nat.sub_diag;
                   reflexivity|].
           split; [reflexivity|]. split; [reflexivity|].
           rewrite length_app. simpl. lia.
    + simpl. constructor; simpl.
      * lia.
      * exact Hchain.
      * exact Hearlier.
      * intros r Hr. discriminate.
      * exact Hthrow.
Qed.

Lemma postThread_posted (contents : list PostContent) (w : World) :
  1 <= length contents ->
  posted contents (length contents - 1)
    (postThread World respond contents w).1.1 (postThread World respond contents w).2.
Proof.
  intros H. unfold postThread. destruct (length contents) as [|n] eqn:Hn; [lia|].
  simpl. rewrite Nat.sub_0_r. apply post_posted. lia.
Qed.

Lemma exchanged_snoc (w : World) (lg : list Call) (w1 w2 : World)
    (o : Origin) (req : Request) (resp : Response) :
  exchanged respond w lg w1 ->
  respond req w1 = (resp, w2) ->
  exchanged respond w (lg ++ [{| origin := o; request := req; response := resp |}]) w2.
Proof.
  revert w. induction lg as [|c lg IH]; intros w; simpl.
  - intros -> Hr. rewrite Hr. auto.
  - intros [Hc Hrest] Hr. split; [exact Hc|]. now apply IH.
Qed.

Lemma exchanged_app (w : World) (lg1 lg2 : list Call) (w1 w2 : World) :
  exchanged respond w lg1 w1 -> exchanged respond w1 lg2 w2 ->
  exchanged respond w (lg1 ++ lg2) w2.
Proof.
  revert w. induction lg1 as [|c lg1 IH]; intros w; simpl.
  - now intros ->.
  - intros [Hc Hrest] H2. split; [exact Hc|]. now apply IH.
Qed.

(** [post] logs what the client answered, and nothing else. *)
Lemma post_exchanged (index : nat) (contents : list PostContent) (w : World) :
  exchanged respond w (post World respond index contents w).2
    (post World respond index contents w).1.2.
Proof.
  induction index as [|n IH]; simpl.
  - destruct (contents !! 0) as [content|]; [|reflexivity].
    destruct (respond _ w) as [[body|reason] w'] eqn:Hr; simpl; rewrite Hr; auto.
  - destruct (contents !! S n) as [content|]; [|reflexivity].
    destruct (post World respond n contents w) as [[[prev|e] w1] log1]; simpl in IH;
      [|exact IH].
    destruct (respond _ w1) as [[body|reason] w2] eqn:Hr; simpl;
      eapply exchanged_snoc; eauto.
Qed.

Lemma postThread_exchanged (contents : list PostContent) (w : World) :
  exchanged respond w (postThread World respond contents w).2
    (postThread World respond contents w).1.2.
Proof.
  unfold postThread. destruct (length contents); [reflexivity|apply post_exchanged].
Qed.

Lemma createPost_count (plog : list Call) :
  (forall call, In call plog -> exists s m t, request call = StatusUpdate s m t) ->
  count isCreatePost plog = length plog.
Proof.
  unfold count. induction plog as [|c plog IH]; intros H; [reflexivity|].
  destruct (H c (or_introl eq_refl)) as (s & m & t & Hr).
  simpl. unfold isCreatePost at 1. rewrite Hr. simpl.
  rewrite IH; [reflexivity|]. intros call Hin. apply H. now right.
Qed.

(** A cooperative client answers every request of an exchange. *)
Lemma exchanged_cooperative (Good : World -> Prop) (w : World) (lg : list Call)
    (w' : World) :
  cooperative respond Good -> Good w -> exchanged respond w lg w' ->
  Good w' /\ forall call, In call lg -> exists body, response call = Resolve body.
Proof.
  intros Hcoop. revert w. induction lg as [|c lg IH]; intros w Hgood; simpl.
  - intros ->. split; [exact Hgood|intros call []].
  - intros [Hc Hrest]. destruct (Hcoop (request c) w Hgood) as (Hgood' & body & Hb & _).
    destruct (IH _ Hgood' Hrest) as [Hfinal Hall]. split; [exact Hfinal|].
    intros call [<-|Hin]; [|now apply Hall]. exists body. congruence.
Qed.

End PostFacts.

(** * The specification, statement by statement *)

(** ** DocumentParser *)

Section Parser.

Lemma mapi_from_lookup {A B} (f : A -> nat -> B) (n : nat) (arr : list A) (i : nat) :
  Js.mapi_from f n arr !! i = (fun x => f x (n + i)) <$> arr !! i.
Proof.
  revert n i. induction arr as [|x arr IH]; intros n i; [reflexivity|].
  destruct i as [|i]; simpl.
  - now rewrite Nat.add_0_r.
  - rewrite IH. now rewrite Nat.add_succ_r.
Qed.

Lemma mapi_from_length {A B} (f : A -> nat -> B) (n : nat) (arr : list A) :
  length (Js.mapi_from f n arr) = length arr.
Proof. revert n. induction arr as [|x arr IH]; intros n; simpl; auto. Qed.

End Parser.

(** C6, as the code has it: the parsing stage outputs, in document order,
    one block per piece of an unfiltered split of the document on the
    three-dash delimiter (gluing the pieces back with the delimiter gives
    the document, so empty pieces are kept); block [i] is the ordinal label
    [i/(N-1)], two line feeds, and piece [i] with the white space at both
    of its ends cut off. *)
Theorem makeBlocks_labels_trimmed_pieces
    (fs : FileSystem) (filename : string) (file : File) :
  fs filename = Some (RegularFile file) ->
  exists blocks,
    makeBlocks fs filename = Ok blocks
    /\ length blocks = length (Js.split_dashes (utf8 file))
    /\ 1 <= length blocks
    /\ Js.join "---" (Js.split_dashes (utf8 file)) = utf8 file
    /\ forall i piece,
        Js.split_dashes (utf8 file) !! i = Some piece ->
        blocks !! i
          = Some (counter i (length blocks - 1) +:+ LF +:+ LF +:+ Js.trim piece)
        /\ exists pre suf,
            piece = pre +:+ Js.trim piece +:+ suf
            /\ all_white pre = true /\ all_white suf = true
            /\ starts_white (Js.trim piece) = false
            /\ ends_white (Js.trim piece) = false.
Proof.
  intros Hfile. unfold makeBlocks, readFileSync. rewrite Hfile. simpl.
  eexists. split; [reflexivity|].
  unfold Js.mapi. rewrite mapi_from_length.
  split; [reflexivity|]. split.
  { destruct (split_dashes_cons (utf8 file)) as (p & ps & ->). simpl. lia. }
  split; [apply join_split_dashes|].
  intros i piece Hi. split; [|apply trim_spec].
  rewrite mapi_from_lookup, Hi. reflexivity.
Qed.

Lemma makeBlocks_labels_trimmed_pieces_witness :
  exists blocks,
    makeBlocks Sample.spacedFs "thread.md" = Ok blocks
    /\ length blocks = 2
    /\ blocks !! 1 = Some ("1/1" +:+ LF +:+ LF +:+ "b").
Proof.
  destruct (makeBlocks_labels_trimmed_pieces Sample.spacedFs "thread.md"
              (Sample.textFile Sample.spaced) eq_refl)
    as (blocks & Hb & Hlen & _ & _ & Hpieces).
  exists blocks. split; [exact Hb|]. split; [exact Hlen|].
  destruct (Hpieces 1 " b " eq_refl) as [H1 _].
  rewrite H1, Hlen. reflexivity.
Defined.

(** C6, as stated, fails: on the document [" a --- b "] the parsing stage
    does not output the raw pieces [" a "] and [" b "] but the labelled,
    trimmed blocks. *)
Lemma makeBlocks_not_raw :
  makeBlocks Sample.spacedFs "thread.md"
    = Ok ["0/1" +:+ LF +:+ LF +:+ "a"; "1/1" +:+ LF +:+ LF +:+ "b"]
  /\ rawBlocks Sample.spaced = [" a "; " b "]
  /\ makeBlocks Sample.spacedFs "thread.md" <> Ok (rawBlocks Sample.spaced).
Proof.
  split; [reflexivity|]. split; [reflexivity|]. discriminate.
Qed.

(** ** Validator: media mix *)

(** C4, as the code has it: a Content with a gif-type image is accepted if
    and only if it has exactly one image, a Content without one if and only
    if it has at most four; a rejected Content gets [TooManyGifs] when its
    first image is a gif or when it has at most four images, and
    [TooManyImages] otherwise (more than four images, the first of them not
    a gif); the list of Contents is accepted if and only if each Content is,
    each one judged on its own images. *)
Theorem media_mix (content : Content) :
  (has_gif content = true ->
     (checkContent content = Ok tt <-> length (images content) = 1))
  /\ (has_gif content = false ->
     (checkContent content = Ok tt <-> length (images content) <= 4))
  /\ (forall e, checkContent content = Throw e ->
        e = if first_is_gif content || Nat.leb (length (images content)) 4
            then TooManyGifs (text content)
            else TooManyImages (text content))
  /\ (forall contents,
        checkImageNumberPerPost contents = Ok tt
        <-> forall c, In c contents -> checkContent c = Ok tt).
Proof.
  split; [|split; [|split]].
  - intros Hg. rewrite checkContent_ok, Hg.
    pose proof (has_gif_length _ Hg). lia.
  - intros Hg. now rewrite checkContent_ok, Hg.
  - apply checkContent_throw.
  - intros contents. apply forEach_ok.
Qed.

Lemma media_mix_witness :
  checkContent {| text := "0/0"; images := ["/home/me/only.gif"] |} = Ok tt
  /\ checkContent {| text := "0/0"; images := ["a.png"; "b.png"; "c.png"; "d.png"] |}
     = Ok tt
  /\ checkContent Sample.mixed = Throw (TooManyImages "0/0").
Proof.
  destruct (media_mix {| text := "0/0"; images := ["/home/me/only.gif"] |})
    as (Hgif & _ & _ & _).
  destruct (media_mix {| text := "0/0"; images := ["a.png"; "b.png"; "c.png"; "d.png"] |})
    as (_ & Hplain & _ & _).
  destruct (media_mix Sample.mixed) as (_ & _ & Hthrow & _).
  split; [apply (Hgif eq_refl); reflexivity|].
  split; [apply (Hplain eq_refl); simpl; lia|].
  destruct (checkContent Sample.mixed) as [[]|e] eqn:Hmixed; [discriminate|].
  now rewrite (Hthrow e eq_refl).
Defined.

(** C4, as stated, fails: a Content of five images whose second image is
    a gif contains a gif and has more than one image, yet the error is
    [TooManyImages], raised at its first image, not [TooManyGifs]. *)
Lemma media_mix_error_not_as_stated :
  has_gif Sample.mixed = true
  /\ checkContent Sample.mixed = Throw (TooManyImages "0/0")
  /\ ~ mediaMixAsStated Sample.mixed.
Proof.
  split; [reflexivity|]. split; [reflexivity|].
  intros [H _]. specialize (H eq_refl). discriminate.
Qed.

(** C10: the gif test compares the extension without its dot with the
    string gif exactly, and the check of an image takes the gif branch on
    that test alone: a path ending in a dot and a spelling of gif in another
    letter case is not gif-type, its image is checked against the four-image
    limit only, and a Content all of whose images are such is accepted if
    and only if it has at most four images. *)
Theorem gif_test_is_case_sensitive :
  (forall path, is_gif path = true <-> Js.slice1 (Path.extname path) = "gif")
  /\ (forall content path,
        checkImageNumber content path
        = if is_gif path
          then if Nat.ltb 1 (length (images content))
               then Throw (TooManyGifs (text content)) else Ok tt
          else if Nat.ltb 4 (length (images content))
               then Throw (TooManyImages (text content)) else Ok tt)
  /\ (forall stem e,
        Js.toLowerCase e = "gif" -> e <> "gif" ->
        is_gif (stem +:+ "." +:+ e) = false
        /\ forall content,
            checkImageNumber content (stem +:+ "." +:+ e)
            = if Nat.ltb 4 (length (images content))
              then Throw (TooManyImages (text content)) else Ok tt)
  /\ (forall content,
        (forall p, In p (images content) ->
           exists stem e, p = stem +:+ "." +:+ e
                          /\ Js.toLowerCase e = "gif" /\ e <> "gif") ->
        (checkContent content = Ok tt <-> length (images content) <= 4)).
Proof.
  split; [|split; [|split]].
  - intros path. apply String.eqb_eq.
  - intros content path. destruct (is_gif path) eqn:Hg.
    + now apply checkImageNumber_gif.
    + now apply checkImageNumber_other.
  - intros stem e Hl Hne.
    pose proof (is_gif_other_case stem e Hl Hne) as Hg. split; [exact Hg|].
    intros content. now apply checkImageNumber_other.
  - intros content Hall. rewrite checkContent_ok.
    assert (has_gif content = false) as ->; [|reflexivity].
    unfold has_gif. destruct (existsb is_gif (images content)) eqn:Hg; [|reflexivity].
    apply existsb_exists in Hg as (p & Hin & Hp).
    destruct (Hall p Hin) as (stem & e & -> & Hl & Hne).
    now rewrite is_gif_other_case in Hp.
Qed.

Lemma gif_test_is_case_sensitive_witness :
  is_gif "/home/me/a.GIF" = false
  /\ checkContent Sample.shouting = Ok tt.
Proof.
  destruct gif_test_is_case_sensitive as (_ & _ & Hcase & Hall).
  split.
  - apply (Hcase "/home/me/a" "GIF"); [reflexivity | discriminate].
  - apply (Hall Sample.shouting); [|simpl; lia].
    intros p [<-|[<-|[]]].
    + exists "/home/me/a", "GIF". repeat split; discriminate.
    + exists "/home/me/b", "Gif". repeat split; discriminate.
Defined.

(** ** Validator: length and size *)

Section Validation.
Context (World : Type) (respond : Request -> World -> Response * World).

Lemma makeBlocks_exists fs filename blocks :
  makeBlocks fs filename = Ok blocks -> checkFileExists fs filename = Ok tt.
Proof.
  intros H. apply makeBlocks_ok in H as (file & Hf & _).
  unfold checkFileExists, existsSync. now rewrite Hf.
Qed.

Lemma checkImageSize_ok (img : ImageData) :
  checkImageSize img = Ok tt <-> (total_bytes img <= 5242880)%Z.
Proof.
  unfold checkImageSize.
  destruct (Z.ltb_spec 5242880 (total_bytes img)); split; intros; (congruence || lia).
Qed.

Lemma checkImageSize_throw (img : ImageData) (e : Err) :
  checkImageSize img = Throw e ->
  e = ImageTooLarge (path img) /\ (5242880 < total_bytes img)%Z.
Proof.
  unfold checkImageSize.
  destruct (Z.ltb_spec 5242880 (total_bytes img)); [|discriminate].
  intros [= <-]. auto.
Qed.

(** Each loaded image is the file at one of the paths, and each path
    has its image. *)
Lemma imagesData_files fs paths data :
  mapM (getImagesData fs) paths = Ok data ->
  (forall img, In img data ->
     In (path img) paths
     /\ exists f, fs (path img) = Some (RegularFile f) /\ total_bytes img = byte_length f)
  /\ (forall p, In p paths -> exists img, In img data /\ path img = p).
Proof.
  revert data. induction paths as [|p paths IH]; intros data; simpl.
  - intros [= <-]. split; [intros img []|intros p []].
  - destruct (getImagesData fs p) as [img|] eqn:Hp; simpl; [|discriminate].
    destruct (mapM _ paths) as [data'|]; simpl; [|discriminate].
    intros [= <-]. destruct (IH _ eq_refl) as [IH1 IH2].
    apply getImagesData_ok in Hp as (Hpath & f & Hf & Hsize & _). split.
    + intros img' [<-|Hin].
      * split; [now left|]. exists f. rewrite Hpath. auto.
      * destruct (IH1 _ Hin) as [H1 H2]. split; [now right|exact H2].
    + intros q [<-|Hq].
      * exists img. split; [now left|exact Hpath].
      * destruct (IH2 _ Hq) as (img' & Hin & Hq'). exists img'. split; [now right|exact Hq'].
Qed.

Lemma getImagesData_total fs paths :
  (forall p, In p paths -> exists f, fs p = Some (RegularFile f)) ->
  exists data, mapM (getImagesData fs) paths = Ok data.
Proof.
  intros H. apply mapM_ok_total. intros p Hp.
  destruct (H p Hp) as [f Hf].
  unfold getImagesData, readFileSync. rewrite Hf. simpl. eauto.
Qed.

Lemma regular_exists fs paths :
  (forall p, In p paths -> exists f, fs p = Some (RegularFile f)) ->
  forEach (checkFileExists fs) paths = Ok tt.
Proof.
  intros H. apply forEach_ok. intros p Hp. destruct (H p Hp) as [f Hf].
  unfold checkFileExists, existsSync. now rewrite Hf.
Qed.

Lemma postAction_profile config fs cwd filename input sched w :
  getProfile config <> None ->
  postAction World respond config fs cwd filename input sched w
  = match prepare fs cwd filename with
    | Throw e => (Thrown e, [])
    | Ok (contents, imagesData) =>
        publish World respond contents imagesData input sched w
    end.
Proof. unfold postAction. now destruct (getProfile config). Qed.

End Validation.

(** C5: when the ordinal-prefixed text of some Content is longer than 280
    characters, the run of an active profile on an existing document ends
    with [ContentTooLong] and has sent no request, whatever the answer at
    the prompt and whatever the network would do; the error shows the first
    280 characters of the first such text. *)
Theorem too_long_content_aborts
    (World : Type) (respond : Request -> World -> Response * World)
    (config : list Profile) (fs : FileSystem) (cwd filename input : string)
    (sched : list nat) (w : World) (blocks : list string) (contents : list Content) :
  getProfile config <> None ->
  makeBlocks fs filename = Ok blocks ->
  extractImage cwd blocks filename = Ok contents ->
  (exists c, In c contents /\ 280 < String.length (text c)) ->
  exists pre c post shown,
    contents = pre ++ c :: post
    /\ (forall c', In c' pre -> String.length (text c') <= 280)
    /\ 280 < String.length (text c)
    /\ postAction World respond config fs cwd filename input sched w
       = (Thrown (ContentTooLong shown), [])
    /\ shown = Js.slice0 280 (text c)
    /\ String.length shown = 280
    /\ exists rest, text c = shown +:+ rest.
Proof.
  intros Hprofile Hblocks Hcontents Hlong.
  destruct (lint_first contents Hlong) as (pre & c & post & Heq & Hpre & Hlen & Hlint).
  exists pre, c, post, (Js.slice0 280 (text c)).
  split; [exact Heq|]. split; [exact Hpre|]. split; [exact Hlen|]. split.
  - rewrite postAction_profile by exact Hprofile. unfold prepare.
    rewrite (makeBlocks_exists _ _ _ Hblocks), Hblocks. simpl.
    rewrite Hcontents. simpl. rewrite Hlint. reflexivity.
  - split; [reflexivity|]. apply substring_prefix. lia.
Qed.

Lemma too_long_content_aborts_witness :
  exists shown,
    postAction Fake.World Fake.respond Sample.config Sample.longFs Sample.cwd
      "thread.md" "y" [] Fake.fresh = (Thrown (ContentTooLong shown), [])
    /\ String.length shown = 280.
Proof.
  edestruct (too_long_content_aborts Fake.World Fake.respond Sample.config
               Sample.longFs Sample.cwd "thread.md" "y" [] Fake.fresh)
    as (pre & c & post & shown & _ & _ & _ & Hrun & _ & Hlen & _).
  - discriminate.
  - vm_compute. reflexivity.
  - vm_compute. reflexivity.
  - eexists. split; [right; left; reflexivity|].
    apply Nat.ltb_lt. vm_compute. reflexivity.
  - exists shown. split; [exact Hrun|exact Hlen].
Defined.

(** C9, as the code has it: the sizes are compared last, after the
    length check, the existence check, the media-mix check and the reading
    of every image, and an error of one of these ends the run first.  When
    they pass and a referenced image is larger than 5,242,880 bytes, the
    run of an active profile ends with [ImageTooLarge] for the first such
    image in the order of upload.  In every case a run that references such
    an image sends no request. *)
Theorem oversize_image_aborts
    (World : Type) (respond : Request -> World -> Response * World)
    (config : list Profile) (fs : FileSystem) (cwd filename input : string)
    (sched : list nat) (w : World) (blocks : list string) (contents : list Content)
    (p : string) (f : File) :
  makeBlocks fs filename = Ok blocks ->
  extractImage cwd blocks filename = Ok contents ->
  (exists c, In c contents /\ In p (images c)) ->
  fs p = Some (RegularFile f) ->
  (5242880 < byte_length f)%Z ->
  (postAction World respond config fs cwd filename input sched w).2 = []
  /\ ((postAction World respond config fs cwd filename input sched w).1 = NoProfile
      \/ exists e,
          (postAction World respond config fs cwd filename input sched w).1 = Thrown e)
  /\ (getProfile config <> None ->
      lint (map text contents) = Ok tt ->
      (forall q, In q (uniqueImagePaths contents) ->
         exists g, fs q = Some (RegularFile g)) ->
      checkImageNumberPerPost contents = Ok tt ->
      exists pre q post g,
        uniqueImagePaths contents = pre ++ q :: post
        /\ (forall q' g', In q' pre -> fs q' = Some (RegularFile g') ->
              (byte_length g' <= 5242880)%Z)
        /\ fs q = Some (RegularFile g)
        /\ (5242880 < byte_length g)%Z
        /\ postAction World respond config fs cwd filename input sched w
           = (Thrown (ImageTooLarge q), []))
  /\ (getProfile config <> None ->
      forall e,
        lint (map text contents) = Throw e
        \/ (lint (map text contents) = Ok tt
            /\ (forEach (checkFileExists fs) (uniqueImagePaths contents) = Throw e
                \/ (forEach (checkFileExists fs) (uniqueImagePaths contents) = Ok tt
                    /\ (checkImageNumberPerPost contents = Throw e
                        \/ (checkImageNumberPerPost contents = Ok tt
                            /\ mapM (getImagesData fs) (uniqueImagePaths contents)
                               = Throw e))))) ->
        postAction World respond config fs cwd filename input sched w = (Thrown e, [])).
Proof.
  intros Hblocks Hcontents Href Hf Hbig.
  apply in_uniqueImagePaths in Href.
  assert (Hsize : forall data,
    mapM (getImagesData fs) (uniqueImagePaths contents) = Ok data ->
    forEach checkImageSize data <> Ok tt).
  { intros data Hdata Hok.
    destruct (imagesData_files _ _ _ Hdata) as [Hfiles Hall].
    destruct (Hall p Href) as (img & Hin & Hp).
    eapply forEach_ok in Hok; [|exact Hin]. apply checkImageSize_ok in Hok.
    destruct (Hfiles img Hin) as (_ & g & Hg & Hbytes).
    rewrite Hp, Hf in Hg. injection Hg as <-. lia. }
  assert (Hprep : forall cs data, prepare fs cwd filename <> Ok (cs, data)).
  { intros cs data H. apply prepare_ok in H as [(blocks' & Hb & Hc) _ _ _ Hd Hs].
    rewrite Hblocks in Hb. injection Hb as <-.
    rewrite Hcontents in Hc. injection Hc as <-.
    now apply Hsize in Hd. }
  assert (Hunfold : prepare fs cwd filename
            = (lint (map text contents) ;;
               forEach (checkFileExists fs) (uniqueImagePaths contents) ;;
               checkImageNumberPerPost contents ;;
               imagesData <- mapM (getImagesData fs) (uniqueImagePaths contents) ;;
               forEach checkImageSize imagesData ;;
               Ok (contents, imagesData))%result).
  { unfold prepare. rewrite (makeBlocks_exists _ _ _ Hblocks), Hblocks. simpl.
    now rewrite Hcontents. }
  split; [|split; [|split]].
  - unfold postAction. destruct (getProfile config); [|reflexivity].
    destruct (prepare fs cwd filename) as [[cs data]|e] eqn:Hp; [|reflexivity].
    now destruct (Hprep cs data).
  - unfold postAction. destruct (getProfile config); [|now left].
    destruct (prepare fs cwd filename) as [[cs data]|e] eqn:Hp; [|right; eauto].
    now destruct (Hprep cs data).
  - intros Hprofile Hlint Hregular Hnumber.
    destruct (getImagesData_total _ _ Hregular) as [data Hdata].
    destruct (forEach_total checkImageSize data) as [Hok|[e He]];
      [now apply Hsize in Hdata|].
    pose proof He as Hthrow.
    apply forEach_throw in Hthrow as (pre & img & post & Heq & Hsmall & Himg).
    apply checkImageSize_throw in Himg as [-> Hlarge].
    destruct (imagesData_files _ _ _ Hdata) as [Hfiles _].
    destruct (Hfiles img) as (Hq & g & Hg & Hbytes).
    { rewrite Heq. apply in_app_iff. right. now left. }
    exists (map path pre), (path img), (map path post), g.
    split; [|split; [|split; [exact Hg|split; [lia|]]]].
    + rewrite <- (imagesData_paths _ _ _ Hdata), Heq, map_app. reflexivity.
    + intros q' g' Hq' Hg'. apply in_map_iff in Hq' as (img' & <- & Hin').
      destruct (Hfiles img') as (_ & g'' & Hg'' & Hbytes').
      { rewrite Heq. apply in_app_iff. now left. }
      rewrite Hg' in Hg''. injection Hg'' as <-.
      apply Hsmall, checkImageSize_ok in Hin'. lia.
    + rewrite postAction_profile by exact Hprofile. rewrite Hunfold, Hlint. simpl.
      rewrite (regular_exists _ _ Hregular). simpl. rewrite Hnumber. simpl.
      rewrite Hdata. simpl. rewrite He. reflexivity.
  - intros Hprofile e He.
    rewrite postAction_profile by exact Hprofile. rewrite Hunfold.
    destruct He as [->|[-> [->|[-> [->|[-> ->]]]]]]; reflexivity.
Qed.

Lemma oversize_image_aborts_witness :
  postAction Fake.World Fake.respond Sample.config Sample.bigFs Sample.cwd
    "thread.md" "y" [0; 0; 0] Fake.fresh
  = (Thrown (ImageTooLarge "/home/me/big.png"), []).
Proof.
  edestruct (oversize_image_aborts Fake.World Fake.respond Sample.config
               Sample.bigFs Sample.cwd "thread.md" "y" [0; 0; 0] Fake.fresh)
    as (_ & _ & Herr & _).
  - vm_compute. reflexivity.
  - vm_compute. reflexivity.
  - eexists. split; [left; reflexivity|]. left. reflexivity.
  - reflexivity.
  - simpl. lia.
  - destruct Herr as (pre & q & post & g & Hq & _ & _ & _ & Hrun).
    + discriminate.
    + reflexivity.
    + intros q [<-|[]]. eexists. reflexivity.
    + reflexivity.
    + destruct pre as [|q0 [|q1 pre]]; try discriminate.
      injection Hq as <- _. exact Hrun.
Defined.

(** C9, as stated, fails: a document whose only block references a
    picture of 6,000,000 bytes and is longer than 280 characters ends with
    [ContentTooLong], not with [ImageTooLarge]: the length is checked
    before the picture is looked at. *)
Lemma oversize_image_other_error :
  (exists shown,
      postAction Fake.World Fake.respond Sample.config Sample.bigLongFs Sample.cwd
        "thread.md" "y" [0; 0; 0] Fake.fresh
      = (Thrown (ContentTooLong shown), []))
  /\ Sample.bigLongFs "/home/me/big.png"
     = Some (RegularFile (Sample.imageFile 6000000))
  /\ ~ sizeRuleAsStated Sample.bigLongFs Sample.cwd "thread.md".
Proof.
  split; [eexists; vm_compute; reflexivity|]. split; [reflexivity|].
  intros H.
  edestruct H as [q Hq].
  - vm_compute. reflexivity.
  - vm_compute. reflexivity.
  - eexists. split; [left; reflexivity|]. left. reflexivity.
  - reflexivity.
  - simpl. lia.
  - vm_compute in Hq. discriminate.
Qed.

(** ** ThreadPoster *)

(** C1, as the code has it: the log of the posting operation is the
    exchange with the client: entry [i] is the createPost request of
    [contents[i]], sent by the call for index [i] once the answer to entry
    [i - 1] has come; the request of index 0 has no reply target and the
    request of index [i > 0] has the id returned for index [i - 1].  There
    are exactly [N] entries if and only if none of the first [N - 1]
    requests is rejected: a rejected request is the last one sent, and the
    operation then fails with [PostFailed].  The operation succeeds exactly
    when it has sent [N >= 1] requests and the last one is answered, and it
    returns that answer. *)
Theorem post_reply_chain
    (World : Type) (respond : Request -> World -> Response * World)
    (contents : list PostContent) (w w' : World)
    (res : Result Json) (plog : list Call) :
  postThread World respond contents w = (res, w', plog) ->
  exchanged respond w plog w'
  /\ count isCreatePost plog = length plog
  /\ length plog <= length contents
  /\ (forall i call, plog !! i = Some call -> chain_ok contents plog i call)
  /\ (length plog = length contents
      <-> forall i call, plog !! i = Some call -> S i < length contents ->
            exists body, response call = Resolve body)
  /\ (forall i call reason,
        plog !! i = Some call -> response call = Reject reason ->
        length plog = S i /\ res = Throw (PostFailed reason))
  /\ (forall final,
        res = Ok final
        <-> 1 <= length contents
            /\ length plog = length contents
            /\ exists call, plog !! (length contents - 1) = Some call
                            /\ response call = Resolve final).
Proof.
  intros Hrun.
  pose proof (postThread_exchanged respond contents w) as Hex.
  rewrite Hrun in Hex. simpl in Hex. split; [exact Hex|].
  destruct contents as [|c0 contents'] eqn:Hcontents.
  { unfold postThread in Hrun. simpl in Hrun. injection Hrun as <- <- <-.
    split; [reflexivity|]. split; [simpl; lia|].
    split; [intros i call Hi; discriminate|].
    split; [split; [intros _ i call Hi; discriminate|reflexivity]|].
    split; [intros i call reason Hi; discriminate|].
    intros final. split; [discriminate|]. simpl. intros [H _]. lia. }
  rewrite <- Hcontents in *.
  assert (Hn : 1 <= length contents) by (rewrite Hcontents; simpl; lia).
  clear Hcontents c0 contents'.
  pose proof (postThread_posted respond contents w Hn) as P.
  rewrite Hrun in P. simpl in P.
  destruct P as [Hlen Hchain Hearlier Hok Hthrow].
  assert (Hcount : count isCreatePost plog = length plog).
  { apply createPost_count. intros call Hin.
    apply list_elem_of_In, list_elem_of_lookup_1 in Hin as [i Hi].
    destruct (Hchain i call Hi) as (_ & content & target & _ & Hreq & _). eauto. }
  assert (Hrejected : forall i call reason,
            plog !! i = Some call -> response call = Reject reason ->
            length plog = S i /\ res = Throw (PostFailed reason)).
  { intros i call reason Hi Hrej.
    assert (Hlast : length plog = S i).
    { pose proof (lookup_lt_Some _ _ _ Hi) as Hlt.
      destruct (Nat.lt_ge_cases (S i) (length plog)) as [Hmore|Hge]; [|lia].
      destruct (Hearlier i call Hi Hmore) as [body Hbody]. congruence. }
    split; [exact Hlast|]. destruct res as [r|e].
    - destruct (Hok r eq_refl) as (Hl & call' & Hi' & Hr').
      replace (length contents - 1) with i in Hi' by lia. congruence.
    - destruct (Hthrow e eq_refl) as (i' & call' & reason' & Hi' & Hrej' & -> & Hl').
      replace i' with i in Hi' by lia. congruence. }
  split; [exact Hcount|]. split; [lia|]. split; [exact Hchain|]. split; [|split].
  - split.
    + intros Hfull i call Hi Hlt. apply (Hearlier i call Hi). lia.
    + intros Hall. destruct res as [r|e].
      * destruct (Hok r eq_refl) as [-> _]. lia.
      * destruct (Hthrow e eq_refl) as (i & call & reason & Hi & Hrej & _ & Hl).
        destruct (Nat.lt_ge_cases (S i) (length contents)) as [Hmore|Hge]; [|lia].
        destruct (Hall i call Hi Hmore) as [body Hbody]. congruence.
  - exact Hrejected.
  - intros final. split.
    + intros ->. destruct (Hok final eq_refl) as [Hl H].
      split; [exact Hn|]. split; [lia|exact H].
    + intros (_ & Hfull & call & Hi & Hfinal). destruct res as [r|e].
      * destruct (Hok r eq_refl) as (_ & call' & Hi' & Hr). congruence.
      * destruct (Hthrow e eq_refl) as (i & call' & reason & Hi' & Hrej & _ & Hl).
        replace i with (length contents - 1) in Hi' by lia. congruence.
Qed.

Lemma post_reply_chain_witness :
  exists final w' plog,
    postThread Fake.World Fake.respond Sample.twoPosts Fake.fresh = (Ok final, w', plog)
    /\ exchanged Fake.respond Fake.fresh plog w'
    /\ length plog = 2
    /\ (forall i call, plog !! i = Some call -> chain_ok Sample.twoPosts plog i call).
Proof.
  destruct (postThread Fake.World Fake.respond Sample.twoPosts Fake.fresh)
    as [[res w'] plog] eqn:Hrun.
  destruct (post_reply_chain Fake.World Fake.respond Sample.twoPosts Fake.fresh
              w' res plog Hrun) as (Hex & _ & _ & Hchain & _ & _ & _).
  vm_compute in Hrun. injection Hrun as <- <- <-.
  eexists. eexists. eexists. split; [reflexivity|]. split; [exact Hex|].
  split; [reflexivity|exact Hchain].
Defined.

(** C1, as stated, fails: when the client rejects the first of two posts,
    one createPost call occurs, not two: the operation stops at the
    rejected request. *)
Lemma post_count_not_always_n :
  (postThread Fake.World Fake.respond Sample.twoPosts
     {| Fake.served := 0; Fake.reject := [0]; Fake.broken := [] |}).1.1
  = Throw (PostFailed (JStr "rejected"))
  /\ count isCreatePost
       (postThread Fake.World Fake.respond Sample.twoPosts
          {| Fake.served := 0; Fake.reject := [0]; Fake.broken := [] |}).2 = 1
  /\ length Sample.twoPosts = 2
  /\ ~ postCountAsStated Fake.respond Sample.twoPosts
         {| Fake.served := 0; Fake.reject := [0]; Fake.broken := [] |}.
Proof.
  split; [reflexivity|]. split; [reflexivity|]. split; [reflexivity|].
  unfold postCountAsStated. vm_compute. discriminate.
Qed.

(** C7: when the createPost request of index [i] is rejected, the posting
    operation ends with [PostFailed]; the log ends with that request, so
    nothing is sent for the indices after [i]; its entries are the
    createPost requests of the indices [0..i] and nothing else, those
    before [i] answered and left as they are. *)
Theorem post_failure_aborts_chain
    (World : Type) (respond : Request -> World -> Response * World)
    (contents : list PostContent) (w w' : World)
    (res : Result Json) (plog : list Call)
    (i : nat) (call : Call) (reason : JsValue) :
  postThread World respond contents w = (res, w', plog) ->
  plog !! i = Some call ->
  response call = Reject reason ->
  res = Throw (PostFailed reason)
  /\ length plog = S i
  /\ (forall j c, plog !! j = Some c ->
        j <= i /\ origin c = Post j /\ endpoint (request c) = "statuses/update")
  /\ (forall j c, plog !! j = Some c -> j < i ->
        exists body, response c = Resolve body).
Proof.
  intros Hrun Hi Hrej.
  destruct (decide (1 <= length contents)) as [Hn|Hn].
  2: { unfold postThread in Hrun. destruct (length contents); [|lia].
       injection Hrun as <- <- <-. discriminate. }
  pose proof (postThread_posted respond contents w Hn) as P.
  rewrite Hrun in P. simpl in P.
  destruct P as [Hlen Hchain Hearlier Hok Hthrow].
  assert (Hlast : length plog = S i).
  { pose proof (lookup_lt_Some _ _ _ Hi).
    destruct (decide (S i < length plog)) as [Hlt|]; [|lia].
    destruct (Hearlier _ _ Hi Hlt) as [body Hbody]. congruence. }
  split; [|split; [exact Hlast|split]].
  - destruct res as [r|e].
    + destruct (Hok r eq_refl) as (Hl & c & Hc & Hr).
      assert (length contents - 1 = i) as Heq by lia. rewrite Heq in Hc. congruence.
    + destruct (Hthrow e eq_refl) as (i' & c & reason' & Hc & Hr & -> & Hl).
      assert (i' = i) as -> by lia. congruence.
  - intros j c Hj. pose proof (lookup_lt_Some _ _ _ Hj).
    destruct (Hchain _ _ Hj) as (Ho & content & target & _ & Hreq & _).
    split; [lia|]. split; [exact Ho|]. now rewrite Hreq.
  - intros j c Hj Hlt. apply (Hearlier _ _ Hj). lia.
Qed.

Lemma post_failure_aborts_chain_witness :
  exists reason,
    (postThread Fake.World Fake.respond
       (Sample.twoPosts ++ Sample.twoPosts)
       {| Fake.served := 0; Fake.reject := [1]; Fake.broken := [] |}).1.1
    = Throw (PostFailed reason)
    /\ length (postThread Fake.World Fake.respond
                 (Sample.twoPosts ++ Sample.twoPosts)
                 {| Fake.served := 0; Fake.reject := [1]; Fake.broken := [] |}).2 = 2.
Proof.
  edestruct (post_failure_aborts_chain Fake.World Fake.respond
               (Sample.twoPosts ++ Sample.twoPosts)
               {| Fake.served := 0; Fake.reject := [1]; Fake.broken := [] |})
    as (Hres & Hlen & _).
  - vm_compute. reflexivity.
  - instantiate (2 := 1). reflexivity.
  - reflexivity.
  - eexists. split; [reflexivity|]. exact Hlen.
Defined.

(** ** MediaUploader *)

Section PublishFacts.
Context (World : Type) (respond : Request -> World -> Response * World).

Lemma map_lookup {A B} (f : A -> B) (l : list A) (i : nat) :
  map f l !! i = f <$> l !! i.
Proof.
  revert i. induction l as [|x l IH]; intros [|i]; simpl; auto.
Qed.

Lemma in_lookup {A} (l : list A) (x : A) : In x l -> exists i, l !! i = Some x.
Proof. intros H. now apply list_elem_of_In, list_elem_of_lookup_1 in H. Qed.

Lemma lookup_in {A} (l : list A) (i : nat) (x : A) : l !! i = Some x -> In x l.
Proof. intros H. eapply list_elem_of_In, list_elem_of_lookup_2, H. Qed.

(** The [find] of the action returns the upload of the path it asks for. *)
Lemma resolveMediaId_found (data : list ImageData) (us : list UploadedMedia)
    (k : nat) (img : ImageData) (u : UploadedMedia) :
  List.NoDup (map path data) ->
  (forall j u', us !! j = Some u' ->
     exists img', data !! j = Some img' /\ up_path u' = path img') ->
  data !! k = Some img -> us !! k = Some u -> up_path u = path img ->
  resolveMediaId us (path img) = mediaId u.
Proof.
  intros Hnd Hus Hk Hu Hp. unfold resolveMediaId.
  destruct (List.find _ us) as [x|] eqn:Hfind.
  - apply List.find_some in Hfind as [Hin Heq]. apply String.eqb_eq in Heq.
    apply in_lookup in Hin as [j Hj].
    destruct (Hus _ _ Hj) as (img' & Hj' & Hx).
    assert (j = k) as -> by (eapply nodup_path_index; eauto; congruence).
    congruence.
  - eapply List.find_none in Hfind; [|eapply lookup_in, Hu].
    simpl in Hfind. rewrite Hp, String.eqb_refl in Hfind. discriminate.
Qed.

(** When all uploads have succeeded, the pipeline of an image has sent
    its three requests, and the path resolves to the id its FINALIZE
    returned. *)
Lemma uploaded_media_id (data : list ImageData) (sched : list nat) (w : World)
    (us : list UploadedMedia) (k : nat) (img : ImageData) :
  List.NoDup (map path data) ->
  settle World (uploadImages World respond data sched w) = AllUploaded us ->
  data !! k = Some img ->
  count (isAppendOf (path img)) (log (uploadImages World respond data sched w)) = 1
  /\ count (isFinalizeOf (path img)) (log (uploadImages World respond data sched w)) = 1
  /\ exists body,
      finalizeLogged (log (uploadImages World respond data sched w)) (path img)
        (Resolve body)
      /\ resolveMediaId us (path img) = media_id_string body.
Proof.
  intros Hnd Hsettle Hk.
  pose proof (uploadImages_inv respond data Hnd sched w) as [Hlen Hpipes].
  set (st := uploadImages World respond data sched w) in *.
  apply settle_all in Hsettle as [_ Hall].
  destruct (lookup_lt_is_Some_2 (pipes st) k) as [pipe Hpipe].
  { rewrite Hlen. eapply lookup_lt_Some, Hk. }
  destruct (proj1 (allUploaded_lookup _ _ Hall k) _ Hpipe) as (u & -> & Hu).
  pose proof (Hpipes _ _ _ Hk Hpipe) as Hok. unfold pipeline_ok in Hok.
  destruct Hok as (_ & Ha & Hf & Hup & body & Hlogged & Hid & _).
  split; [exact Ha|]. split; [exact Hf|]. exists body. split; [exact Hlogged|].
  rewrite <- Hid.
  apply (resolveMediaId_found data us k img u); try assumption.
  intros j' u' Hj'.
  pose proof (proj2 (allUploaded_lookup _ _ Hall j') _ Hj') as Hpj.
  destruct (lookup_lt_is_Some_2 data j') as [img' Himg'].
  { rewrite <- Hlen. eapply lookup_lt_Some, Hpj. }
  exists img'. split; [exact Himg'|].
  pose proof (Hpipes _ _ _ Himg' Hpj) as Hok'. unfold pipeline_ok in Hok'.
  tauto.
Qed.

(** Whatever the schedule, the pipeline of an image sends one INIT and
    at most one APPEND and one FINALIZE. *)
Lemma pipeline_counts (data : list ImageData) (sched : list nat) (w : World)
    (k : nat) (img : ImageData) :
  List.NoDup (map path data) ->
  data !! k = Some img ->
  count (isInitOf (path img)) (log (uploadImages World respond data sched w)) = 1
  /\ count (isAppendOf (path img)) (log (uploadImages World respond data sched w)) <= 1
  /\ count (isFinalizeOf (path img)) (log (uploadImages World respond data sched w)) <= 1.
Proof.
  intros Hnd Hk.
  pose proof (uploadImages_inv respond data Hnd sched w) as [Hlen Hpipes].
  set (st := uploadImages World respond data sched w) in *.
  destruct (lookup_lt_is_Some_2 (pipes st) k) as [pipe Hpipe].
  { rewrite Hlen. eapply lookup_lt_Some, Hk. }
  pose proof (Hpipes _ _ _ Hk Hpipe) as Hok. unfold pipeline_ok in Hok.
  destruct pipe; intuition lia.
Qed.

(** The log of [post] holds createPost requests only. *)
Lemma posted_counts contents index res plog :
  posted contents index res plog ->
  count isCreatePost plog = length plog
  /\ forall p, count (isInitOf p) plog = 0
               /\ count (isAppendOf p) plog = 0
               /\ count (isFinalizeOf p) plog = 0.
Proof.
  intros [_ Hchain _ _ _].
  assert (Hall : forall c, In c plog -> exists i s m t,
             origin c = Post i /\ request c = StatusUpdate s m t).
  { intros c Hc. apply in_lookup in Hc as [i Hi].
    destruct (Hchain _ _ Hi) as (Ho & content & target & _ & Hreq & _). eauto 8. }
  clear Hchain. unfold count.
  induction plog as [|c plog IH]; [simpl; auto|].
  destruct IH as [IH1 IH2]; [intros; apply Hall; now right|].
  destruct (Hall c (or_introl eq_refl)) as (i & s & m & t & Ho & Hr).
  simpl. unfold isCreatePost at 1. rewrite Hr. simpl. split; [now rewrite IH1|].
  intros p. unfold isInitOf at 1, isAppendOf at 1, isFinalizeOf at 1.
  rewrite Ho. apply IH2.
Qed.

(** The three ways a confirmed run can go. *)
Lemma publish_confirmed contents imagesData input sched w :
  confirmed input = true ->
  let st := uploadImages World respond imagesData sched w in
  (exists e, settle World st = UploadAborted e
             /\ publish World respond contents imagesData input sched w
                = (Thrown e, log st))
  \/ (settle World st = UploadPending
      /\ publish World respond contents imagesData input sched w = (Hung, log st))
  \/ (exists us res w' plog,
        settle World st = AllUploaded us
        /\ postThread World respond (map (makePostContent us) contents) (world st)
           = (res, w', plog)
        /\ publish World respond contents imagesData input sched w
           = (match res with Ok r => Completed r | Throw e => Thrown e end,
              log st ++ plog)).
Proof.
  intros Hc st. unfold publish. rewrite Hc. simpl. fold st.
  destruct (settle World st) as [us|e|]; [|left; eauto|right; left; auto].
  right. right.
  destruct (postThread World respond _ (world st)) as [[res w'] plog] eqn:Hp.
  exists us, res, w', plog. split; [reflexivity|]. split; [exact Hp|].
  now destruct res.
Qed.

End PublishFacts.



(** ** Progress of the upload stage *)

Section ProgressFacts.
Context {World : Type} (respond : Request -> World -> Response * World).
Context (Good : World -> Prop) (Hcoop : cooperative respond Good).
Variable data : list ImageData.

Lemma turns_snoc (delivered : list nat) (j k : nat) :
  turns (delivered ++ [j]) k = turns delivered k + (if Nat.eq_dec j k then 1 else 0).
Proof.
  unfold turns. rewrite count_occ_app. simpl. now destruct (Nat.eq_dec j k).
Qed.

Lemma fold_launch_progress (todo : list ImageData) (st : UploadState World) :
  Good (world st) -> rejection st = None ->
  (forall k pipe, pipes st !! k = Some pipe -> advanced 0 pipe) ->
  Good (world (fold_left (launch_one World respond) todo st))
  /\ rejection (fold_left (launch_one World respond) todo st) = None
  /\ length (pipes (fold_left (launch_one World respond) todo st))
     = length (pipes st) + length todo
  /\ (forall k pipe,
        pipes (fold_left (launch_one World respond) todo st) !! k = Some pipe ->
        advanced 0 pipe).
Proof.
  revert st. induction todo as [|img todo IH]; intros st Hgood Hrej Hpipes; simpl.
  - repeat split; auto.
  - destruct (Hcoop (MediaInit (total_bytes img) (media_type img)) (world st) Hgood)
      as (Hgood' & body & Hbody & _).
    destruct (IH (launch_one World respond st img)) as (H1 & H2 & H3 & H4).
    + unfold launch_one. now destruct (respond _ (world st)).
    + unfold launch_one. now destruct (respond _ (world st)).
    + unfold launch_one. destruct (respond _ (world st)) as [resp w'] eqn:Hr.
      simpl in *. intros k pipe Hk.
      apply lookup_app_Some in Hk as [Hk|[_ Hk]]; [eauto|].
      apply list_lookup_singleton_Some in Hk as [_ <-]. subst resp. now exists body.
    + split; [exact H1|]. split; [exact H2|]. split; [|exact H4].
      rewrite H3. unfold launch_one. destruct (respond _ (world st)). simpl.
      rewrite length_app. simpl. lia.
Qed.

Lemma launch_progress (w : World) :
  Good w -> upload_progress Good data [] (launch World respond data w).
Proof.
  intros Hgood. unfold launch.
  destruct (fold_launch_progress data
              {| world := w; pipes := []; log := []; rejection := None |})
    as (H1 & H2 & H3 & H4); simpl; auto.
  - intros k pipe Hk. discriminate.
  - constructor; auto.
Qed.

Lemma send_progress (delivered : list nat) (st : UploadState World) (k : nat)
    (img : ImageData) (req : Request) (next : Response -> Pipeline) :
  upload_progress Good data delivered st ->
  k < length (pipes st) ->
  (forall body, truthy (error body) = false ->
     advanced (S (turns delivered k)) (next (Resolve body))) ->
  upload_progress Good data (delivered ++ [k]) (send World respond st k img req next).
Proof.
  intros [Hgood Hrej Hlen Hpipes] Hk Hnext. unfold send.
  destruct (Hcoop req (world st) Hgood) as (Hgood' & body & Hbody & Herr).
  destruct (respond req (world st)) as [resp w'] eqn:Hr. simpl in Hgood', Hbody.
  subst resp. constructor; simpl; auto.
  - now rewrite length_insert.
  - intros k' pipe Hk'. rewrite turns_snoc.
    destruct (Nat.eq_dec k k') as [<-|Hne].
    + rewrite list_lookup_insert_eq in Hk' by exact Hk. injection Hk' as <-.
      rewrite Nat.add_1_r. now apply Hnext.
    + rewrite list_lookup_insert_ne in Hk' by exact Hne.
      rewrite Nat.add_0_r. now apply Hpipes.
Qed.

Lemma resume_progress (delivered : list nat) (st : UploadState World) (k : nat) :
  upload_progress Good data delivered st ->
  upload_progress Good data (delivered ++ [k]) (resume World respond data st k).
Proof.
  intros Hinv. pose proof Hinv as [Hgood Hrej Hlen Hpipes].
  assert (Hidle : forall st', st' = st ->
            (forall pipe, pipes st !! k = Some pipe ->
               advanced (S (turns delivered k)) pipe) ->
            upload_progress Good data (delivered ++ [k]) st').
  { intros st' -> Hsame. constructor; auto.
    intros k' pipe Hk'. rewrite turns_snoc.
    destruct (Nat.eq_dec k k') as [<-|Hne].
    - rewrite Nat.add_1_r. now apply Hsame.
    - rewrite Nat.add_0_r. now apply Hpipes. }
  unfold resume.
  destruct (data !! k) as [img|] eqn:Hk.
  2:{ apply Hidle; [reflexivity|]. intros pipe Hpipe.
      apply lookup_lt_Some in Hpipe. apply lookup_ge_None in Hk. lia. }
  destruct (pipes st !! k) as [pipe|] eqn:Hpipe.
  2:{ apply Hidle; [reflexivity|]. intros pipe Hp. congruence. }
  pose proof (Hpipes k pipe Hpipe) as Hadv.
  pose proof (lookup_lt_Some _ _ _ Hpipe) as Hlt.
  destruct (turns delivered k) as [|[|[|n]]] eqn:Hturns; simpl in Hadv.
  - destruct Hadv as [b ->]. apply send_progress; auto.
    intros body _. rewrite Hturns. simpl. eauto.
  - destruct Hadv as (m & b & ->). apply send_progress; auto.
    intros body Herr. rewrite Hturns. simpl. eauto.
  - destruct Hadv as (b & -> & Herr). rewrite Herr.
    constructor; simpl; auto.
    + now rewrite length_insert.
    + intros k' pipe' Hk'. rewrite turns_snoc.
      destruct (Nat.eq_dec k k') as [<-|Hne].
      * rewrite list_lookup_insert_eq in Hk' by exact Hlt. injection Hk' as <-.
        rewrite Hturns. simpl. eauto.
      * rewrite list_lookup_insert_ne in Hk' by exact Hne.
        rewrite Nat.add_0_r. now apply Hpipes.
  - destruct Hadv as [u ->]. apply Hidle; [reflexivity|].
    intros pipe' Hp. injection Hp as <-. simpl. eauto.
Qed.

Lemma uploadImages_progress (sched : list nat) (w : World) :
  Good w -> upload_progress Good data sched (uploadImages World respond data sched w).
Proof.
  intros Hgood. unfold uploadImages.
  assert (H : forall delivered st,
            upload_progress Good data delivered st ->
            upload_progress Good data (delivered ++ sched)
              (fold_left (resume World respond data) sched st)).
  { induction sched as [|k sched IH]; intros delivered st Hst; simpl.
    - now rewrite app_nil_r.
    - replace (delivered ++ k :: sched) with ((delivered ++ [k]) ++ sched)
        by now rewrite <- app_assoc.
      apply IH, resume_progress, Hst. }
  apply (H [] _ (launch_progress w Hgood)).
Qed.

(** The log of the upload stage is the exchange with the client. *)
Lemma launch_one_exchanged (w : World) (st : UploadState World) (img : ImageData) :
  exchanged respond w (log st) (world st) ->
  exchanged respond w (log (launch_one World respond st img))
    (world (launch_one World respond st img)).
Proof.
  intros H. unfold launch_one.
  destruct (respond _ (world st)) as [resp w'] eqn:Hr. simpl.
  eapply exchanged_snoc; eauto.
Qed.

Lemma send_exchanged (w : World) (st : UploadState World) (k : nat) (img : ImageData)
    (req : Request) (next : Response -> Pipeline) :
  exchanged respond w (log st) (world st) ->
  exchanged respond w (log (send World respond st k img req next))
    (world (send World respond st k img req next)).
Proof.
  intros H. unfold send.
  destruct (respond req (world st)) as [resp w'] eqn:Hr. simpl.
  eapply exchanged_snoc; eauto.
Qed.

Lemma resume_exchanged (w : World) (st : UploadState World) (k : nat) :
  exchanged respond w (log st) (world st) ->
  exchanged respond w (log (resume World respond data st k))
    (world (resume World respond data st k)).
Proof.
  intros H. unfold resume.
  destruct (data !! k) as [img|]; [|exact H].
  destruct (pipes st !! k) as [[[b|r]|m [b|r]|[b|r]|u|e]|]; try exact H;
    try (now apply send_exchanged).
  destruct (truthy (error b)); exact H.
Qed.

Lemma uploadImages_exchanged (sched : list nat) (w : World) :
  exchanged respond w (log (uploadImages World respond data sched w))
    (world (uploadImages World respond data sched w)).
Proof.
  unfold uploadImages.
  assert (Hlaunch : exchanged respond w (log (launch World respond data w))
                      (world (launch World respond data w))).
  { unfold launch.
    assert (H : forall todo st,
              exchanged respond w (log st) (world st) ->
              exchanged respond w (log (fold_left (launch_one World respond) todo st))
                (world (fold_left (launch_one World respond) todo st))).
    { induction todo as [|img todo IH]; intros st Hst; simpl; [exact Hst|].
      apply IH, launch_one_exchanged, Hst. }
    apply H. reflexivity. }
  revert Hlaunch. generalize (launch World respond data w).
  induction sched as [|k sched IH]; intros st Hst; simpl; [exact Hst|].
  apply IH, resume_exchanged, Hst.
Qed.

Lemma allUploaded_total (ps : list Pipeline) :
  (forall k pipe, ps !! k = Some pipe -> exists u, pipe = Uploaded u) ->
  exists us, allUploaded ps = Some us.
Proof.
  induction ps as [|pipe ps IH]; intros H; simpl; [eauto|].
  destruct (H 0 pipe eq_refl) as [u ->]. simpl.
  destruct IH as [us ->]; [|eauto]. intros k pipe' Hk. apply (H (S k) pipe' Hk).
Qed.

(** With a cooperative client and a schedule that delivers every answer,
    every upload succeeds. *)
Lemma uploadImages_succeeds (sched : list nat) (w : World) :
  Good w -> complete (length data) sched ->
  Good (world (uploadImages World respond data sched w))
  /\ exists us, settle World (uploadImages World respond data sched w) = AllUploaded us.
Proof.
  intros Hgood Hcomplete.
  destruct (uploadImages_progress sched w Hgood) as [Hg Hrej Hlen Hpipes].
  split; [exact Hg|].
  destruct (allUploaded_total (pipes (uploadImages World respond data sched w)))
    as [us Hus].
  - intros k pipe Hk. pose proof (Hpipes k pipe Hk) as Hadv.
    assert (Hthree : 3 <= turns sched k).
    { apply Hcomplete. rewrite <- Hlen. eapply lookup_lt_Some, Hk. }
    destruct (turns sched k) as [|[|[|n]]]; try lia. exact Hadv.
  - exists us. unfold settle. now rewrite Hrej, Hus.
Qed.

(** And the thread is posted. *)
Lemma publish_succeeds (contents : list Content) (input : string)
    (sched : list nat) (w : World) :
  Good w -> complete (length data) sched ->
  confirmed input = true -> 1 <= length contents ->
  exists us final plog,
    settle World (uploadImages World respond data sched w) = AllUploaded us
    /\ publish World respond contents data input sched w
       = (Completed final, log (uploadImages World respond data sched w) ++ plog)
    /\ length plog = length contents.
Proof.
  intros Hgood Hcomplete Hconfirmed Hne.
  destruct (uploadImages_succeeds sched w Hgood Hcomplete) as [Hg [us Hus]].
  exists us. unfold publish. rewrite Hconfirmed, Hus. simpl.
  pose proof (postThread_posted respond (map (makePostContent us) contents)
                (world (uploadImages World respond data sched w))) as P.
  rewrite length_map in P. specialize (P Hne).
  pose proof (postThread_exchanged respond (map (makePostContent us) contents)
                (world (uploadImages World respond data sched w))) as Hex.
  destruct (postThread World respond (map (makePostContent us) contents)
              (world (uploadImages World respond data sched w)))
    as [[res w'] plog]. simpl in P, Hex.
  destruct (exchanged_cooperative respond Good _ _ _ Hcoop Hg Hex) as [_ Hall].
  destruct P as [_ _ _ Hok Hthrow]. destruct res as [r|e].
  - exists r, plog. split; [reflexivity|]. split; [reflexivity|].
    destruct (Hok r eq_refl) as [Hl _]. lia.
  - destruct (Hthrow e eq_refl) as (i & call & reason & Hi & Hrej & _).
    destruct (Hall call) as [body Hbody]; [|congruence].
    eapply list_elem_of_In, list_elem_of_lookup_2, Hi.
Qed.

End ProgressFacts.



(** ** The example of the specification *)

(** C8: the document [Hello ![a](./img.png)], a line of three dashes,
    [World], next to an [img.png] of 1000 bytes, gives the two Contents of
    the example and one image to upload.  A confirmed run sends one INIT
    and at most one APPEND and one FINALIZE for [img.png], and at most two
    createPost requests; when it completes, its log is the upload of
    [img.png] followed by two createPost requests, the first with the media
    id that FINALIZE returned and no reply target, the second replying to
    the id returned for the first.  With the in-memory client the log is
    the five requests of the last conjunct. *)
Theorem hello_world_thread
    (World : Type) (respond : Request -> World -> Response * World)
    (config : list Profile) (input : string) (sched : list nat) (w : World)
    (out : Outcome) (lg : list Call) :
  prepare Sample.helloFs Sample.cwd "thread.md"
    = Ok (Sample.helloContents, Sample.helloImages)
  /\ (getProfile config <> None ->
      confirmed input = true ->
      postAction World respond config Sample.helloFs Sample.cwd "thread.md"
        input sched w = (out, lg) ->
      count (isInitOf "/home/me/img.png") lg = 1
      /\ count (isAppendOf "/home/me/img.png") lg <= 1
      /\ count (isFinalizeOf "/home/me/img.png") lg <= 1
      /\ count isCreatePost lg <= 2
      /\ forall final, out = Completed final ->
          count (isAppendOf "/home/me/img.png") lg = 1
          /\ count (isFinalizeOf "/home/me/img.png") lg = 1
          /\ exists uploads first second uploaded posted0,
              lg = uploads ++ [first; second]
              /\ count isCreatePost uploads = 0
              /\ finalizeLogged uploads "/home/me/img.png" (Resolve uploaded)
              /\ request first
                 = StatusUpdate ("0/1" +:+ LF +:+ LF +:+ "Hello ")
                     (joinIds [media_id_string uploaded]) NoReply
              /\ response first = Resolve posted0
              /\ request second
                 = StatusUpdate ("1/1" +:+ LF +:+ LF +:+ "World") ""
                     (ReplyTo (id_str posted0))
              /\ response second = Resolve final)
  /\ (postAction Fake.World Fake.respond Sample.config Sample.helloFs Sample.cwd
        "thread.md" "y" [0; 0; 0] Fake.fresh).2
     = [{| origin := Upload "/home/me/img.png";
           request := MediaInit 1000 "image/png";
           response := Resolve {| media_id_string := Some "m0"; error := JUndefined;
                                  id_str := None |} |};
        {| origin := Upload "/home/me/img.png";
           request := MediaAppend (Some "m0") "iVBORw0KGgo=" 0;
           response := Resolve {| media_id_string := None; error := JUndefined;
                                  id_str := None |} |};
        {| origin := Upload "/home/me/img.png";
           request := MediaFinalize (Some "m0");
           response := Resolve {| media_id_string := Some "m0"; error := JUndefined;
                                  id_str := None |} |};
        {| origin := Post 0;
           request := StatusUpdate ("0/1" +:+ LF +:+ LF +:+ "Hello ") "m0" NoReply;
           response := Resolve {| media_id_string := None; error := JUndefined;
                                  id_str := Some "t3" |} |};
        {| origin := Post 1;
           request := StatusUpdate ("1/1" +:+ LF +:+ LF +:+ "World") ""
                        (ReplyTo (Some "t3"));
           response := Resolve {| media_id_string := None; error := JUndefined;
                                  id_str := Some "t4" |} |}].
Proof.
  assert (Hprep : prepare Sample.helloFs Sample.cwd "thread.md"
                  = Ok (Sample.helloContents, Sample.helloImages))
    by (vm_compute; reflexivity).
  split; [exact Hprep|]. split; [|vm_compute; reflexivity].
  intros Hprofile Hconfirmed Hrun.
  rewrite postAction_profile, Hprep in Hrun by exact Hprofile.
  assert (Hnd : List.NoDup (map path Sample.helloImages)).
  { simpl. constructor; [intros []|constructor]. }
  destruct (pipeline_counts World respond Sample.helloImages sched w 0 _ Hnd eq_refl)
    as (Hinit & Happend & Hfinalize).
  pose proof (uploadImages_quiet respond Sample.helloImages sched w) as [Hquiet _ _].
  simpl path in Hinit, Happend, Hfinalize.
  destruct (publish_confirmed World respond Sample.helloContents Sample.helloImages
              input sched w Hconfirmed)
    as [(e & _ & Hpub)|[(_ & Hpub)|(us & res & w' & plog & Hsettle & Hpost & Hpub)]];
    rewrite Hpub in Hrun; injection Hrun as <- <-.
  - split; [exact Hinit|]. split; [exact Happend|]. split; [exact Hfinalize|].
    split; [lia|]. intros final Hfinal. discriminate.
  - split; [exact Hinit|]. split; [exact Happend|]. split; [exact Hfinalize|].
    split; [lia|]. intros final Hfinal. discriminate.
  - pose proof (postThread_posted respond
                  (map (makePostContent us) Sample.helloContents)
                  (world (uploadImages World respond Sample.helloImages sched w))
                  ltac:(simpl; lia)) as P.
    rewrite Hpost in P. simpl in P.
    destruct (posted_counts _ _ _ _ P) as [Hposts Hnone].
    destruct (Hnone "/home/me/img.png") as (Hn1 & Hn2 & Hn3).
    pose proof (po_length _ _ _ _ P) as Hlen.
    rewrite !count_app, Hn1, Hn2, Hn3, Hquiet, Hposts, !Nat.add_0_r.
    split; [exact Hinit|]. split; [exact Happend|]. split; [exact Hfinalize|].
    split; [simpl; lia|]. intros final Hfinal. destruct res as [r|e]; [|discriminate].
    injection Hfinal as ->.
    destruct (uploaded_media_id World respond Sample.helloImages sched w us 0 _
                Hnd Hsettle eq_refl) as (Ha & Hf & uploaded & Hlogged & Hid).
    simpl path in Ha, Hf, Hlogged, Hid.
    split; [exact Ha|]. split; [exact Hf|].
    destruct (po_ok _ _ _ _ P final eq_refl) as (Hlen2 & second & Hsecond & Hresp2).
    destruct plog as [|first [|second' [|]]]; try discriminate Hlen2.
    injection Hsecond as ->.
    destruct (po_chain _ _ _ _ P 0 first eq_refl)
      as (_ & content0 & target0 & Hc0 & Hreq0 & Ht0).
    destruct (po_chain _ _ _ _ P 1 second eq_refl)
      as (_ & content1 & target1 & Hc1 & Hreq1 & (prev & posted0 & Hprev & Hresp & Ht1)).
    injection Hc0 as <-. injection Hc1 as <-. injection Hprev as <-.
    simpl in Ht0. subst target0 target1.
    exists (log (uploadImages World respond Sample.helloImages sched w)),
      first, second, uploaded, posted0.
    split; [reflexivity|]. split; [exact Hquiet|]. split; [exact Hlogged|].
    split; [|split; [exact Hresp|split; [exact Hreq1|exact Hresp2]]].
    rewrite Hreq0. simpl. now rewrite Hid.
Qed.

Lemma hello_world_thread_witness :
  count isCreatePost
    (postAction Fake.World Fake.respond Sample.config Sample.helloFs Sample.cwd
       "thread.md" "Y" [0; 0; 0] Fake.fresh).2 <= 2
  /\ count (isInitOf "/home/me/img.png")
       (postAction Fake.World Fake.respond Sample.config Sample.helloFs Sample.cwd
          "thread.md" "Y" [0; 0; 0] Fake.fresh).2 = 1.
Proof.
  edestruct (hello_world_thread Fake.World Fake.respond Sample.config "Y" [0; 0; 0]
               Fake.fresh) as (_ & Hrun & _).
  edestruct Hrun as (Hinit & _ & _ & Hposts & _).
  - discriminate.
  - reflexivity.
  - apply surjective_pairing.
  - split; [exact Hposts|exact Hinit].
Defined.

(** * The profile store *)

(** ** Objects *)

Section ObjFacts.
Context {V : Type}.

Lemma precedes_irrefl (k : string) : Obj.precedes k k = false.
Proof.
  unfold Obj.precedes. destruct (Obj.arrayIndex k); [apply N.ltb_irrefl|reflexivity].
Qed.

Lemma precedes_asym (k k' : string) :
  Obj.precedes k k' = true -> Obj.precedes k' k = false.
Proof.
  unfold Obj.precedes.
  destruct (Obj.arrayIndex k), (Obj.arrayIndex k'); try discriminate; try reflexivity.
  intros H. apply N.ltb_lt in H. apply N.ltb_ge. lia.
Qed.

Lemma precedes_trans (a b c : string) :
  Obj.precedes a b = true -> Obj.precedes b c = true -> Obj.precedes a c = true.
Proof.
  unfold Obj.precedes.
  destruct (Obj.arrayIndex a), (Obj.arrayIndex b), (Obj.arrayIndex c);
    try discriminate; try reflexivity.
  intros H1 H2. apply N.ltb_lt in H1, H2. apply N.ltb_lt. lia.
Qed.

Lemma in_define (k : string) (v : V) (o : Obj.t V) (e : string * V) :
  In e (Obj.define k v o) -> e = (k, v) \/ In e o.
Proof.
  induction o as [|[k' v'] o IH]; simpl.
  - intros [<-|[]]. now left.
  - destruct (String.eqb k k').
    + intros [<-|H]; auto.
    + destruct (Obj.precedes k k').
      * intros [<-|H]; auto.
      * intros [<-|H]; auto. destruct (IH H); auto.
Qed.

Lemma keys_define (k : string) (v : V) (o : Obj.t V) (k' : string) :
  In k' (Obj.keys (Obj.define k v o)) <-> k' = k \/ In k' (Obj.keys o).
Proof.
  induction o as [|[k1 v1] o IH]; simpl.
  - intuition congruence.
  - destruct (String.eqb_spec k k1) as [->|Hne]; simpl; [intuition congruence|].
    destruct (Obj.precedes k k1); simpl; [intuition congruence|].
    rewrite IH. intuition congruence.
Qed.

Lemma define_ordered (k : string) (v : V) (o : Obj.t V) :
  Obj.ordered o -> Obj.ordered (Obj.define k v o).
Proof.
  induction o as [|[k1 v1] o IH]; simpl.
  - intros _. split; [intros k' []|exact I].
  - intros [Hk1 Ho]. destruct (String.eqb_spec k k1) as [->|Hne]; simpl; [auto|].
    destruct (Obj.precedes k k1) eqn:Hp; simpl.
    + split; [|auto]. intros k' [<-|Hin].
      * split; [congruence|]. now apply precedes_asym.
      * destruct (Hk1 _ Hin) as [Hne' Hp']. split.
        -- intros ->. congruence.
        -- destruct (Obj.precedes k' k) eqn:Hp2; [|reflexivity].
           pose proof (precedes_trans _ _ _ Hp2 Hp). congruence.
    + split; [|auto]. intros k' Hin. apply keys_define in Hin as [->|Hin].
      * split; [exact Hne|exact Hp].
      * now apply Hk1.
Qed.

Lemma get_define_eq (k : string) (v : V) (o : Obj.t V) :
  Obj.get k (Obj.define k v o) = Some v.
Proof.
  unfold Obj.get. induction o as [|[k1 v1] o IH]; simpl.
  - now rewrite String.eqb_refl.
  - destruct (String.eqb_spec k k1) as [->|Hne]; simpl.
    + now rewrite String.eqb_refl.
    + destruct (Obj.precedes k k1); simpl.
      * now rewrite String.eqb_refl.
      * apply String.eqb_neq in Hne. now rewrite Hne.
Qed.

Lemma get_define_ne (k k' : string) (v : V) (o : Obj.t V) :
  k <> k' -> Obj.get k' (Obj.define k v o) = Obj.get k' o.
Proof.
  intros Hne. unfold Obj.get.
  assert (Hkk : String.eqb k' k = false) by (apply String.eqb_neq; congruence).
  induction o as [|[k1 v1] o IH]; simpl.
  - now rewrite Hkk.
  - destruct (String.eqb_spec k k1) as [->|Hne1]; simpl.
    + now rewrite Hkk.
    + destruct (Obj.precedes k k1); simpl.
      * now rewrite Hkk.
      * destruct (String.eqb k' k1); [reflexivity|exact IH].
Qed.

(** A key that belongs after all the others is added at the end. *)
Lemma define_last (k : string) (v : V) (o : Obj.t V) :
  Obj.ordered (o ++ [(k, v)]) -> Obj.define k v o = o ++ [(k, v)].
Proof.
  induction o as [|[k1 v1] o IH]; simpl; [reflexivity|].
  intros [Hk1 Ho].
  destruct (Hk1 k) as [Hne Hp].
  { unfold Obj.keys. rewrite map_app, in_app_iff. right. now left. }
  apply String.eqb_neq in Hne. rewrite Hne, Hp. now rewrite IH.
Qed.

Lemma ordered_app_l (o1 o2 : Obj.t V) : Obj.ordered (o1 ++ o2) -> Obj.ordered o1.
Proof.
  induction o1 as [|[k v] o1 IH]; simpl; [auto|].
  intros [Hk Ho]. split; [|auto].
  intros k' Hin. apply Hk. unfold Obj.keys in *. rewrite map_app, in_app_iff. now left.
Qed.

Lemma spread_ordered_app (o acc : Obj.t V) :
  Obj.ordered (acc ++ o) -> Obj.spread o acc = acc ++ o.
Proof.
  revert acc. induction o as [|[k v] o IH]; intros acc H; simpl.
  - now rewrite app_nil_r.
  - assert (Hacc : Obj.ordered (acc ++ [(k, v)])).
    { apply (ordered_app_l _ o). now rewrite <- app_assoc. }
    rewrite define_last by exact Hacc.
    rewrite IH; rewrite <- app_assoc; [reflexivity|exact H].
Qed.

(** Reading back what was written: the properties of an object, parsed
    in their order, give the object. *)
Lemma of_members_ordered_id (o : Obj.t V) : Obj.ordered o -> Obj.of_members o = o.
Proof. intros H. now apply (spread_ordered_app o []). Qed.

Lemma spread_ordered (o acc : Obj.t V) :
  Obj.ordered acc -> Obj.ordered (Obj.spread o acc).
Proof.
  revert acc. induction o as [|[k v] o IH]; intros acc H; simpl; [exact H|].
  apply IH, define_ordered, H.
Qed.

Lemma of_members_ordered (ms : list (string * V)) : Obj.ordered (Obj.of_members ms).
Proof. apply spread_ordered. exact I. Qed.

Lemma ordered_in_key (o : Obj.t V) (k : string) (v : V) :
  In (k, v) o -> In k (Obj.keys o).
Proof. intros H. apply (in_map fst) in H. exact H. Qed.

(** In an object a key has one value. *)
Lemma ordered_functional (o : Obj.t V) (k : string) (v v' : V) :
  Obj.ordered o -> In (k, v) o -> In (k, v') o -> v = v'.
Proof.
  induction o as [|[k1 v1] o IH]; simpl; [intros _ []|].
  intros [Hk Ho] [H1|H1] [H2|H2].
  - congruence.
  - injection H1 as <- <-. apply ordered_in_key, Hk in H2. now destruct H2.
  - injection H2 as <- <-. apply ordered_in_key, Hk in H1. now destruct H1.
  - now apply IH.
Qed.

Lemma get_in (o : Obj.t V) (k : string) (v : V) :
  Obj.get k o = Some v -> In (k, v) o.
Proof.
  unfold Obj.get. destruct (List.find _ o) as [[k' v']|] eqn:Hf; [|discriminate].
  simpl. intros [= <-]. apply List.find_some in Hf as [Hin Heq].
  apply String.eqb_eq in Heq. simpl in Heq. now subst.
Qed.

Lemma in_get (o : Obj.t V) (k : string) (v : V) :
  Obj.ordered o -> In (k, v) o -> Obj.get k o = Some v.
Proof.
  intros Ho Hin. destruct (Obj.get k o) as [v'|] eqn:Hg.
  - apply get_in in Hg. f_equal. eapply ordered_functional; eauto.
  - unfold Obj.get in Hg. destruct (List.find _ o) eqn:Hf; [discriminate|].
    eapply List.find_none in Hf; [|exact Hin]. simpl in Hf.
    now rewrite String.eqb_refl in Hf.
Qed.

End ObjFacts.

(** ** The commands *)

Section StoreFacts.

Lemma configOf_ordered (store : ConfigFile) : Obj.ordered (configOf store).
Proof.
  destruct store as [|m|ms]; simpl; try exact I. apply of_members_ordered.
Qed.

Lemma configOf_tidy (store : ConfigFile) :
  tidy store -> keyed (configOf store) /\ oneActive (configOf store)
                /\ (readConfig store).2 = Holds (configOf store).
Proof.
  destruct store as [|m|ms]; simpl.
  - intros _. split; [intros k p []|]. split; [intros k k' p p' []|reflexivity].
  - intros [].
  - intros (Ho & Hk & Ha). unfold configOf. simpl.
    rewrite of_members_ordered_id by exact Ho. auto.
Qed.

Lemma readConfig_tidy (store : ConfigFile) : tidy store -> tidy (readConfig store).2.
Proof.
  intros H. destruct (configOf_tidy _ H) as (Hk & Ha & ->).
  simpl. split; [apply configOf_ordered|auto].
Qed.

Lemma in_values (o : Config) (p : Profile) :
  In p (Obj.values o) <-> exists k, In (k, p) o.
Proof.
  unfold Obj.values. rewrite in_map_iff. split.
  - intros ([k q] & <- & H). eauto.
  - intros (k & H). exists (k, p). auto.
Qed.

(** With at most one active profile, [getProfile] finds it wherever it is. *)
Lemma getProfile_spec (o : Config) (p : Profile) :
  Obj.ordered o -> oneActive o ->
  (getProfile (Obj.values o) = Some p <-> In p (Obj.values o) /\ active p = true).
Proof.
  intros Ho Ha. unfold getProfile. split.
  - intros H. now apply List.find_some in H.
  - intros [Hin Hact]. destruct (List.find active (Obj.values o)) as [q|] eqn:Hf.
    + apply List.find_some in Hf as [Hq Hqa].
      apply in_values in Hin as [k Hk]. apply in_values in Hq as [k' Hk'].
      assert (k' = k) as -> by (eapply Ha; eauto).
      f_equal. eapply ordered_functional; eauto.
    + eapply List.find_none in Hf; [|exact Hin]. congruence.
Qed.

Lemma authenticate_valid (n : string) (opts : Options) (store : ConfigFile) :
  n <> "" ->
  notGiven (ckey opts) = false -> notGiven (csecret opts) = false ->
  notGiven (tkey opts) = false -> notGiven (tsecret opts) = false ->
  authenticate n opts store
  = ((readConfig store).1.2 ++ ["Profile created."],
     Holds (Obj.define n (newProfile n opts) (configOf store))).
Proof.
  intros Hn H1 H2 H3 H4. unfold authenticate.
  apply String.eqb_neq in Hn. rewrite Hn, H1, H2, H3, H4.
  unfold configOf. destruct (readConfig store) as [[config printed] store'] eqn:Hr.
  simpl. unfold writeConfig, Obj.spread.
  replace (fold_left _ config []) with (Obj.of_members config) by reflexivity.
  rewrite of_members_ordered_id; [reflexivity|].
  replace config with (configOf store) by (unfold configOf; now rewrite Hr).
  apply configOf_ordered.
Qed.

Lemma authenticate_invalid (n : string) (opts : Options) (store : ConfigFile) :
  n = "" \/ notGiven (ckey opts) = true \/ notGiven (csecret opts) = true
  \/ notGiven (tkey opts) = true \/ notGiven (tsecret opts) = true ->
  (authenticate n opts store).2 = store
  /\ length (authenticate n opts store).1 = 1.
Proof.
  intros H. unfold authenticate.
  destruct (String.eqb_spec n "") as [->|Hn]; [auto|].
  destruct (notGiven (ckey opts)); [auto|].
  destruct (notGiven (csecret opts)); [auto|].
  destruct (notGiven (tkey opts)); [auto|].
  destruct (notGiven (tsecret opts)); [auto|].
  intuition congruence.
Qed.

Lemma authenticate_total (n : string) (opts : Options) (store : ConfigFile) :
  (n <> "" /\ notGiven (ckey opts) = false /\ notGiven (csecret opts) = false
   /\ notGiven (tkey opts) = false /\ notGiven (tsecret opts) = false)
  \/ (n = "" \/ notGiven (ckey opts) = true \/ notGiven (csecret opts) = true
      \/ notGiven (tkey opts) = true \/ notGiven (tsecret opts) = true).
Proof.
  destruct (String.eqb_spec n ""); [auto|].
  destruct (notGiven (ckey opts)), (notGiven (csecret opts)),
    (notGiven (tkey opts)), (notGiven (tsecret opts)); auto 10.
Qed.

Lemma define_tidy (n : string) (v : Profile) (o : Config) :
  name v = n -> active v = false ->
  Obj.ordered o -> keyed o -> oneActive o ->
  tidy (Holds (Obj.define n v o)).
Proof.
  intros Hname Hv Ho Hk Ha. simpl. split; [now apply define_ordered|]. split.
  - intros k p Hin. apply in_define in Hin as [[= -> ->]|Hin]; [exact Hname|now apply Hk].
  - intros k k' p p' H1 H2 A1 A2.
    apply in_define in H1 as [[= -> ->]|H1]; [congruence|].
    apply in_define in H2 as [[= -> ->]|H2]; [congruence|].
    eapply Ha; eauto.
Qed.

Lemma authenticate_tidy (n : string) (opts : Options) (store : ConfigFile) :
  tidy store -> tidy (authenticate n opts store).2.
Proof.
  intros H. destruct (authenticate_total n opts store) as [(Hn & H1 & H2 & H3 & H4)|Hbad].
  - rewrite authenticate_valid by assumption.
    destruct (configOf_tidy _ H) as (Hk & Ha & _).
    apply define_tidy; auto using configOf_ordered.
  - now rewrite (proj1 (authenticate_invalid n opts store Hbad)).
Qed.

(** What the loop of [profile:set] has built after some profiles. *)
Lemma switch_fold (n : string) (profiles : list Profile) (acc : Config) :
  let result :=
    fold_left (fun acc profile =>
                 Obj.assign (name profile) (switched n profile) acc) profiles acc in
  (Obj.ordered acc -> Obj.ordered result)
  /\ forall k q, In (k, q) result ->
       In (k, q) acc
       \/ (k <> "__proto__" /\ exists p, In p profiles /\ k = name p /\ q = switched n p).
Proof.
  revert acc. induction profiles as [|p profiles IH]; intros acc; simpl.
  - split; auto.
  - destruct (IH (Obj.assign (name p) (switched n p) acc)) as [IHo IHin].
    split.
    + intros Ho. apply IHo. unfold Obj.assign.
      destruct (String.eqb (name p) "__proto__"); [exact Ho|now apply define_ordered].
    + intros k q Hin. destruct (IHin _ _ Hin) as [Hacc|(Hk & p' & Hp' & H)].
      * unfold Obj.assign in Hacc.
        destruct (String.eqb_spec (name p) "__proto__") as [|Hne]; [now left|].
        apply in_define in Hacc as [[= -> ->]|Hacc]; [|now left].
        right. split; [exact Hne|]. exists p. auto.
      * right. split; [exact Hk|]. exists p'. auto.
Qed.

Lemma profileSet_cases (n : string) (store : ConfigFile) :
  n <> "" ->
  profileSet n store
  = if negb (List.existsb (fun it => String.eqb (name it) n) (Obj.values (configOf store)))
    then ((readConfig store).1.2
            ++ ["The profile does not exist. Please check the name and retry."],
          (readConfig store).2)
    else ((readConfig store).1.2 ++ ["Profile switched to " +:+ n +:+ "."],
          Holds (fold_left (fun acc profile =>
                              Obj.assign (name profile) (switched n profile) acc)
                   (Obj.values (configOf store)) [])).
Proof.
  intros Hn. unfold profileSet, configOf. apply String.eqb_neq in Hn. rewrite Hn.
  destruct (readConfig store) as [[config printed] store']. reflexivity.
Qed.

Lemma profileSet_tidy (n : string) (store : ConfigFile) :
  tidy store -> tidy (profileSet n store).2.
Proof.
  intros H. destruct (String.eqb_spec n "") as [->|Hn]; [exact H|].
  rewrite profileSet_cases by exact Hn.
  destruct (negb _); simpl; [now apply readConfig_tidy|].
  destruct (switch_fold n (Obj.values (configOf store)) []) as [Ho Hin].
  simpl in Ho, Hin. split; [now apply Ho|]. split.
  - intros k q Hq. destruct (Hin _ _ Hq) as [[]|(_ & p & _ & -> & ->)]. reflexivity.
  - intros k k' q q' H1 H2 A1 A2.
    destruct (Hin _ _ H1) as [[]|(_ & p & _ & -> & ->)].
    destruct (Hin _ _ H2) as [[]|(_ & p' & _ & -> & ->)].
    simpl in A1, A2. apply String.eqb_eq in A1, A2. congruence.
Qed.

Lemma profileList_store (store : ConfigFile) :
  profileList store
  = (map (fun it => {| row_name := name it; row_marked := active it |})
       (Obj.values (configOf store)),
     (readConfig store).1.2, (readConfig store).2).
Proof.
  unfold profileList, configOf. now destruct (readConfig store) as [[c p] s].
Qed.

Lemma runCommand_tidy (store : ConfigFile) (c : Command) :
  tidy store -> tidy (runCommand store c).
Proof.
  intros H. destruct c as [n opts|n|]; simpl.
  - now apply authenticate_tidy.
  - now apply profileSet_tidy.
  - rewrite profileList_store. simpl. now apply readConfig_tidy.
Qed.

Lemma runCommands_tidy (cs : list Command) (store : ConfigFile) :
  tidy store -> tidy (runCommands store cs).
Proof.
  revert store. induction cs as [|c cs IH]; intros store H; simpl; [exact H|].
  apply IH, runCommand_tidy, H.
Qed.

Lemma ordered_keys_NoDup (o : Config) : Obj.ordered o -> List.NoDup (Obj.keys o).
Proof.
  induction o as [|[k v] o IH]; simpl; [constructor|].
  intros [Hk Ho]. constructor; [|auto].
  intros Hin. now destruct (Hk _ Hin).
Qed.

Lemma keyed_names (o : Config) : keyed o -> map name (Obj.values o) = Obj.keys o.
Proof.
  induction o as [|[k v] o IH]; intros Hk; simpl; [reflexivity|].
  rewrite (Hk k v) by now left. f_equal. apply IH.
  intros k' p Hin. apply Hk. now right.
Qed.

End StoreFacts.

(** X14: from a fresh installation, or from any file the commands have
    left, every sequence of [authenticate], [profile:set] and
    [profile:list] leaves a file in which every profile is stored under its
    own name and at most one profile is active; the table of [profile:list]
    then has distinct names and at most one marked row, and [getProfile]
    returns a profile exactly when it is the active one of the file. *)
Theorem commands_keep_one_active_profile (store : ConfigFile) (cs : list Command) :
  tidy store ->
  tidy (runCommands store cs)
  /\ List.NoDup (map row_name (profileList (runCommands store cs)).1.1)
  /\ (forall r r',
        In r (profileList (runCommands store cs)).1.1 ->
        In r' (profileList (runCommands store cs)).1.1 ->
        row_marked r = true -> row_marked r' = true -> r = r')
  /\ (forall p,
        activeProfile (runCommands store cs) = Some p
        <-> In p (Obj.values (configOf (runCommands store cs))) /\ active p = true).
Proof.
  intros H. pose proof (runCommands_tidy cs store H) as Ht.
  set (store' := runCommands store cs) in *.
  destruct (configOf_tidy _ Ht) as (Hk & Ha & _).
  pose proof (configOf_ordered store') as Ho.
  split; [exact Ht|]. rewrite profileList_store. simpl. split; [|split].
  - rewrite map_map.
    rewrite (map_ext _ name) by reflexivity.
    rewrite (keyed_names _ Hk). now apply ordered_keys_NoDup.
  - intros r r' Hr Hr' Hm Hm'.
    apply in_map_iff in Hr as (p & <- & Hp). apply in_map_iff in Hr' as (p' & <- & Hp').
    simpl in Hm, Hm'. apply in_values in Hp as [k Hin]. apply in_values in Hp' as [k' Hin'].
    assert (k = k') as <- by (eapply Ha; eauto).
    now rewrite (ordered_functional _ _ _ _ Ho Hin Hin').
  - intros p. now apply getProfile_spec.
Qed.

Lemma commands_keep_one_active_profile_witness :
  activeProfile Demo.store
  = Some {| name := "draft"; active := true;
            credential := {| consumer_key := "ck"; consumer_secret := "cs";
                             access_token_key := "tk"; access_token_secret := "ts" |} |}
  /\ map row_name (profileList Demo.store).1.1 = ["7"; "main"; "draft"].
Proof.
  destruct (commands_keep_one_active_profile Missing
              [Authenticate "main" Demo.options; Authenticate "7" Demo.options;
               Authenticate "draft" Demo.options; ProfileSet "draft"] I)
    as (_ & _ & _ & Hactive).
  split; [|reflexivity].
  apply Hactive. split; [right; right; left; reflexivity|reflexivity].
Defined.

Section SwitchFacts.

Lemma keys_map_values (f : Profile -> Profile) (o : Config) :
  Obj.keys (map (fun e => (e.1, f e.2)) o) = Obj.keys o.
Proof. unfold Obj.keys. rewrite map_map. now apply map_ext. Qed.

Lemma ordered_map_values (f : Profile -> Profile) (o : Config) :
  Obj.ordered o -> Obj.ordered (map (fun e => (e.1, f e.2)) o).
Proof.
  induction o as [|[k v] o IH]; simpl; [auto|].
  intros [Hk Ho]. split; [|auto]. intros k' Hin.
  rewrite keys_map_values in Hin. now apply Hk.
Qed.

Lemma ordered_app_keys (o1 o2 o2' : Config) :
  Obj.keys o2 = Obj.keys o2' -> Obj.ordered (o1 ++ o2) -> Obj.ordered (o1 ++ o2').
Proof.
  intros Hkeys. induction o1 as [|[k v] o1 IH]; simpl.
  - revert o2' Hkeys. induction o2 as [|[k v] o2 IH2]; intros [|[k' v'] o2'] Hkeys;
      simpl in *; try discriminate; auto.
    injection Hkeys as -> Hkeys'. intros [Hk Ho]. split; [|now apply IH2].
    intros k1 Hin. apply Hk. unfold Obj.keys in *. now rewrite Hkeys'.
  - intros [Hk Ho]. split; [|auto]. intros k1 Hin. apply Hk.
    unfold Obj.keys in *. rewrite map_app, in_app_iff in *.
    destruct Hin as [Hin|Hin]; [now left|right]. now rewrite Hkeys.
Qed.

(** On a file whose profiles are stored under their names, none of them
    [__proto__], the loop of [profile:set] rebuilds the object key by key,
    in the same order. *)
Lemma switch_fold_map (n : string) (o acc : Config) :
  keyed o -> ~ In "__proto__" (Obj.keys o) ->
  Obj.ordered (acc ++ map (fun e => (e.1, switched n e.2)) o) ->
  fold_left (fun acc profile => Obj.assign (name profile) (switched n profile) acc)
    (Obj.values o) acc
  = acc ++ map (fun e => (e.1, switched n e.2)) o.
Proof.
  revert acc. induction o as [|[k p] o IH]; intros acc Hk Hproto Ho; simpl.
  - now rewrite app_nil_r.
  - assert (Hname : name p = k) by (apply Hk; now left).
    assert (Hne : k <> "__proto__") by (intros ->; apply Hproto; now left).
    unfold Obj.assign at 2. rewrite Hname.
    apply String.eqb_neq in Hne. rewrite Hne.
    simpl in Ho.
    rewrite define_last.
    + rewrite IH.
      * now rewrite <- app_assoc.
      * intros k' q Hin. apply Hk. now right.
      * intros Hin. apply Hproto. now right.
      * now rewrite <- app_assoc.
    + apply (ordered_app_l _ (map (fun e => (e.1, switched n e.2)) o)).
      now rewrite <- app_assoc.
Qed.

Lemma existsb_name (n : string) (profiles : list Profile) :
  List.existsb (fun it => String.eqb (name it) n) profiles = true
  <-> exists p, In p profiles /\ name p = n.
Proof.
  rewrite existsb_exists. split; intros (p & Hin & H); exists p; split; auto.
  - now apply String.eqb_eq.
  - now apply String.eqb_eq.
Qed.

Lemma configOf_readConfig (store : ConfigFile) :
  configOf (readConfig store).2 = configOf store.
Proof. now destruct store. Qed.

Lemma profileSet_unknown (n : string) (store : ConfigFile) :
  n <> "" ->
  (forall p, In p (Obj.values (configOf store)) -> name p <> n) ->
  profileSet n store
  = ((readConfig store).1.2
       ++ ["The profile does not exist. Please check the name and retry."],
     (readConfig store).2).
Proof.
  intros Hn Hall. rewrite profileSet_cases by exact Hn.
  destruct (List.existsb _ _) eqn:He; [|reflexivity].
  apply existsb_name in He as (p & Hin & Hp). now apply Hall in Hin.
Qed.

Lemma profileSet_known (n : string) (store : ConfigFile) (p : Profile) :
  tidy store -> n <> "" ->
  In p (Obj.values (configOf store)) -> name p = n ->
  ~ In "__proto__" (Obj.keys (configOf store)) ->
  profileSet n store
  = ((readConfig store).1.2 ++ ["Profile switched to " +:+ n +:+ "."],
     Holds (map (fun e => (e.1, switched n e.2)) (configOf store))).
Proof.
  intros Ht Hn Hin Hp Hproto. rewrite profileSet_cases by exact Hn.
  assert (He : List.existsb (fun it => String.eqb (name it) n)
                 (Obj.values (configOf store)) = true).
  { apply existsb_name. eauto. }
  rewrite He. simpl. f_equal. f_equal.
  destruct (configOf_tidy _ Ht) as (Hk & _ & _).
  apply (switch_fold_map n (configOf store) []); [exact Hk|exact Hproto|].
  apply ordered_map_values, configOf_ordered.
Qed.

End SwitchFacts.

(** X15: [authenticate] with a name and the four options stores the
    profile under its name, inactive, with the credential given, prints
    [Profile created.] last and leaves every other profile as it was,
    whatever the file held before. *)
Theorem authenticate_stores_inactive_profile
    (n : string) (opts : Options) (store : ConfigFile) :
  n <> "" ->
  notGiven (ckey opts) = false -> notGiven (csecret opts) = false ->
  notGiven (tkey opts) = false -> notGiven (tsecret opts) = false ->
  (authenticate n opts store).1 = (readConfig store).1.2 ++ ["Profile created."]
  /\ Obj.get n (configOf (authenticate n opts store).2)
     = Some {| name := n; active := false;
               credential := {| consumer_key := given (ckey opts);
                                consumer_secret := given (csecret opts);
                                access_token_key := given (tkey opts);
                                access_token_secret := given (tsecret opts) |} |}
  /\ (forall k, k <> n ->
        Obj.get k (configOf (authenticate n opts store).2) = Obj.get k (configOf store))
  /\ length (configOf (authenticate n opts store).2)
     = match Obj.get n (configOf store) with
       | Some _ => length (configOf store)
       | None => S (length (configOf store))
       end.
Proof.
  intros Hn H1 H2 H3 H4. rewrite authenticate_valid by assumption. simpl.
  split; [reflexivity|].
  assert (Hcfg : configOf (Holds (Obj.define n (newProfile n opts) (configOf store)))
                 = Obj.define n (newProfile n opts) (configOf store)).
  { unfold configOf at 1. simpl.
    apply of_members_ordered_id, define_ordered, configOf_ordered. }
  rewrite Hcfg. split; [apply get_define_eq|]. split.
  - intros k Hk. apply get_define_ne. congruence.
  - generalize (configOf_ordered store). generalize (configOf store). intros o Ho.
    induction o as [|[k1 v1] o IH]; [reflexivity|].
    simpl in Ho. destruct Ho as [Hk1 Ho]. specialize (IH Ho).
    unfold Obj.get in *. simpl.
    destruct (String.eqb_spec n k1) as [->|Hne]; simpl; [reflexivity|].
    destruct (Obj.precedes n k1) eqn:Hp; simpl.
    + destruct (List.find _ o) as [[k2 v2]|] eqn:Hf; [|reflexivity].
      apply List.find_some in Hf as [Hin Heq]. simpl in Heq.
      apply String.eqb_eq in Heq. subst k2.
      apply (in_map fst) in Hin. apply Hk1 in Hin as [_ Hin]. simpl in Hin. congruence.
    + rewrite IH. now destruct (List.find _ o).
Qed.

Lemma authenticate_stores_inactive_profile_witness :
  option_map active (Obj.get "main" (configOf (authenticate "main" Demo.options Demo.store).2))
  = Some false
  /\ Obj.get "draft" (configOf (authenticate "main" Demo.options Demo.store).2)
     = Obj.get "draft" (configOf Demo.store).
Proof.
  destruct (authenticate_stores_inactive_profile "main" Demo.options Demo.store)
    as (_ & Hget & Hother & _); try reflexivity; try discriminate.
  split.
  - now rewrite Hget.
  - apply Hother. discriminate.
Defined.

(** X16: [authenticate] with an empty name or without one of the four
    options prints one line and leaves the file as it is: it does not
    create a missing file and does not touch an unreadable one. *)
Theorem authenticate_rejects_without_writing
    (n : string) (opts : Options) (store : ConfigFile) :
  n = "" \/ notGiven (ckey opts) = true \/ notGiven (csecret opts) = true
  \/ notGiven (tkey opts) = true \/ notGiven (tsecret opts) = true ->
  (authenticate n opts store).2 = store
  /\ length (authenticate n opts store).1 = 1
  /\ ~ In "Profile created." (authenticate n opts store).1.
Proof.
  intros H. destruct (authenticate_invalid n opts store H) as [Hs Hl].
  split; [exact Hs|]. split; [exact Hl|].
  unfold authenticate in *.
  destruct (String.eqb_spec n "") as [->|Hn]; [intros [|[]]; discriminate|].
  destruct (notGiven (ckey opts)); [intros [|[]]; discriminate|].
  destruct (notGiven (csecret opts)); [intros [|[]]; discriminate|].
  destruct (notGiven (tkey opts)); [intros [|[]]; discriminate|].
  destruct (notGiven (tsecret opts)); [intros [|[]]; discriminate|].
  intuition congruence.
Qed.

Lemma authenticate_rejects_without_writing_witness :
  authenticate "main" Demo.noSecret Missing
  = (["Please enter your consumer secret with '--csecret'."], Missing).
Proof.
  destruct (authenticate_rejects_without_writing "main" Demo.noSecret Missing)
    as (Hs & _ & _); [right; right; left; reflexivity|].
  reflexivity.
Defined.

(** X17: [profile:set] with a name no profile has prints that the profile
    does not exist and leaves the profiles as they are.  With the name of a
    profile, on a file the commands have left and that holds no profile
    named [__proto__], it rewrites every profile in place, active exactly
    when its name is the one given, and that profile is what [getProfile]
    returns afterwards. *)
Theorem profile_set_switches (n : string) (store : ConfigFile) :
  n <> "" ->
  ((forall p, In p (Obj.values (configOf store)) -> name p <> n) ->
   configOf (profileSet n store).2 = configOf store
   /\ (profileSet n store).1
      = (readConfig store).1.2
          ++ ["The profile does not exist. Please check the name and retry."])
  /\ (forall p,
        tidy store ->
        In p (Obj.values (configOf store)) -> name p = n ->
        ~ In "__proto__" (Obj.keys (configOf store)) ->
        configOf (profileSet n store).2
          = map (fun e => (e.1, switched n e.2)) (configOf store)
        /\ (profileSet n store).1
           = (readConfig store).1.2 ++ ["Profile switched to " +:+ n +:+ "."]
        /\ activeProfile (profileSet n store).2 = Some (switched n p)).
Proof.
  intros Hn. split.
  - intros Hall. rewrite profileSet_unknown by assumption. simpl.
    split; [apply configOf_readConfig|reflexivity].
  - intros p Ht Hin Hp Hproto.
    pose proof (profileSet_tidy n store Ht) as Ht'.
    rewrite (profileSet_known n store p) in * by assumption. simpl in *.
    assert (Hcfg : configOf (Holds (map (fun e => (e.1, switched n e.2)) (configOf store)))
                   = map (fun e => (e.1, switched n e.2)) (configOf store)).
    { unfold configOf at 1. simpl.
      apply of_members_ordered_id, ordered_map_values, configOf_ordered. }
    split; [exact Hcfg|]. split; [reflexivity|].
    unfold activeProfile. fold (configOf (Holds (map (fun e => (e.1, switched n e.2))
                                                    (configOf store)))).
    rewrite Hcfg. destruct Ht' as (Ho & _ & Ha).
    apply getProfile_spec; [exact Ho|exact Ha|]. split.
    + apply in_values in Hin as [k Hk]. apply in_values. exists k.
      apply in_map_iff. exists (k, p). auto.
    + simpl. rewrite Hp. apply String.eqb_refl.
Qed.

Lemma profile_set_switches_witness :
  option_map name (activeProfile (profileSet "main" Demo.store).2) = Some "main"
  /\ configOf (profileSet "other" Demo.store).2 = configOf Demo.store.
Proof.
  destruct (profile_set_switches "main" Demo.store) as [_ Hknown]; [discriminate|].
  destruct (profile_set_switches "other" Demo.store) as [Hunknown _]; [discriminate|].
  split.
  - edestruct (Hknown {| name := "main"; active := false;
                         credential := {| consumer_key := "ck"; consumer_secret := "cs";
                                          access_token_key := "tk";
                                          access_token_secret := "ts" |} |})
      as (_ & _ & Hactive).
    + apply (runCommands_tidy _ Missing I).
    + right. left. reflexivity.
    + reflexivity.
    + intros [H|[H|[H|[]]]]; discriminate.
    + now rewrite Hactive.
  - apply Hunknown. intros p [<-|[<-|[<-|[]]]]; discriminate.
Defined.

(** X18: on a file the commands have left, with no profile named
    [__proto__], [authenticate] with a name (not [__proto__]) and the four
    options followed by [profile:set] with that name makes [getProfile]
    return that profile, active, with the credential just given. *)
Theorem authenticate_then_set_activates
    (n : string) (opts : Options) (store : ConfigFile) :
  tidy store ->
  n <> "" -> n <> "__proto__" ->
  notGiven (ckey opts) = false -> notGiven (csecret opts) = false ->
  notGiven (tkey opts) = false -> notGiven (tsecret opts) = false ->
  ~ In "__proto__" (Obj.keys (configOf store)) ->
  activeProfile (profileSet n (authenticate n opts store).2).2
  = Some {| name := n; active := true;
            credential := {| consumer_key := given (ckey opts);
                             consumer_secret := given (csecret opts);
                             access_token_key := given (tkey opts);
                             access_token_secret := given (tsecret opts) |} |}.
Proof.
  intros Ht Hn Hproto H1 H2 H3 H4 Hnone.
  pose proof (authenticate_tidy n opts store Ht) as Ht1.
  rewrite authenticate_valid in * by assumption. simpl in *.
  set (store1 := Holds (Obj.define n (newProfile n opts) (configOf store))) in *.
  assert (Hcfg : configOf store1 = Obj.define n (newProfile n opts) (configOf store)).
  { unfold configOf at 1. simpl.
    apply of_members_ordered_id, define_ordered, configOf_ordered. }
  assert (Hin : In (newProfile n opts) (Obj.values (configOf store1))).
  { apply in_values. exists n. rewrite Hcfg. apply get_in, get_define_eq. }
  assert (Hnone1 : ~ In "__proto__" (Obj.keys (configOf store1))).
  { rewrite Hcfg. intros H. apply keys_define in H as [H|H]; [congruence|auto]. }
  rewrite (profileSet_known n store1 (newProfile n opts)); try assumption; [|reflexivity].
  simpl. unfold activeProfile.
  fold (configOf (Holds (map (fun e => (e.1, switched n e.2)) (configOf store1)))).
  assert (Hcfg2 : configOf (Holds (map (fun e => (e.1, switched n e.2)) (configOf store1)))
                  = map (fun e => (e.1, switched n e.2)) (configOf store1)).
  { unfold configOf at 1. simpl.
    apply of_members_ordered_id, ordered_map_values, configOf_ordered. }
  rewrite Hcfg2.
  pose proof (profileSet_tidy n store1 Ht1) as Ht2.
  rewrite (profileSet_known n store1 (newProfile n opts)) in Ht2;
    try assumption; [|reflexivity].
  simpl in Ht2. destruct Ht2 as (Ho & _ & Ha).
  apply getProfile_spec; [exact Ho|exact Ha|]. split.
  - apply in_values in Hin as [k Hk]. apply in_values. exists k.
    apply in_map_iff. exists (k, newProfile n opts). split; [|exact Hk].
    simpl. unfold switched. simpl. now rewrite String.eqb_refl.
  - reflexivity.
Qed.

Lemma authenticate_then_set_activates_witness :
  option_map name
    (activeProfile (profileSet "next" (authenticate "next" Demo.options Demo.store).2).2)
  = Some "next".
Proof.
  rewrite (authenticate_then_set_activates "next" Demo.options Demo.store);
    try reflexivity; try discriminate.
  - apply (runCommands_tidy _ Missing I).
  - intros [H|[H|[H|[]]]]; discriminate.
Defined.

Section Reauthenticate.

Lemma getProfile_none (o : Config) :
  getProfile (Obj.values o) = None <-> forall p, In p (Obj.values o) -> active p = false.
Proof.
  unfold getProfile. split.
  - intros H p Hin. eapply List.find_none in H; eauto.
  - intros H. destruct (List.find active (Obj.values o)) as [q|] eqn:Hf; [|reflexivity].
    apply List.find_some in Hf as [Hin Ha]. apply H in Hin. congruence.
Qed.

End Reauthenticate.

(** X19: [authenticate] never activates a profile and it resets the one
    it writes: on a file the commands have left, after [authenticate] with
    a name and the four options the active profile is the one that was
    active before, unless that one has the name given, and then none is. *)
Theorem authenticate_deactivates_its_profile
    (n : string) (opts : Options) (store : ConfigFile) :
  tidy store ->
  n <> "" ->
  notGiven (ckey opts) = false -> notGiven (csecret opts) = false ->
  notGiven (tkey opts) = false -> notGiven (tsecret opts) = false ->
  activeProfile (authenticate n opts store).2
  = match activeProfile store with
    | Some p => if String.eqb (name p) n then None else Some p
    | None => None
    end.
Proof.
  intros Ht Hn H1 H2 H3 H4.
  pose proof (authenticate_tidy n opts store Ht) as Ht1.
  rewrite authenticate_valid in * by assumption. simpl in *.
  set (v := newProfile n opts) in *.
  destruct (configOf_tidy _ Ht) as (Hk & Ha & _).
  pose proof (configOf_ordered store) as Ho.
  destruct Ht1 as (Ho1 & Hk1 & Ha1).
  unfold activeProfile at 1.
  fold (configOf (Holds (Obj.define n v (configOf store)))).
  assert (Hcfg : configOf (Holds (Obj.define n v (configOf store)))
                 = Obj.define n v (configOf store)).
  { unfold configOf at 1. simpl. now apply of_members_ordered_id. }
  rewrite Hcfg. unfold activeProfile. fold (configOf store).
  assert (Hold : forall k q, In (k, q) (Obj.define n v (configOf store)) ->
                 active q = true -> k <> n /\ In (k, q) (configOf store)).
  { intros k q Hin Hq. pose proof Hin as Hin'.
    apply in_define in Hin as [[= -> ->]|Hin]; [discriminate|].
    split; [|exact Hin]. intros ->.
    assert (q = v) as ->; [|discriminate].
    eapply ordered_functional; [exact Ho1|exact Hin'|].
    apply get_in, get_define_eq. }
  assert (Hkeep : forall k q, In (k, q) (configOf store) -> k <> n ->
                  In (k, q) (Obj.define n v (configOf store))).
  { intros k q Hin Hne. apply get_in. rewrite get_define_ne by congruence.
    now apply in_get. }
  destruct (getProfile (Obj.values (configOf store))) as [p|] eqn:Hp.
  - apply getProfile_spec in Hp as [Hin Hact]; [|exact Ho|exact Ha].
    apply in_values in Hin as [k Hin]. pose proof (Hk _ _ Hin) as Hname.
    destruct (String.eqb_spec (name p) n) as [Heq|Hne].
    + apply getProfile_none. intros q Hq.
      destruct (active q) eqn:Hqa; [|reflexivity].
      apply in_values in Hq as [k' Hq]. destruct (Hold _ _ Hq Hqa) as [Hne Hq'].
      assert (k' = k) by (eapply Ha; eauto). congruence.
    + apply getProfile_spec; [exact Ho1|exact Ha1|]. split; [|exact Hact].
      apply in_values. exists k. apply Hkeep; [exact Hin|congruence].
  - apply getProfile_none. intros q Hq.
    destruct (active q) eqn:Hqa; [|reflexivity].
    apply in_values in Hq as [k' Hq]. destruct (Hold _ _ Hq Hqa) as [_ Hq'].
    assert (Hnone := proj1 (getProfile_none _) Hp q).
    rewrite Hnone in Hqa; [discriminate|]. apply in_values. eauto.
Qed.

Lemma authenticate_deactivates_its_profile_witness :
  activeProfile (authenticate "draft" Demo.options Demo.store).2 = None
  /\ option_map name (activeProfile (authenticate "main" Demo.options Demo.store).2)
     = Some "draft".
Proof.
  split.
  - rewrite (authenticate_deactivates_its_profile "draft" Demo.options Demo.store);
      try reflexivity; try discriminate.
    apply (runCommands_tidy _ Missing I).
  - rewrite (authenticate_deactivates_its_profile "main" Demo.options Demo.store);
      try reflexivity; try discriminate.
    apply (runCommands_tidy _ Missing I).
Defined.

(** X20: the loop of [profile:set] assigns each profile to the key of its
    name, and an assignment to the key [__proto__] creates no property:
    after [profile:set] has switched, the file holds no profile under
    [__proto__]; switching to a profile of that name prints that the
    profile was switched and leaves no active profile. *)
Theorem profile_set_drops_proto (n : string) (store : ConfigFile) (p : Profile) :
  n <> "" ->
  In p (Obj.values (configOf store)) -> name p = n ->
  (profileSet n store).1
    = (readConfig store).1.2 ++ ["Profile switched to " +:+ n +:+ "."]
  /\ Obj.get "__proto__" (configOf (profileSet n store).2) = None
  /\ (n = "__proto__" -> activeProfile (profileSet n store).2 = None).
Proof.
  intros Hn Hin Hp. rewrite profileSet_cases by exact Hn.
  assert (He : List.existsb (fun it => String.eqb (name it) n)
                 (Obj.values (configOf store)) = true).
  { apply existsb_name. eauto. }
  rewrite He. simpl. split; [reflexivity|].
  destruct (switch_fold n (Obj.values (configOf store)) []) as [Ho Hall].
  simpl in Ho, Hall. specialize (Ho I).
  set (result := fold_left
                   (fun acc profile =>
                      Obj.assign (name profile) (switched n profile) acc)
                   (Obj.values (configOf store)) []) in *.
  assert (Hcfg : configOf (Holds result) = result).
  { unfold configOf. simpl. now apply of_members_ordered_id. }
  rewrite Hcfg. split.
  - destruct (Obj.get "__proto__" result) as [q|] eqn:Hg; [|reflexivity].
    apply get_in, Hall in Hg as [[]|(Hne & _)]. congruence.
  - intros ->. unfold activeProfile. fold (configOf (Holds result)). rewrite Hcfg.
    apply getProfile_none. intros q Hq.
    apply in_values in Hq as [k Hq].
    destruct (Hall _ _ Hq) as [[]|(Hne & p' & _ & -> & ->)].
    change (String.eqb "__proto__" (name p') = false).
    apply String.eqb_neq. congruence.
Qed.

Lemma profile_set_drops_proto_witness :
  (profileSet "__proto__" Demo.protoStore).1 = ["Profile switched to __proto__."]
  /\ activeProfile (profileSet "__proto__" Demo.protoStore).2 = None
  /\ Obj.keys (configOf (profileSet "main" Demo.protoStore).2) = ["main"].
Proof.
  destruct (profile_set_drops_proto "__proto__" Demo.protoStore
              (newProfile "__proto__" Demo.options))
    as (Hprinted & _ & Hnone); [discriminate|right; left; reflexivity|reflexivity|].
  split; [exact Hprinted|]. split; [now apply Hnone|reflexivity].
Defined.

(** * The parser, again *)

Section SplitFacts.

Lemma append_nil_r (s : string) : s +:+ "" = s.
Proof.
  induction s as [|c s IH]; [reflexivity|].
  change (String c (s +:+ "") = String c s). now rewrite IH.
Qed.

Lemma append_cons (c : ascii) (a b : string) : String c a +:+ b = String c (a +:+ b).
Proof. reflexivity. Qed.

Lemma append_assoc (a b c : string) : (a +:+ b) +:+ c = a +:+ (b +:+ c).
Proof.
  induction a as [|x a IH]; [reflexivity|].
  change (String x ((a +:+ b) +:+ c) = String x (a +:+ (b +:+ c))). now rewrite IH.
Qed.

Lemma split_head_prefix (s p : string) (ps : list string) :
  Js.split_dashes s = p :: ps -> exists r, s = p +:+ r.
Proof.
  intros H. pose proof (join_split_dashes s) as Hj. rewrite H in Hj.
  destruct ps as [|q ps].
  - exists "". simpl in Hj. now rewrite append_nil_r.
  - rewrite join_cons in Hj. eauto.
Qed.

Lemma delimiter_app (rest : string) :
  "---" +:+ rest = String "-" (String "-" (String "-" rest)).
Proof. reflexivity. Qed.

(** The first three characters of a text that starts with the delimiter. *)
Lemma split_at_delimiter (rest : string) :
  Js.split_dashes ("---" +:+ rest) = "" :: Js.split_dashes rest.
Proof. reflexivity. Qed.

(** One step of the split on a text that does not start with the
    delimiter. *)
Lemma split_step (c : ascii) (s : string) :
  (forall rest, String c s <> "---" +:+ rest) ->
  Js.split_dashes (String c s) = Js.cons_head c (Js.split_dashes s).
Proof.
  intros H. destruct s as [|c2 [|c3 rest]]; try reflexivity.
  cbn [Js.split_dashes].
  destruct (Js.is_dash c && Js.is_dash c2 && Js.is_dash c3) eqn:Hd; [|reflexivity].
  apply andb_true_iff in Hd as [Hd H3]. apply andb_true_iff in Hd as [H1 H2].
  apply is_dash_true in H1, H2, H3. subst. now destruct (H rest).
Qed.

Lemma starts_with_delimiter_dec (s : string) :
  (exists rest, s = "---" +:+ rest) \/ (forall rest, s <> "---" +:+ rest).
Proof.
  destruct s as [|c1 [|c2 [|c3 rest]]];
    try (right; intros r H; rewrite delimiter_app in H; discriminate).
  destruct (Ascii.eqb_spec c1 "-"), (Ascii.eqb_spec c2 "-"), (Ascii.eqb_spec c3 "-");
    subst; try (right; intros r H; rewrite delimiter_app in H; congruence).
  left. now exists rest.
Qed.

Lemma split_pieces_clean (s p : string) :
  In p (Js.split_dashes s) -> ~ hasDelimiter p.
Proof.
  revert p. induction s as [s IH] using string_length_ind. intros p Hin.
  destruct s as [|c s].
  - destruct Hin as [<-|[]]. intros (a & b & H). destruct a; discriminate.
  - destruct (starts_with_delimiter_dec (String c s)) as [[rest Hs]|Hno].
    + rewrite Hs, split_at_delimiter in Hin. destruct Hin as [<-|Hin].
      * intros (a & b & H). destruct a; discriminate.
      * apply (IH rest); [|exact Hin].
        rewrite Hs, delimiter_app. simpl. lia.
    + rewrite split_step in Hin by exact Hno.
      destruct (split_dashes_cons s) as (p0 & ps & Hsplit).
      rewrite Hsplit in Hin. simpl in Hin. destruct Hin as [<-|Hin].
      * intros (a & b & H). destruct a as [|x a].
        -- destruct (split_head_prefix _ _ _ Hsplit) as [r Hr].
           change ("" +:+ "---" +:+ b) with ("---" +:+ b) in H.
           rewrite delimiter_app in H. injection H as -> ->.
           apply (Hno (b +:+ r)). rewrite Hr, delimiter_app.
           change (String "-" (String "-" (String "-" b)) +:+ r)
             with (String "-" (String "-" (String "-" (b +:+ r)))).
           reflexivity.
        -- rewrite append_cons in H. injection H as -> H.
           apply (IH s ltac:(simpl; lia) p0); [rewrite Hsplit; now left|].
           now exists a, b.
      * apply (IH s ltac:(simpl; lia) p). rewrite Hsplit. now right.
Qed.

Lemma split_single (s : string) : ~ hasDelimiter s -> Js.split_dashes s = [s].
Proof.
  induction s as [|c s IH]; intros Hno; [reflexivity|].
  rewrite split_step.
  - rewrite IH; [reflexivity|].
    intros (a & b & ->). apply Hno. now exists (String c a), b.
  - intros rest H. apply Hno. exists "", rest. exact H.
Qed.

End SplitFacts.

(** X1: a document has exactly one block if and only if it does not hold
    the three-dash delimiter, and then [makeBlocks] returns the single block
    [0/0], two line feeds and the trimmed document. *)
Theorem single_block_iff_no_delimiter
    (fs : FileSystem) (filename : string) (file : File) :
  fs filename = Some (RegularFile file) ->
  (length (Js.split_dashes (utf8 file)) = 1 <-> ~ hasDelimiter (utf8 file))
  /\ (~ hasDelimiter (utf8 file) ->
      makeBlocks fs filename = Ok ["0/0" +:+ LF +:+ LF +:+ Js.trim (utf8 file)]).
Proof.
  intros Hfile. split; [split|].
  - intros Hlen Hd.
    destruct (Js.split_dashes (utf8 file)) as [|p [|q ps]] eqn:Hs; try discriminate.
    pose proof (join_split_dashes (utf8 file)) as Hj. rewrite Hs in Hj. simpl in Hj.
    apply (split_pieces_clean (utf8 file) p); [rewrite Hs; now left|]. now rewrite Hj.
  - intros Hno. now rewrite split_single.
  - intros Hno. unfold makeBlocks, readFileSync. rewrite Hfile. simpl.
    now rewrite split_single.
Qed.

Lemma single_block_iff_no_delimiter_witness :
  makeBlocks (Sample.directory "  one block -- only " []) "thread.md"
  = Ok ["0/0" +:+ LF +:+ LF +:+ "one block -- only"].
Proof.
  destruct (single_block_iff_no_delimiter (Sample.directory "  one block -- only " [])
              "thread.md" (Sample.textFile "  one block -- only ") eq_refl)
    as [Hiff Hblocks].
  rewrite Hblocks; [reflexivity|].
  apply Hiff. reflexivity.
Defined.


(** * The [lint] command *)

Section LintFacts.

Lemma lintLoop_short (pre rest : list string) (i total : nat) :
  (forall j t, pre !! j = Some t ->
     String.length (currentBlock (i + j) total t) <= 280) ->
  lintLoop (pre ++ rest) i total
  = concat (Js.mapi_from (fun t j => [blockReport j total t; "---"]) i pre)
    ++ lintLoop rest (i + length pre) total.
Proof.
  revert i. induction pre as [|t pre IH]; intros i Hshort; simpl.
  - now rewrite Nat.add_0_r.
  - pose proof (Hshort 0 t eq_refl) as H0. rewrite Nat.add_0_r in H0.
    destruct (Nat.ltb_spec 280 (String.length (currentBlock i total t))); [lia|].
    rewrite IH.
    + now rewrite Nat.add_succ_r.
    + intros j t' Hj. specialize (Hshort (S j) t' Hj).
      now rewrite Nat.add_succ_r in Hshort.
Qed.

Lemma concat_pairs_length {A} (f : A -> nat -> list string) (i : nat) (l : list A) :
  (forall x j, length (f x j) = 2) ->
  length (concat (Js.mapi_from f i l)) = 2 * length l.
Proof.
  intros Hf. revert i. induction l as [|x l IH]; intros i; simpl; [reflexivity|].
  rewrite length_app, Hf, IH. lia.
Qed.

End LintFacts.

(** X21: the [lint] command reports the blocks in order, two lines each,
    up to the first block that is longer than 280 characters with its
    label and a space in front; for that block it prints the report and the
    first 280 characters, and it says nothing of the blocks after it.  It
    ends with [Completed] in both cases. *)
Theorem lint_command_stops_at_first_long_block
    (fs : FileSystem) (filename : string) (file : File) :
  fs filename = Some (RegularFile file) ->
  ((forall i t, Js.split_dashes (utf8 file) !! i = Some t ->
      String.length (currentBlock i (length (Js.split_dashes (utf8 file)) - 1) t) <= 280) ->
   lintCommand fs filename
   = Ok (concat (Js.mapi (fun t i =>
                            [blockReport i (length (Js.split_dashes (utf8 file)) - 1) t;
                             "---"])
                   (Js.split_dashes (utf8 file)))
         ++ ["Completed"]))
  /\ (forall pre long post,
        Js.split_dashes (utf8 file) = pre ++ long :: post ->
        (forall i t, pre !! i = Some t ->
           String.length (currentBlock i (length (pre ++ long :: post) - 1) t) <= 280) ->
        280 < String.length
                (currentBlock (length pre) (length (pre ++ long :: post) - 1) long) ->
        exists printed,
          lintCommand fs filename = Ok printed
          /\ printed
             = concat (Js.mapi (fun t i =>
                                  [blockReport i (length (pre ++ long :: post) - 1) t;
                                   "---"])
                         pre)
               ++ [blockReport (length pre) (length (pre ++ long :: post) - 1) long;
                   stopReport (length pre) (length (pre ++ long :: post) - 1) long;
                   "Completed"]
          /\ length printed = 2 * length pre + 3).
Proof.
  intros Hfile. unfold lintCommand, existsSync, readFileSync. rewrite Hfile.
  cbn [negb bind]. split.
  - intros Hshort.
    rewrite <- (app_nil_r (Js.split_dashes (utf8 file))) at 1.
    rewrite lintLoop_short by exact Hshort. simpl. now rewrite app_nil_r.
  - intros pre long post Hsplit Hshort Hlong. rewrite Hsplit.
    rewrite lintLoop_short by exact Hshort. simpl.
    apply Nat.ltb_lt in Hlong. rewrite Hlong. unfold Js.mapi.
    rewrite <- app_assoc. eexists. split; [reflexivity|]. split; [reflexivity|].
    rewrite length_app, concat_pairs_length by reflexivity. simpl. lia.
Qed.

Lemma lint_command_stops_at_first_long_block_witness :
  exists printed,
    lintCommand
      (Sample.directory ("ok---" +:+ Sample.letters 300 +:+ "---more---text") [])
      "thread.md" = Ok printed
    /\ length printed = 5.
Proof.
  destruct (lint_command_stops_at_first_long_block
              (Sample.directory ("ok---" +:+ Sample.letters 300 +:+ "---more---text") [])
              "thread.md"
              (Sample.textFile ("ok---" +:+ Sample.letters 300 +:+ "---more---text"))
              eq_refl) as [_ Hlong].
  destruct (Hlong ["ok"] (Sample.letters 300) ["more"; "text"])
    as (printed & Hrun & _ & Hlen).
  - vm_compute. reflexivity.
  - intros [|i] t Ht; [|destruct i; discriminate]. injection Ht as <-.
    vm_compute. lia.
  - apply Nat.ltb_lt. vm_compute. reflexivity.
  - exists printed. split; [exact Hrun|exact Hlen].
Defined.

(** * The extractor, again *)

Section ExtractFacts.

Lemma string_length_app (a b : string) :
  String.length (a +:+ b) = String.length a + String.length b.
Proof.
  induction a as [|c a IH]; [reflexivity|].
  change (S (String.length (a +:+ b)) = S (String.length a + String.length b)).
  now rewrite IH.
Qed.

Lemma remove_all_from_length (items : list Regex.item) (s : string) (skip : nat) :
  String.length (Regex.remove_all_from items s skip) <= String.length s.
Proof.
  revert skip. induction s as [|c s IH]; intros skip; simpl; [lia|].
  destruct skip as [|k].
  - destruct (Regex.match_here items (String c s)) as [segs|].
    + destruct (String.length (Regex.text segs)) as [|k].
      * simpl. specialize (IH 0). lia.
      * specialize (IH k). lia.
    + simpl. specialize (IH 0). lia.
  - specialize (IH k). lia.
Qed.

Lemma trim_length (s : string) : String.length (Js.trim s) <= String.length s.
Proof.
  destruct (trim_spec s) as (pre & suf & Hs & _).
  rewrite Hs at 2. rewrite !string_length_app. lia.
Qed.

Lemma extractBlock_ok (cwd filename block : string) (c : Content) :
  extractBlock cwd filename block = Ok c ->
  text c = Regex.remove_all imagesRegex block
  /\ mapM (imagePath cwd filename) (Regex.match_all imagesRegex block) = Ok (images c).
Proof.
  unfold extractBlock.
  destruct (mapM _ (Regex.match_all imagesRegex block)) as [paths|e]; simpl;
    [|discriminate].
  intros [= <-]. auto.
Qed.

Lemma normalize_absolute (p : string) :
  Path.isAbsolute p = true -> Path.isAbsolute (Path.normalize p) = true.
Proof.
  intros H. destruct p as [|c p]; [discriminate|].
  unfold Path.normalize. rewrite H.
  destruct (Path.normalizeString (String c p) (negb true)); [reflexivity|].
  now destruct (Path.endsWithSlash (String c p)).
Qed.

Lemma join_absolute (a b : string) :
  Path.isAbsolute a = true -> Path.isAbsolute (Path.join a b) = true.
Proof.
  intros H. destruct a as [|c a]; [discriminate|].
  unfold Path.join. destruct b; now apply normalize_absolute.
Qed.

Lemma imagePath_absolute (cwd filename img p : string) :
  imagePath cwd filename img = Ok p -> Path.isAbsolute p = true.
Proof.
  unfold imagePath.
  destruct (Regex.match_first imagePathRegex img) as [segs|]; [|discriminate].
  intros H.
  replace p with (Path.join (Path.resolve cwd (Path.dirname filename)) (group1 segs))
    by congruence.
  apply join_absolute. reflexivity.
Qed.

Lemma mapM_ok_in {A B} (f : A -> Result B) (l : list A) (ys : list B) (y : B) :
  mapM f l = Ok ys -> In y ys -> exists x, In x l /\ f x = Ok y.
Proof.
  intros H Hin. apply in_lookup in Hin as [i Hi].
  destruct (mapM_ok_lookup f l ys H) as [Hlen Hl].
  destruct (lookup_lt_is_Some_2 l i) as [x Hx].
  { rewrite <- Hlen. eapply lookup_lt_Some, Hi. }
  destruct (Hl _ _ Hx) as (y' & Hy' & Hf).
  exists x. split; [eapply lookup_in, Hx|congruence].
Qed.

End ExtractFacts.

(** X3: [extractImage] never throws: an image reference found by the
    first pattern is always matched by the second.  It returns one Content
    per block, in order; the text of a Content is its block without the
    image references, never longer than the block; it has one image per
    reference, and every image path is absolute. *)
Theorem extractImage_one_content_per_block
    (cwd : string) (blocks : list string) (filename : string) :
  exists contents,
    extractImage cwd blocks filename = Ok contents
    /\ length contents = length blocks
    /\ forall i block,
        blocks !! i = Some block ->
        exists content,
          contents !! i = Some content
          /\ text content = Regex.remove_all imagesRegex block
          /\ String.length (text content) <= String.length block
          /\ length (images content) = length (Regex.match_all imagesRegex block)
          /\ forall p, In p (images content) -> Path.isAbsolute p = true.
Proof.
  destruct (extractImage_total cwd blocks filename) as [contents Hc].
  exists contents. split; [exact Hc|].
  destruct (mapM_ok_lookup _ _ _ Hc) as [Hlen Hall]. split; [exact Hlen|].
  intros i block Hi. destruct (Hall _ _ Hi) as (c & Hci & Hblock).
  exists c. split; [exact Hci|].
  apply extractBlock_ok in Hblock as [Htext Himages].
  split; [exact Htext|]. split.
  - rewrite Htext. apply remove_all_from_length.
  - split.
    + now destruct (mapM_ok_lookup _ _ _ Himages).
    + intros p Hp. destruct (mapM_ok_in _ _ _ _ Himages Hp) as (img & _ & Himg).
      eapply imagePath_absolute, Himg.
Qed.

(** X22: the [lint] command measures a block with its label and one space
    in front, untrimmed and with its image references; [post] measures it
    with its label and two line feeds in front, trimmed and without them.
    So a document whose blocks the [lint] command reports with at most 279
    characters passes the length check of [post]. *)
Theorem lint_command_margin
    (fs : FileSystem) (cwd filename : string) (file : File) :
  fs filename = Some (RegularFile file) ->
  (forall i t, Js.split_dashes (utf8 file) !! i = Some t ->
     String.length (currentBlock i (length (Js.split_dashes (utf8 file)) - 1) t) <= 279) ->
  exists blocks contents,
    makeBlocks fs filename = Ok blocks
    /\ extractImage cwd blocks filename = Ok contents
    /\ lint (map text contents) = Ok tt.
Proof.
  intros Hfile Hshort.
  assert (Hb : makeBlocks fs filename
               = Ok (Js.mapi (fun text i => makeBlock text i (Js.split_dashes (utf8 file)))
                       (Js.split_dashes (utf8 file)))).
  { unfold makeBlocks, readFileSync. now rewrite Hfile. }
  eexists. destruct (extractImage_total cwd
                       (Js.mapi (fun text i => makeBlock text i (Js.split_dashes (utf8 file)))
                          (Js.split_dashes (utf8 file))) filename) as [contents Hc].
  exists contents. split; [exact Hb|]. split; [exact Hc|].
  apply forEach_ok. intros b Hin. apply in_map_iff in Hin as (c & <- & Hin).
  apply in_lookup in Hin as [i Hi].
  destruct (mapM_ok_lookup _ _ _ Hc) as [Hlen Hall].
  destruct (lookup_lt_is_Some_2
              (Js.mapi (fun text i => makeBlock text i (Js.split_dashes (utf8 file)))
                 (Js.split_dashes (utf8 file))) i) as [block Hblock].
  { rewrite <- Hlen. eapply lookup_lt_Some, Hi. }
  destruct (Hall _ _ Hblock) as (c' & Hc' & Hex).
  assert (c' = c) as -> by congruence.
  apply extractBlock_ok in Hex as [Htext _].
  unfold Js.mapi in Hblock. rewrite mapi_from_lookup in Hblock.
  destruct (Js.split_dashes (utf8 file) !! i) as [t|] eqn:Ht; [|discriminate].
  simpl in Hblock. injection Hblock as <-.
  specialize (Hshort i t Ht). unfold currentBlock in Hshort.
  rewrite !string_length_app in Hshort. simpl in Hshort.
  unfold lint_block.
  assert (Hlen' : String.length (text c) <= 280).
  { rewrite Htext. etransitivity; [apply remove_all_from_length|].
    unfold makeBlock. rewrite !string_length_app. simpl.
    pose proof (trim_length t). lia. }
  destruct (Nat.ltb_spec 280 (String.length (text c))); [lia|reflexivity].
Qed.

Lemma lint_command_margin_witness :
  exists blocks contents,
    makeBlocks Sample.helloFs "thread.md" = Ok blocks
    /\ extractImage Sample.cwd blocks "thread.md" = Ok contents
    /\ lint (map text contents) = Ok tt.
Proof.
  apply (lint_command_margin Sample.helloFs Sample.cwd "thread.md"
           (Sample.textFile Sample.helloWorld) eq_refl).
  intros [|[|i]] t Ht; try discriminate; injection Ht as <-; vm_compute; lia.
Defined.

(** * The validators, again *)

Section PrepareFacts.

Lemma lint_block_ok (block : string) :
  lint_block block = Ok tt <-> String.length block <= 280.
Proof.
  unfold lint_block.
  destruct (Nat.ltb_spec 280 (String.length block)); split; intros; (congruence || lia).
Qed.

Lemma lint_ok (contents : list Content) :
  lint (map text contents) = Ok tt
  <-> forall c, In c contents -> String.length (text c) <= 280.
Proof.
  unfold lint. rewrite forEach_ok. split.
  - intros H c Hc. apply lint_block_ok, H, in_map, Hc.
  - intros H b Hb. apply in_map_iff in Hb as (c & <- & Hc). apply lint_block_ok, H, Hc.
Qed.

Lemma checkFileExists_ok (fs : FileSystem) (p : string) :
  checkFileExists fs p = Ok tt <-> exists entry, fs p = Some entry.
Proof.
  unfold checkFileExists, existsSync. destruct (fs p) as [f|]; split; intros H.
  - eauto.
  - reflexivity.
  - discriminate.
  - destruct H as [f H]. discriminate.
Qed.

Lemma checkFileExists_throw (fs : FileSystem) (p : string) (e : Err) :
  checkFileExists fs p = Throw e -> e = FileNotFound p /\ fs p = None.
Proof.
  unfold checkFileExists, existsSync. destruct (fs p); [discriminate|].
  intros [= <-]. auto.
Qed.

Lemma prepare_unfold (fs : FileSystem) (cwd filename : string)
    (blocks : list string) (contents : list Content) :
  makeBlocks fs filename = Ok blocks ->
  extractImage cwd blocks filename = Ok contents ->
  prepare fs cwd filename
  = (lint (map text contents) ;;
     forEach (checkFileExists fs) (uniqueImagePaths contents) ;;
     checkImageNumberPerPost contents ;;
     imagesData <- mapM (getImagesData fs) (uniqueImagePaths contents) ;;
     forEach checkImageSize imagesData ;;
     Ok (contents, imagesData))%result.
Proof.
  intros Hb Hc. unfold prepare.
  rewrite (makeBlocks_exists _ _ _ Hb), Hb. simpl. now rewrite Hc.
Qed.

End PrepareFacts.

(** X4: on an existing document, the checks in front of the prompt pass
    if and only if every text is within 280 characters, every Content has
    at most one image when one of them is a gif and at most four otherwise,
    and every referenced image exists and has at most 5,242,880 bytes. *)
Theorem prepare_succeeds_iff
    (fs : FileSystem) (cwd filename : string)
    (blocks : list string) (contents : list Content) :
  makeBlocks fs filename = Ok blocks ->
  extractImage cwd blocks filename = Ok contents ->
  ((exists imagesData, prepare fs cwd filename = Ok (contents, imagesData))
   <-> (forall c, In c contents ->
          String.length (text c) <= 280
          /\ length (images c) <= (if has_gif c then 1 else 4))
       /\ (forall c p, In c contents -> In p (images c) ->
             exists f, fs p = Some (RegularFile f) /\ (byte_length f <= 5242880)%Z)).
Proof.
  intros Hb Hc. split.
  - intros [data Hprep]. apply prepare_ok in Hprep as [_ Hl _ Hn Hd Hs]. split.
    + intros c Hin. split; [now apply (proj1 (lint_ok contents) Hl)|].
      apply checkContent_ok. eapply forEach_ok in Hn; eauto.
    + intros c p Hin Hp.
      destruct (imagesData_files _ _ _ Hd) as [Hfiles Hall].
      destruct (Hall p) as (img & Himg & Hpath).
      { apply in_uniqueImagePaths. eauto. }
      destruct (Hfiles _ Himg) as (_ & f & Hf & Hbytes).
      exists f. rewrite <- Hpath. split; [exact Hf|].
      eapply forEach_ok in Hs; [|exact Himg]. apply checkImageSize_ok in Hs. lia.
  - intros [Hcontents Himages].
    assert (Hexist : forEach (checkFileExists fs) (uniqueImagePaths contents) = Ok tt).
    { apply forEach_ok. intros p Hp. apply in_uniqueImagePaths in Hp as (c & Hin & Hp).
      destruct (Himages c p Hin Hp) as (f & Hf & _). apply checkFileExists_ok. eauto. }
    assert (Hregular : forall p, In p (uniqueImagePaths contents) ->
                         exists f, fs p = Some (RegularFile f)).
    { intros p Hp. apply in_uniqueImagePaths in Hp as (c & Hin & Hp).
      destruct (Himages c p Hin Hp) as (f & Hf & _). eauto. }
    destruct (getImagesData_total _ _ Hregular) as [data Hdata].
    exists data. rewrite (prepare_unfold _ _ _ _ _ Hb Hc).
    assert (lint (map text contents) = Ok tt) as ->.
    { apply lint_ok. intros c Hin. now apply Hcontents. }
    simpl. rewrite Hexist. simpl.
    assert (checkImageNumberPerPost contents = Ok tt) as ->.
    { apply forEach_ok. intros c Hin. apply checkContent_ok. now apply Hcontents. }
    simpl. rewrite Hdata. simpl.
    assert (forEach checkImageSize data = Ok tt) as ->; [|reflexivity].
    apply forEach_ok. intros img Himg. apply checkImageSize_ok.
    destruct (imagesData_files _ _ _ Hdata) as [Hfiles _].
    destruct (Hfiles _ Himg) as (Hp & f & Hf & Hbytes).
    apply in_uniqueImagePaths in Hp as (c & Hin & Hp).
    destruct (Himages c _ Hin Hp) as (f' & Hf' & Hsmall).
    rewrite Hf in Hf'. injection Hf' as <-. lia.
Qed.

Lemma prepare_succeeds_iff_witness :
  exists imagesData,
    prepare Sample.helloFs Sample.cwd "thread.md" = Ok (Sample.helloContents, imagesData).
Proof.
  apply (prepare_succeeds_iff Sample.helloFs Sample.cwd "thread.md"
           ["0/1" +:+ LF +:+ LF +:+ "Hello ![a](./img.png)"; "1/1" +:+ LF +:+ LF +:+ "World"]
           Sample.helloContents eq_refl eq_refl).
  split.
  - intros c [<-|[<-|[]]]; split; vm_compute; lia.
  - intros c p [<-|[<-|[]]] Hp; [destruct Hp as [<-|[]]|destruct Hp].
    eexists. split; [reflexivity|]. simpl. lia.
Defined.

(** X5: the images are looked for before they are counted or measured:
    when the texts are within the limit and a referenced image does not
    exist, the run stops with [FileNotFound] for a missing image, with no
    request sent, also when a Content has too many images. *)
Theorem missing_image_reported_first
    (World : Type) (respond : Request -> World -> Response * World)
    (config : list Profile) (fs : FileSystem) (cwd filename input : string)
    (sched : list nat) (w : World)
    (blocks : list string) (contents : list Content) (c : Content) (p : string) :
  getProfile config <> None ->
  makeBlocks fs filename = Ok blocks ->
  extractImage cwd blocks filename = Ok contents ->
  (forall c, In c contents -> String.length (text c) <= 280) ->
  In c contents -> In p (images c) -> fs p = None ->
  exists q,
    fs q = None
    /\ (exists c', In c' contents /\ In q (images c'))
    /\ postAction World respond config fs cwd filename input sched w
       = (Thrown (FileNotFound q), []).
Proof.
  intros Hprofile Hb Hc Hshort Hin Hp Hmissing.
  destruct (forEach_total (checkFileExists fs) (uniqueImagePaths contents))
    as [Hok|[e He]].
  - eapply forEach_ok in Hok; [|apply in_uniqueImagePaths; eauto].
    apply checkFileExists_ok in Hok as [f Hf]. congruence.
  - pose proof He as Hthrow.
    apply forEach_throw in Hthrow as (pre & q & post & Heq & _ & Hq).
    apply checkFileExists_throw in Hq as [-> Hnone].
    exists q. split; [exact Hnone|]. split.
    + apply in_uniqueImagePaths. rewrite Heq. apply in_app_iff. right. now left.
    + rewrite postAction_profile by exact Hprofile.
      rewrite (prepare_unfold _ _ _ _ _ Hb Hc).
      rewrite (proj2 (lint_ok contents) Hshort). simpl. now rewrite He.
Qed.

Lemma missing_image_reported_first_witness :
  postAction Fake.World Fake.respond Sample.config
    (Sample.directory "![a](a.gif)![b](b.gif)" [("/home/me/a.gif", Sample.imageFile 10)])
    Sample.cwd "thread.md" "y" [] Fake.fresh
  = (Thrown (FileNotFound "/home/me/b.gif"), []).
Proof.
  edestruct (missing_image_reported_first Fake.World Fake.respond Sample.config
               (Sample.directory "![a](a.gif)![b](b.gif)"
                  [("/home/me/a.gif", Sample.imageFile 10)])
               Sample.cwd "thread.md" "y" [] Fake.fresh)
    as (q & _ & _ & Hrun).
  - discriminate.
  - vm_compute. reflexivity.
  - vm_compute. reflexivity.
  - intros c [<-|[]]. vm_compute. lia.
  - left. reflexivity.
  - right. left. reflexivity.
  - reflexivity.
  - rewrite Hrun. vm_compute in Hrun. congruence.
Defined.

Section DedupeMore.

Lemma filteri_from_sublist {A} (p : A -> nat -> bool) (i : nat) (arr : list A) :
  sublist (Js.filteri_from p i arr) arr.
Proof.
  revert i. induction arr as [|x arr IH]; intros i; simpl; [constructor|].
  destruct (p x i); [apply sublist_skip|apply sublist_cons]; apply IH.
Qed.

Lemma filter_all {A} (f : A -> bool) (l : list A) :
  (forall x, f x = true) -> List.filter f l = l.
Proof.
  intros H. induction l as [|x l IH]; [reflexivity|]. simpl. now rewrite H, IH.
Qed.

Lemma filter_twice {A} (f g : A -> bool) (l : list A) :
  List.filter f (List.filter g l) = List.filter (fun x => g x && f x) l.
Proof.
  induction l as [|x l IH]; [reflexivity|]. simpl.
  destruct (g x); simpl; [destruct (f x)|]; now rewrite IH.
Qed.

Lemma unseen_spec (seen : list string) (y : string) :
  unseen seen y = true <-> ~ In y seen.
Proof.
  unfold unseen. rewrite negb_true_iff, <- not_true_iff_false, existsb_exists. split.
  - intros H Hin. apply H. exists y. split; [exact Hin|apply String.eqb_refl].
  - intros H (x & Hin & Heq). apply String.eqb_eq in Heq. now subst.
Qed.

Lemma unseen_snoc (seen : list string) (x y : string) :
  unseen (seen ++ [x]) y = negb (String.eqb y x) && unseen seen y.
Proof.
  unfold unseen. rewrite existsb_app. simpl. rewrite orb_false_r, negb_orb.
  apply andb_comm.
Qed.

(** The filter on [indexOf] keeps the first occurrences. *)
Lemma filteri_keepFirst (arr pre rest : list string) :
  arr = pre ++ rest ->
  Js.filteri_from (fun x i => firstOccurrence x i arr) (length pre) rest
  = List.filter (unseen pre) (keepFirst rest).
Proof.
  revert pre. induction rest as [|x rest IH]; intros pre Harr; [reflexivity|].
  assert (Harr' : arr = (pre ++ [x]) ++ rest) by now rewrite <- app_assoc.
  specialize (IH _ Harr'). rewrite length_app, Nat.add_1_r in IH.
  cbn [Js.filteri_from keepFirst List.filter]. rewrite IH, filter_twice.
  rewrite (List.filter_ext _ _ (unseen_snoc pre x)).
  assert (Hfirst : firstOccurrence x (length pre) arr = unseen pre x).
  { rewrite Harr. apply eq_true_iff_eq. now rewrite firstOccurrence_spec, unseen_spec. }
  now rewrite Hfirst.
Qed.

Lemma uniqueImagePaths_keepFirst (contents : list Content) :
  uniqueImagePaths contents = keepFirst (concat (map images contents)).
Proof.
  unfold uniqueImagePaths, Js.filteri.
  pose proof (filteri_keepFirst (allImages contents) [] (allImages contents) eq_refl)
    as H.
  cbn [length] in H. rewrite H, filter_all by reflexivity.
  unfold allImages. now rewrite allImages_fold.
Qed.

Lemma filter_split {A} (f : A -> bool) (l u v : list A) (y : A) :
  List.filter f l = u ++ y :: v ->
  exists u' v', l = u' ++ y :: v' /\ List.filter f u' = u /\ List.filter f v' = v.
Proof.
  revert u. induction l as [|z l IH]; intros u; simpl.
  - destruct u; discriminate.
  - destruct (f z) eqn:Hz.
    + destruct u as [|z' u]; simpl.
      * intros [= -> <-]. exists [], l. auto.
      * intros [= <- H]. destruct (IH _ H) as (u' & v' & -> & <- & <-).
        exists (z :: u'), v'. simpl. now rewrite Hz.
    + intros H. destruct (IH _ H) as (u' & v' & -> & <- & <-).
      exists (z :: u'), v'. simpl. now rewrite Hz.
Qed.

(** In the first occurrences, [p] stands before [q] only if [p] occurs in
    the list before any [q] does. *)
Lemma keepFirst_order (l r1 r2 r3 : list string) (p q : string) :
  keepFirst l = r1 ++ p :: r2 ++ q :: r3 ->
  exists a b, l = a ++ p :: b /\ ~ In p a /\ ~ In q a.
Proof.
  revert r1 r2 r3. induction l as [|x l IH]; intros r1 r2 r3; simpl.
  - destruct r1; discriminate.
  - destruct r1 as [|y r1]; simpl.
    + intros [= -> _]. exists [], l. auto.
    + intros [= <- H].
      assert (Hmem : forall z, In z (r1 ++ p :: r2 ++ q :: r3) ->
                       negb (String.eqb z x) = true).
      { intros z Hz. rewrite <- H in Hz. apply filter_In in Hz. apply Hz. }
      assert (Hp : negb (String.eqb p x) = true).
      { apply Hmem, in_app_iff. right. now left. }
      assert (Hq : negb (String.eqb q x) = true).
      { apply Hmem, in_app_iff. right. right. apply in_app_iff. right. now left. }
      clear Hmem.
      apply negb_true_iff, String.eqb_neq in Hp, Hq.
      apply filter_split in H as (u' & v' & Hl & _ & Hv).
      apply filter_split in Hv as (u'' & v'' & -> & _ & _).
      destruct (IH _ _ _ Hl) as (a & b & -> & Hpa & Hqa).
      exists (x :: a), b. split; [reflexivity|].
      split; intros [Heq|Hin]; auto.
Qed.

End DedupeMore.

(** X6: when the checks pass there is one Content per block of the
    document, so at least one, and one image to upload per distinct
    referenced path, in the order of first reference: the paths of the
    images are the first occurrences of the references of the document,
    none twice, and a path stands before another only if the document
    references it before it references the other.  Each image carries the
    size, at most 5,242,880 bytes, and the base64 text of its file, and the
    media type [image/] followed by the extension of the path. *)
Theorem prepared_images_mirror_files
    (fs : FileSystem) (cwd filename : string) (file : File)
    (contents : list Content) (imagesData : list ImageData) :
  fs filename = Some (RegularFile file) ->
  prepare fs cwd filename = Ok (contents, imagesData) ->
  length contents = length (Js.split_dashes (utf8 file))
  /\ 1 <= length contents
  /\ map path imagesData = keepFirst (concat (map images contents))
  /\ List.NoDup (map path imagesData)
  /\ (forall p, In p (map path imagesData)
                <-> exists c, In c contents /\ In p (images c))
  /\ (forall r1 p r2 q r3,
        map path imagesData = r1 ++ p :: r2 ++ q :: r3 ->
        exists a b, concat (map images contents) = a ++ p :: b
                    /\ ~ In p a /\ ~ In q a)
  /\ forall img, In img imagesData ->
       exists f, fs (path img) = Some (RegularFile f)
                 /\ total_bytes img = byte_length f
                 /\ (byte_length f <= 5242880)%Z
                 /\ media_data img = base64 f
                 /\ media_type img = "image/" +:+ Js.slice1 (Path.extname (path img)).
Proof.
  intros Hfile Hprep.
  apply prepare_ok in Hprep as [(blocks & Hb & Hc) _ _ _ Hd Hs].
  apply makeBlocks_ok in Hb as (file' & Hfile' & ->).
  rewrite Hfile in Hfile'. injection Hfile' as <-.
  destruct (mapM_ok_lookup _ _ _ Hc) as [Hlen _].
  unfold Js.mapi in Hlen. rewrite mapi_from_length in Hlen.
  split; [exact Hlen|]. split.
  { rewrite Hlen. destruct (split_dashes_cons (utf8 file)) as (p & ps & ->). simpl. lia. }
  pose proof (imagesData_paths _ _ _ Hd) as Hpaths.
  split; [now rewrite Hpaths, uniqueImagePaths_keepFirst|].
  split; [rewrite Hpaths; apply uniqueImagePaths_NoDup|].
  split; [intros p; rewrite Hpaths; apply in_uniqueImagePaths|].
  split.
  { intros r1 p r2 q r3. rewrite Hpaths, uniqueImagePaths_keepFirst.
    apply keepFirst_order. }
  intros img Himg. destruct (mapM_ok_in _ _ _ _ Hd Himg) as (p & _ & Hp).
  pose proof Hp as Hp'. apply getImagesData_ok in Hp' as (Hpath & f & Hf & Hsize & Hdata).
  exists f. rewrite Hpath. split; [exact Hf|]. split; [exact Hsize|]. split.
  { eapply forEach_ok in Hs; [|exact Himg]. apply checkImageSize_ok in Hs. lia. }
  split; [exact Hdata|].
  unfold getImagesData, readFileSync in Hp. rewrite Hf in Hp. simpl in Hp.
  injection Hp as <-. reflexivity.
Qed.

Lemma prepared_images_mirror_files_witness :
  map media_type Sample.sharedImages = ["image/png"]
  /\ map path Sample.sharedImages
     = keepFirst (concat (map images Sample.sharedContents)).
Proof.
  assert (Hprep : prepare Sample.sharedFs Sample.cwd "thread.md"
                  = Ok (Sample.sharedContents, Sample.sharedImages))
    by (vm_compute; reflexivity).
  destruct (prepared_images_mirror_files Sample.sharedFs Sample.cwd "thread.md"
              (Sample.textFile Sample.sharedPicture)
              Sample.sharedContents Sample.sharedImages eq_refl Hprep)
    as (_ & _ & Hpaths & _).
  split; [reflexivity|exact Hpaths].
Defined.

(** X7: the filter on [indexOf] keeps the first occurrence of every
    referenced path and nothing else.  Its result is the list of the first
    occurrences of the references, taken Content after Content: it has no
    path twice, holds exactly the paths some Content references, and a path
    stands before another only if the document references it before it
    references the other; it is a sublist of the references. *)
Theorem unique_paths_are_first_occurrences (contents : list Content) :
  uniqueImagePaths contents = keepFirst (concat (map images contents))
  /\ List.NoDup (uniqueImagePaths contents)
  /\ (forall p, In p (uniqueImagePaths contents)
                <-> exists c, In c contents /\ In p (images c))
  /\ (forall r1 p r2 q r3,
        uniqueImagePaths contents = r1 ++ p :: r2 ++ q :: r3 ->
        exists a b, concat (map images contents) = a ++ p :: b
                    /\ ~ In p a /\ ~ In q a)
  /\ sublist (uniqueImagePaths contents) (allImages contents)
  /\ allImages contents = concat (map images contents).
Proof.
  split; [apply uniqueImagePaths_keepFirst|].
  split; [apply uniqueImagePaths_NoDup|]. split; [apply in_uniqueImagePaths|].
  split.
  { intros r1 p r2 q r3. rewrite uniqueImagePaths_keepFirst. apply keepFirst_order. }
  split; [apply filteri_from_sublist|].
  unfold allImages. now rewrite allImages_fold.
Qed.

Section Confirm.

Lemma lower_y (c : ascii) : Js.lower c = "y"%char -> c = "y"%char \/ c = "Y"%char.
Proof.
  destruct c as [[] [] [] [] [] [] [] []]; vm_compute; intros H;
    first [discriminate H | now left | now right].
Qed.

Lemma confirmed_iff (input : string) :
  confirmed input = true <-> input = "y" \/ input = "Y".
Proof.
  unfold confirmed. rewrite String.eqb_eq. split.
  - destruct input as [|c [|c' rest]]; simpl; try discriminate.
    intros [= H]. destruct (lower_y c H) as [->| ->]; auto.
  - intros [->| ->]; reflexivity.
Qed.

End Confirm.

(** X8: the run goes on after the prompt if and only if the answer is
    [y] or [Y]; with any other answer no request is sent, and a run whose
    checks have passed ends there. *)
Theorem only_y_confirms
    (World : Type) (respond : Request -> World -> Response * World)
    (config : list Profile) (fs : FileSystem) (cwd filename input : string)
    (sched : list nat) (w : World) :
  (confirmed input = true <-> input = "y" \/ input = "Y")
  /\ (input <> "y" -> input <> "Y" ->
      (postAction World respond config fs cwd filename input sched w).2 = []
      /\ (getProfile config <> None ->
          (exists prepared, prepare fs cwd filename = Ok prepared) ->
          postAction World respond config fs cwd filename input sched w
          = (Declined, []))).
Proof.
  split; [apply confirmed_iff|].
  intros H1 H2.
  assert (Hc : confirmed input = false).
  { destruct (confirmed input) eqn:Hc; [|reflexivity].
    apply confirmed_iff in Hc. tauto. }
  split.
  - unfold postAction. destruct (getProfile config); [|reflexivity].
    destruct (prepare fs cwd filename) as [[contents data]|e]; [|reflexivity].
    unfold publish. now rewrite Hc.
  - intros Hp [[contents data] Hprep].
    rewrite postAction_profile, Hprep by exact Hp. unfold publish. now rewrite Hc.
Qed.

Lemma only_y_confirms_witness :
  postAction Fake.World Fake.respond Sample.config Sample.helloFs Sample.cwd
    "thread.md" "yes" [0; 0; 0] Fake.fresh = (Declined, []).
Proof.
  destruct (only_y_confirms Fake.World Fake.respond Sample.config Sample.helloFs
              Sample.cwd "thread.md" "yes" [0; 0; 0] Fake.fresh) as [_ Hno].
  destruct Hno as [_ Hdeclined]; try discriminate.
  apply Hdeclined; [discriminate|].
  eexists. vm_compute. reflexivity.
Defined.

(** * The upload stage, again *)

Section TraceFacts.
Context {World : Type} (respond : Request -> World -> Response * World).

Lemma pipelineLog_snoc (p : string) (lg : list Call) (c : Call) :
  pipelineLog p (lg ++ [c])
  = pipelineLog p lg ++ (if fromPipeline p c then [c] else []).
Proof. unfold pipelineLog. rewrite List.filter_app. simpl. now destruct (fromPipeline p c). Qed.

Lemma pipelineLog_none (p : string) (lg : list Call) :
  (forall c, In c lg -> fromPipeline p c = false) -> pipelineLog p lg = [].
Proof.
  induction lg as [|c lg IH]; intros H; [reflexivity|]. unfold pipelineLog in *. simpl.
  rewrite (H c) by now left. apply IH. intros c' Hc'. apply H. now right.
Qed.

Lemma fromPipeline_upload (p q : string) (req : Request) (r : Response) :
  fromPipeline p {| origin := Upload q; request := req; response := r |} = String.eqb p q.
Proof. reflexivity. Qed.

Lemma launch_one_traced (started : list ImageData) (st : UploadState World)
    (img : ImageData) :
  ~ In (path img) (map path started) ->
  upload_traced started st ->
  upload_traced (started ++ [img]) (launch_one World respond st img).
Proof.
  intros Hfresh [Hlen Hpipes Horigins Hup Hrej]. unfold launch_one.
  destruct (respond _ (world st)) as [resp w]. constructor; simpl.
  - now rewrite !length_app, Hlen.
  - intros k img' pipe Hk Hpipe. rewrite pipelineLog_snoc.
    change (fromPipeline (path img') _) with (String.eqb (path img') (path img)).
    apply lookup_app_Some in Hk as [Hk|[Hge Hk]].
    + assert (Hne : String.eqb (path img') (path img) = false).
      { apply String.eqb_neq. intros Heq. apply Hfresh. rewrite <- Heq.
        apply in_map. eapply lookup_in, Hk. }
      rewrite Hne, app_nil_r.
      rewrite lookup_app_l in Hpipe by (rewrite Hlen; eapply lookup_lt_Some, Hk).
      now apply Hpipes with k.
    + apply list_lookup_singleton_Some in Hk as [Hk <-].
      rewrite lookup_app_r in Hpipe by lia.
      assert (k - length (pipes st) = 0) as Hz by lia. rewrite Hz in Hpipe.
      injection Hpipe as <-. rewrite String.eqb_refl. simpl.
      rewrite pipelineLog_none; [reflexivity|].
      intros c Hc. destruct (Horigins c Hc) as (img0 & Hin & Ho).
      unfold fromPipeline. rewrite Ho. apply String.eqb_neq.
      intros Heq. apply Hfresh. rewrite Heq. now apply in_map.
  - intros call Hin. apply in_app_iff in Hin as [Hin|[<-|[]]].
    + destruct (Horigins _ Hin) as (img0 & Hin0 & Ho).
      exists img0. split; [apply in_app_iff; now left|exact Ho].
    + exists img. split; [apply in_app_iff; right; now left|reflexivity].
  - intros k u Hk. apply lookup_app_Some in Hk as [Hk|[_ Hk]].
    + destruct (Hup _ _ Hk) as (img0 & Hk0 & Hu). exists img0.
      split; [now apply lookup_app_l_Some|exact Hu].
    + apply list_lookup_singleton_Some in Hk as [_ Hk]. discriminate.
  - exact Hrej.
Qed.

Lemma fold_launch_traced (todo started : list ImageData) (st : UploadState World) :
  List.NoDup (map path (started ++ todo)) ->
  upload_traced started st ->
  upload_traced (started ++ todo) (fold_left (launch_one World respond) todo st).
Proof.
  revert started st. induction todo as [|img todo IH]; intros started st Hnd H; simpl.
  - now rewrite app_nil_r.
  - replace (started ++ img :: todo) with ((started ++ [img]) ++ todo) in *
      by now rewrite <- app_assoc.
    apply IH; [exact Hnd|]. apply launch_one_traced; [|exact H].
    rewrite !map_app in Hnd. apply List.NoDup_app_remove_r in Hnd.
    simpl in Hnd. apply List.NoDup_remove_2 in Hnd. now rewrite app_nil_r in Hnd.
Qed.

Section Traced.
Variable data : list ImageData.
Hypothesis data_nodup : List.NoDup (map path data).

Lemma launch_traced (w : World) : upload_traced data (launch World respond data w).
Proof.
  apply (fold_launch_traced data []); [exact data_nodup|].
  constructor; simpl; try reflexivity.
  - intros k img pipe Hk. discriminate.
  - intros call [].
  - intros k u Hk. discriminate.
  - intros e He. discriminate.
Qed.

Lemma send_traced st k img req next :
  upload_traced data st -> data !! k = Some img ->
  (forall resp,
      pipeline_trace img (next resp)
        (pipelineLog (path img) (log st)
           ++ [{| origin := Upload (path img); request := req; response := resp |}])) ->
  (forall resp u, next resp <> Uploaded u) ->
  upload_traced data (send World respond st k img req next).
Proof.
  intros [Hlen Hpipes Horigins Hup Hrej] Hk Hnext Hnot. unfold send.
  destruct (respond req (world st)) as [resp w]. constructor; simpl.
  - now rewrite length_insert.
  - intros k' img' pipe Hk' Hpipe. rewrite pipelineLog_snoc, fromPipeline_upload.
    destruct (decide (k = k')) as [<-|Hne].
    + rewrite list_lookup_insert_eq in Hpipe by (rewrite Hlen; eapply lookup_lt_Some, Hk).
      injection Hpipe as <-. replace img' with img by congruence.
      rewrite String.eqb_refl. apply Hnext.
    + rewrite list_lookup_insert_ne in Hpipe by exact Hne.
      assert (Hp : String.eqb (path img') (path img) = false).
      { apply String.eqb_neq. intros Heq. apply Hne.
        eapply nodup_path_index; eauto. }
      rewrite Hp, app_nil_r. eapply Hpipes; eauto.
  - intros call Hin. apply in_app_iff in Hin as [Hin|[<-|[]]]; [auto|].
    exists img. split; [eapply lookup_in, Hk|reflexivity].
  - intros k' u Hk'. apply insert_lookup_cases in Hk' as [Hk'|Hk']; [|eauto].
    symmetry in Hk'. now apply Hnot in Hk'.
  - exact Hrej.
Qed.

Lemma fail_traced st k img e :
  upload_traced data st -> data !! k = Some img ->
  pipeline_trace img (Failed e) (pipelineLog (path img) (log st)) ->
  guarded_upload e = true ->
  upload_traced data (fail World st k e).
Proof.
  intros [Hlen Hpipes Horigins Hup Hrej] Hk Htrace He. constructor; simpl.
  - now rewrite length_insert.
  - intros k' img' pipe Hk' Hpipe.
    destruct (decide (k = k')) as [<-|Hne].
    + rewrite list_lookup_insert_eq in Hpipe by (rewrite Hlen; eapply lookup_lt_Some, Hk).
      injection Hpipe as <-. replace img' with img by congruence. exact Htrace.
    + rewrite list_lookup_insert_ne in Hpipe by exact Hne. eapply Hpipes; eauto.
  - exact Horigins.
  - intros k' u Hk'. apply insert_lookup_cases in Hk' as [Hk'|Hk']; [discriminate|eauto].
  - intros e'. destruct (rejection st) as [e0|]; [apply Hrej|]. now intros [= <-].
Qed.

Lemma finish_traced st k img u :
  upload_traced data st -> data !! k = Some img ->
  pipeline_trace img (Uploaded u) (pipelineLog (path img) (log st)) ->
  up_path u = path img ->
  upload_traced data (finish World st k u).
Proof.
  intros [Hlen Hpipes Horigins Hup Hrej] Hk Htrace Hu. constructor; simpl.
  - now rewrite length_insert.
  - intros k' img' pipe Hk' Hpipe.
    destruct (decide (k = k')) as [<-|Hne].
    + rewrite list_lookup_insert_eq in Hpipe by (rewrite Hlen; eapply lookup_lt_Some, Hk).
      injection Hpipe as <-. replace img' with img by congruence. exact Htrace.
    + rewrite list_lookup_insert_ne in Hpipe by exact Hne. eapply Hpipes; eauto.
  - exact Horigins.
  - intros k' u' Hk'. destruct (decide (k = k')) as [<-|Hne].
    + rewrite list_lookup_insert_eq in Hk' by (rewrite Hlen; eapply lookup_lt_Some, Hk).
      injection Hk' as <-. eauto.
    + rewrite list_lookup_insert_ne in Hk' by exact Hne. eauto.
  - exact Hrej.
Qed.

Lemma resume_traced st k :
  upload_traced data st -> upload_traced data (resume World respond data st k).
Proof.
  intros Hinv. unfold resume.
  destruct (data !! k) as [img|] eqn:Hk; [|exact Hinv].
  destruct (pipes st !! k) as [pipe|] eqn:Hpipe; [|exact Hinv].
  pose proof (tr_pipes _ _ Hinv _ _ _ Hk Hpipe) as Ht. simpl in Ht.
  destruct pipe as [[body|reason]|mid [body|reason]|[body|reason]|u|e]; try exact Hinv.
  - apply send_traced; try assumption; [|discriminate].
    intros resp. rewrite Ht. simpl. exists body. auto.
  - eapply fail_traced; eauto. left. eauto.
  - apply send_traced; try assumption; [|discriminate].
    intros resp. destruct Ht as (b & -> & ->). simpl. exists b, body. reflexivity.
  - eapply fail_traced; eauto. destruct Ht as (b & -> & ->). right. left. eauto.
  - destruct Ht as (b & a & Ht).
    destruct (truthy (error body)) eqn:Herr.
    + eapply fail_traced; eauto. right. right. right. exists b, a, body. auto.
    + eapply finish_traced; eauto. simpl. exists b, a, body. auto.
  - destruct Ht as (b & a & Ht). eapply fail_traced; eauto.
    right. right. left. exists b, a, reason. auto.
Qed.

Lemma uploadImages_traced sched w :
  upload_traced data (uploadImages World respond data sched w).
Proof.
  unfold uploadImages. generalize (launch_traced w).
  generalize (launch World respond data w).
  induction sched as [|k sched IH]; intros st H; simpl; [exact H|].
  apply IH, resume_traced, H.
Qed.

End Traced.
End TraceFacts.

(** X9: whatever the schedule, the requests of the pipeline of one image
    are, in the order they were sent, INIT with the size and the media type
    of the image, then APPEND with the media id that INIT returned, the
    base64 payload and segment index 0, then FINALIZE with that same id;
    each is sent only after the one before was answered without error, and
    the state of the pipeline tells how far it got. *)
Theorem pipeline_requests_in_order
    (World : Type) (respond : Request -> World -> Response * World)
    (data : list ImageData) (sched : list nat) (w : World)
    (k : nat) (img : ImageData) :
  List.NoDup (map path data) ->
  data !! k = Some img ->
  exists pipe,
    pipes (uploadImages World respond data sched w) !! k = Some pipe
    /\ pipeline_trace img pipe
         (pipelineLog (path img) (log (uploadImages World respond data sched w))).
Proof.
  intros Hnd Hk.
  pose proof (uploadImages_traced respond data Hnd sched w) as [Hlen Hpipes _ _ _].
  destruct (lookup_lt_is_Some_2 (pipes (uploadImages World respond data sched w)) k)
    as [pipe Hpipe].
  { rewrite Hlen. eapply lookup_lt_Some, Hk. }
  exists pipe. split; [exact Hpipe|]. eapply Hpipes; eauto.
Qed.

Lemma pipeline_requests_in_order_witness :
  exists pipe,
    pipes (uploadImages Fake.World Fake.respond Sample.twoImages [1; 0; 1; 1]
             Fake.fresh) !! 1 = Some pipe
    /\ pipeline_trace
         {| path := "/home/me/b.png"; total_bytes := 20;
            media_type := "image/png"; media_data := "BBBB" |}
         pipe
         (pipelineLog "/home/me/b.png"
            (log (uploadImages Fake.World Fake.respond Sample.twoImages [1; 0; 1; 1]
                    Fake.fresh))).
Proof.
  apply (pipeline_requests_in_order Fake.World Fake.respond Sample.twoImages
           [1; 0; 1; 1] Fake.fresh 1
           {| path := "/home/me/b.png"; total_bytes := 20;
              media_type := "image/png"; media_data := "BBBB" |}).
  - repeat constructor; simpl; intuition discriminate.
  - reflexivity.
Defined.

(** * The upload stage and the schedule *)

Section ScheduleFacts.
Context {World : Type} (respond : Request -> World -> Response * World).

Lemma allUploaded_length (ps : list Pipeline) (us : list UploadedMedia) :
  allUploaded ps = Some us -> length us = length ps.
Proof.
  revert us. induction ps as [|p ps IH]; intros us; simpl.
  - now intros [= <-].
  - destruct (uploaded p); [|discriminate].
    destruct (allUploaded ps) as [us'|]; [|discriminate].
    intros [= <-]. simpl. now rewrite (IH us').
Qed.

Lemma uploadImages_app (data : list ImageData) (s1 s2 : list nat) (w : World) :
  uploadImages World respond data (s1 ++ s2) w
  = fold_left (resume World respond data) s2 (uploadImages World respond data s1 w).
Proof. unfold uploadImages. apply fold_left_app. Qed.

Lemma send_rejection st k img req next :
  rejection (send World respond st k img req next) = rejection st.
Proof. unfold send. now destruct (respond req (world st)). Qed.

Lemma resume_rejection (data : list ImageData) (st : UploadState World) (k : nat) (e : Err) :
  rejection st = Some e -> rejection (resume World respond data st k) = Some e.
Proof.
  intros H. unfold resume.
  destruct (data !! k) as [img|]; [|exact H].
  destruct (pipes st !! k) as [[[b|r]|m [b|r]|[b|r]|u|e']|]; try exact H;
    rewrite ?send_rejection; try exact H; try (simpl; now rewrite H).
  destruct (truthy (error b)); simpl; now rewrite H.
Qed.

Lemma resume_uploaded (data : list ImageData) (st : UploadState World) (k : nat)
    (us : list UploadedMedia) :
  allUploaded (pipes st) = Some us -> resume World respond data st k = st.
Proof.
  intros H. unfold resume.
  destruct (data !! k) as [img|]; [|reflexivity].
  destruct (pipes st !! k) as [pipe|] eqn:Hpipe; [|reflexivity].
  destruct (proj1 (allUploaded_lookup _ _ H k) _ Hpipe) as (u & -> & _). reflexivity.
Qed.

Lemma resume_no_data (st : UploadState World) (k : nat) :
  resume World respond [] st k = st.
Proof. reflexivity. Qed.

Lemma uploadImages_no_data (sched : list nat) (w : World) :
  uploadImages World respond [] sched w
  = {| world := w; pipes := []; log := []; rejection := None |}.
Proof.
  unfold uploadImages. simpl. induction sched as [|k sched IH]; [reflexivity|exact IH].
Qed.

End ScheduleFacts.

(** X10: [Promise.all] gives the uploaded media in the order of the
    images, whatever the order in which the uploads finished: when all of
    them succeed, entry [k] of the result carries the path of image [k]. *)
Theorem uploads_keep_image_order
    (World : Type) (respond : Request -> World -> Response * World)
    (data : list ImageData) (sched : list nat) (w : World)
    (us : list UploadedMedia) :
  List.NoDup (map path data) ->
  settle World (uploadImages World respond data sched w) = AllUploaded us ->
  map up_path us = map path data.
Proof.
  intros Hnd Hsettle. apply settle_all in Hsettle as [_ Hall].
  pose proof (uploadImages_traced respond data Hnd sched w) as [Hlen _ _ Hup _].
  apply list_eq. intros k. rewrite !map_lookup.
  destruct (us !! k) as [u|] eqn:Hu.
  - apply (allUploaded_lookup _ _ Hall k) in Hu.
    destruct (Hup _ _ Hu) as (img & Hk & Ho). rewrite Hk. simpl. now rewrite Ho.
  - apply lookup_ge_None in Hu. apply allUploaded_length in Hall.
    rewrite (proj2 (lookup_ge_None data k)) by lia. reflexivity.
Qed.

Lemma uploads_keep_image_order_witness :
  map up_path
    [{| up_path := "/home/me/a.png"; mediaId := Some "m0" |};
     {| up_path := "/home/me/b.png"; mediaId := Some "m1" |}]
  = map path Sample.twoImages.
Proof.
  apply (uploads_keep_image_order Fake.World Fake.respond Sample.twoImages
           [1; 1; 1; 0; 0; 0] Fake.fresh).
  - repeat constructor; simpl; intuition discriminate.
  - vm_compute. reflexivity.
Defined.

(** X11: what [await Promise.all(...)] gives is final.  Once it has
    rejected, it keeps the error of the first pipeline that failed,
    whatever the other pipelines do later; once every upload has succeeded,
    later turns change nothing. *)
Theorem settled_upload_is_final
    (World : Type) (respond : Request -> World -> Response * World)
    (data : list ImageData) (s1 s2 : list nat) (w : World) :
  settle World (uploadImages World respond data s1 w) <> UploadPending ->
  settle World (uploadImages World respond data (s1 ++ s2) w)
  = settle World (uploadImages World respond data s1 w).
Proof.
  rewrite uploadImages_app. generalize (uploadImages World respond data s1 w).
  induction s2 as [|k s2 IH]; intros st Hst; [reflexivity|]. simpl.
  assert (Hsame : settle World (resume World respond data st k) = settle World st).
  { unfold settle in Hst |- *. destruct (rejection st) as [e|] eqn:Hrej.
    - now rewrite (resume_rejection respond data st k e Hrej).
    - destruct (allUploaded (pipes st)) as [us|] eqn:Hall; [|congruence].
      rewrite (resume_uploaded respond data st k us Hall), Hrej, Hall. reflexivity. }
  rewrite IH; [exact Hsame|]. now rewrite Hsame.
Qed.

Lemma settled_upload_is_final_witness :
  settle Fake.World
    (uploadImages Fake.World Fake.respond Sample.twoImages ([0; 0; 0; 1] ++ [1; 1; 0])
       {| Fake.served := 0; Fake.reject := [2]; Fake.broken := [] |})
  = settle Fake.World
      (uploadImages Fake.World Fake.respond Sample.twoImages [0; 0; 0; 1]
         {| Fake.served := 0; Fake.reject := [2]; Fake.broken := [] |}).
Proof.
  apply (settled_upload_is_final Fake.World Fake.respond Sample.twoImages
           [0; 0; 0; 1] [1; 1; 0]).
  vm_compute. discriminate.
Defined.

(** * The requests of a whole run *)

Section CountFacts.

Lemma list_sum_zero {A} (l : list A) : list_sum (map (fun _ => 0) l) = 0.
Proof. induction l as [|x l IH]; [reflexivity|exact IH]. Qed.

Lemma list_sum_add {A} (f g : A -> nat) (l : list A) :
  list_sum (map (fun x => f x + g x) l) = list_sum (map f l) + list_sum (map g l).
Proof. induction l as [|x l IH]; [reflexivity|]. simpl. rewrite IH. lia. Qed.

Lemma list_sum_bound {A} (f : A -> nat) (n : nat) (l : list A) :
  (forall x, In x l -> f x <= n) -> list_sum (map f l) <= n * length l.
Proof.
  induction l as [|x l IH]; intros H; simpl; [lia|].
  specialize (H x (or_introl eq_refl)) as Hx.
  specialize (IH (fun y Hy => H y (or_intror Hy))). nia.
Qed.

Lemma list_sum_const {A} (f : A -> nat) (n : nat) (l : list A) :
  (forall x, In x l -> f x = n) -> list_sum (map f l) = n * length l.
Proof.
  induction l as [|x l IH]; intros H; simpl; [lia|].
  specialize (H x (or_introl eq_refl)) as Hx.
  specialize (IH (fun y Hy => H y (or_intror Hy))). nia.
Qed.

Lemma sum_indicator_absent (ps : list string) (q : string) :
  ~ In q ps -> list_sum (map (fun p => if String.eqb p q then 1 else 0) ps) = 0.
Proof.
  induction ps as [|p ps IH]; intros H; [reflexivity|]. simpl.
  destruct (String.eqb_spec p q) as [->|_]; [exfalso; apply H; now left|].
  apply IH. intros Hin. apply H. now right.
Qed.

Lemma sum_indicator (ps : list string) (q : string) :
  List.NoDup ps -> In q ps ->
  list_sum (map (fun p => if String.eqb p q then 1 else 0) ps) = 1.
Proof.
  induction 1 as [|p ps Hp Hnd IH]; intros Hin; [destruct Hin|]. simpl.
  destruct (String.eqb_spec p q) as [->|Hne].
  - now rewrite sum_indicator_absent.
  - destruct Hin as [Heq|Hin]; [congruence|]. now rewrite IH.
Qed.

(** A log of upload requests is the disjoint union of the logs of the
    pipelines. *)
Lemma log_partition (ps : list string) (lg : list Call) :
  List.NoDup ps ->
  (forall c, In c lg -> exists p, In p ps /\ origin c = Upload p) ->
  length lg = list_sum (map (fun p => length (pipelineLog p lg)) ps).
Proof.
  intros Hnd. induction lg as [|c lg IH]; intros H.
  - simpl. now rewrite list_sum_zero.
  - destruct (H c (or_introl eq_refl)) as (q & Hq & Ho).
    rewrite (map_ext _ (fun p => (if String.eqb p q then 1 else 0)
                                  + length (pipelineLog p lg))).
    + rewrite list_sum_add, (sum_indicator ps q Hnd Hq).
      rewrite <- IH; [reflexivity|]. intros c' Hc'. apply H. now right.
    + intros p. unfold pipelineLog, fromPipeline. simpl. rewrite Ho.
      now destruct (String.eqb p q).
Qed.

Lemma pipeline_trace_length (img : ImageData) (pipe : Pipeline) (lg : list Call) :
  pipeline_trace img pipe lg ->
  length lg <= 3 /\ (forall u, pipe = Uploaded u -> length lg = 3).
Proof.
  destruct pipe as [r|m r|r|u|e]; simpl.
  - intros ->. split; [simpl; lia|discriminate].
  - intros (b & _ & ->). split; [simpl; lia|discriminate].
  - intros (b & a & ->). split; [simpl; lia|discriminate].
  - intros (b & a & f & _ & _ & ->). split; [simpl; lia|reflexivity].
  - intros [(r & _ & ->)|[(b & r & _ & ->)|[(b & a & r & _ & ->)|(b & a & f & _ & _ & ->)]]];
      (split; [simpl; lia|discriminate]).
Qed.

Context {World : Type}.

Lemma traced_log_length (data : list ImageData) (st : UploadState World) :
  List.NoDup (map path data) ->
  upload_traced data st ->
  length (log st) <= 3 * length data
  /\ (forall us, allUploaded (pipes st) = Some us -> length (log st) = 3 * length data).
Proof.
  intros Hnd [Hlen Hpipes Horigins _ _].
  assert (Hpart : length (log st)
                  = list_sum (map (fun p => length (pipelineLog p (log st)))
                                (map path data))).
  { apply log_partition; [exact Hnd|]. intros c Hc.
    destruct (Horigins c Hc) as (img & Hin & Ho).
    exists (path img). split; [now apply in_map|exact Ho]. }
  assert (Hpipe : forall p, In p (map path data) ->
            exists k img pipe, data !! k = Some img /\ path img = p
                               /\ pipes st !! k = Some pipe
                               /\ pipeline_trace img pipe (pipelineLog p (log st))).
  { intros p Hp. apply in_map_iff in Hp as (img & <- & Hin).
    apply in_lookup in Hin as [k Hk].
    destruct (lookup_lt_is_Some_2 (pipes st) k) as [pipe Hp].
    { rewrite Hlen. eapply lookup_lt_Some, Hk. }
    exists k, img, pipe. repeat split; eauto. }
  rewrite Hpart, <- (length_map path data). split.
  - apply list_sum_bound. intros p Hp.
    destruct (Hpipe p Hp) as (k & img & pipe & _ & _ & _ & Ht).
    now apply pipeline_trace_length in Ht.
  - intros us Hall. apply list_sum_const. intros p Hp.
    destruct (Hpipe p Hp) as (k & img & pipe & _ & _ & Hk & Ht).
    destruct (proj1 (allUploaded_lookup _ _ Hall k) _ Hk) as (u & -> & _).
    apply pipeline_trace_length in Ht as [_ Ht]. now apply (Ht u).
Qed.

Lemma prepared_nodup fs cwd filename contents imagesData :
  prepare fs cwd filename = Ok (contents, imagesData) ->
  List.NoDup (map path imagesData).
Proof.
  intros H. apply prepare_ok in H as [_ _ _ _ Hd _].
  rewrite (imagesData_paths _ _ _ Hd). apply uniqueImagePaths_NoDup.
Qed.

Lemma prepared_nonempty fs cwd filename contents imagesData :
  prepare fs cwd filename = Ok (contents, imagesData) -> 1 <= length contents.
Proof.
  intros H. apply prepare_ok in H as [(blocks & Hb & Hc) _ _ _ _ _].
  apply makeBlocks_ok in Hb as (file & _ & ->).
  apply mapM_ok_lookup in Hc as [-> _]. unfold Js.mapi. rewrite mapi_from_length.
  destruct (split_dashes_cons (utf8 file)) as (p & ps & ->). simpl. lia.
Qed.

End CountFacts.

(** X12: a run of [post] never sends more than three requests for each
    distinct image and one for each block, and a run that completes has
    sent exactly that many. *)
Theorem requests_of_a_run
    (World : Type) (respond : Request -> World -> Response * World)
    (config : list Profile) (fs : FileSystem) (cwd filename input : string)
    (sched : list nat) (w : World)
    (contents : list Content) (imagesData : list ImageData)
    (out : Outcome) (lg : list Call) :
  prepare fs cwd filename = Ok (contents, imagesData) ->
  postAction World respond config fs cwd filename input sched w = (out, lg) ->
  length lg <= 3 * length imagesData + length contents
  /\ (forall final, out = Completed final ->
        length lg = 3 * length imagesData + length contents).
Proof.
  intros Hprep Hrun. unfold postAction in Hrun. rewrite Hprep in Hrun.
  destruct (getProfile config) as [profile|];
    [|injection Hrun as <- <-; split; [simpl; lia|discriminate]].
  destruct (confirmed input) eqn:Hconfirmed.
  2:{ unfold publish in Hrun. rewrite Hconfirmed in Hrun. simpl in Hrun.
      injection Hrun as <- <-. split; [simpl; lia|discriminate]. }
  pose proof (traced_log_length imagesData _ (prepared_nodup _ _ _ _ _ Hprep)
                (uploadImages_traced respond imagesData
                   (prepared_nodup _ _ _ _ _ Hprep) sched w)) as [Hbound Hexact].
  destruct (publish_confirmed World respond contents imagesData input sched w Hconfirmed)
    as [(e & _ & Hpub)|[(_ & Hpub)|(us & res & w' & plog & Hsettle & Hpost & Hpub)]];
    rewrite Hpub in Hrun; injection Hrun as <- <-.
  - split; [lia|discriminate].
  - split; [lia|discriminate].
  - apply settle_all in Hsettle as [_ Hall]. specialize (Hexact us Hall).
    pose proof (postThread_posted respond (map (makePostContent us) contents)
                  (world (uploadImages World respond imagesData sched w))) as P.
    rewrite length_map in P. specialize (P (prepared_nonempty _ _ _ _ _ Hprep)).
    rewrite Hpost in P. simpl in P. destruct P as [Hlen _ _ Hok _].
    pose proof (prepared_nonempty _ _ _ _ _ Hprep) as Hne.
    rewrite length_app. split; [lia|].
    intros final Hfinal. destruct res as [r|e]; [|discriminate].
    destruct (Hok r eq_refl) as [Hl _]. lia.
Qed.

Lemma requests_of_a_run_witness :
  length (postAction Fake.World Fake.respond Sample.config Sample.helloFs Sample.cwd
            "thread.md" "y" [0; 0; 0] Fake.fresh).2
  = 3 * length Sample.helloImages + length Sample.helloContents.
Proof.
  apply (proj2
           (requests_of_a_run Fake.World Fake.respond Sample.config Sample.helloFs
              Sample.cwd "thread.md" "y" [0; 0; 0] Fake.fresh
              Sample.helloContents Sample.helloImages
              (Completed {| media_id_string := None; error := JUndefined;
                            id_str := Some "t4" |})
              (postAction Fake.World Fake.respond Sample.config Sample.helloFs Sample.cwd
                 "thread.md" "y" [0; 0; 0] Fake.fresh).2
              eq_refl eq_refl)
           {| media_id_string := None; error := JUndefined; id_str := Some "t4" |}
           eq_refl).
Defined.

(** X13: a thread without images sends no media request.  The schedule of
    the uploads plays no part in it, and every request is a createPost
    with an empty list of media ids. *)
Theorem text_only_thread
    (World : Type) (respond : Request -> World -> Response * World)
    (config : list Profile) (fs : FileSystem) (cwd filename input : string)
    (sched : list nat) (w : World) (contents : list Content) :
  prepare fs cwd filename = Ok (contents, []) ->
  postAction World respond config fs cwd filename input sched w
  = postAction World respond config fs cwd filename input [] w
  /\ forall i call,
      (postAction World respond config fs cwd filename input sched w).2 !! i = Some call ->
      origin call = Post i
      /\ exists content target,
          contents !! i = Some content
          /\ request call = StatusUpdate (text content) "" target.
Proof.
  intros Hprep.
  assert (Hsame : postAction World respond config fs cwd filename input sched w
                  = postAction World respond config fs cwd filename input [] w).
  { unfold postAction, publish. rewrite Hprep.
    now rewrite !(uploadImages_no_data respond). }
  split; [exact Hsame|]. rewrite Hsame. clear Hsame.
  unfold postAction. rewrite Hprep.
  destruct (getProfile config) as [profile|]; [|intros i call H; discriminate].
  unfold publish. destruct (confirmed input); [|intros i call H; discriminate].
  simpl negb. cbv iota. rewrite (uploadImages_no_data respond). unfold settle. simpl.
  pose proof (postThread_posted respond (map (makePostContent []) contents) w) as P.
  rewrite length_map in P. specialize (P (prepared_nonempty _ _ _ _ _ Hprep)).
  assert (Himages : forall c, In c contents -> images c = []).
  { intros c Hc. apply prepare_ok in Hprep as [_ _ _ _ Hd _].
    apply imagesData_paths in Hd. simpl in Hd.
    destruct (images c) as [|p ps] eqn:Hi; [reflexivity|].
    assert (In p (uniqueImagePaths contents)) as Hin.
    { apply in_uniqueImagePaths. exists c. split; [exact Hc|]. rewrite Hi. now left. }
    rewrite <- Hd in Hin. destruct Hin. }
  destruct (postThread World respond (map (makePostContent []) contents) w)
    as [[res w'] plog]. simpl in P. destruct P as [_ Hchain _ _ _].
  assert (Hlog : forall i call, plog !! i = Some call ->
            origin call = Post i
            /\ exists content target,
                contents !! i = Some content
                /\ request call = StatusUpdate (text content) "" target).
  { intros i call Hi. destruct (Hchain i call Hi) as (Ho & pc & target & Hpc & Hreq & _).
    split; [exact Ho|]. rewrite map_lookup in Hpc.
    destruct (contents !! i) as [c|] eqn:Hc; [|discriminate]. injection Hpc as <-.
    exists c, target. split; [reflexivity|]. rewrite Hreq. simpl.
    rewrite (Himages c) by (eapply lookup_in, Hc). reflexivity. }
  destruct res; simpl; exact Hlog.
Qed.

Lemma text_only_thread_witness :
  postAction Fake.World Fake.respond Sample.config Sample.spacedFs Sample.cwd
    "thread.md" "y" [3; 1; 4] Fake.fresh
  = postAction Fake.World Fake.respond Sample.config Sample.spacedFs Sample.cwd
      "thread.md" "y" [] Fake.fresh.
Proof.
  apply (text_only_thread Fake.World Fake.respond Sample.config Sample.spacedFs
           Sample.cwd "thread.md" "y" [3; 1; 4] Fake.fresh
           (map (fun t => {| text := t; images := [] |})
              ["0/1" +:+ LF +:+ LF +:+ "a"; "1/1" +:+ LF +:+ LF +:+ "b"])).
  vm_compute. reflexivity.
Defined.

(** * The errors of a run *)

Section GuardFacts.

Lemma readFileSync_throw (fs : FileSystem) (p : string) (e : Err) :
  readFileSync fs p = Throw e ->
  (e = ENOENT p /\ fs p = None) \/ readErrorAt fs e p.
Proof.
  unfold readFileSync, readErrorAt.
  destruct (fs p) as [[f| |]|]; [discriminate| | |]; intros [= <-]; auto.
Qed.

(** A read that comes after the existence check does not fail on a missing
    file. *)
Lemma guarded_read (fs : FileSystem) (p : string) (e : Err) :
  checkFileExists fs p = Ok tt -> readFileSync fs p = Throw e -> readErrorAt fs e p.
Proof.
  intros Hex Hread. apply readFileSync_throw in Hread as [[_ Hnone]|H]; [|exact H].
  unfold checkFileExists, existsSync in Hex. rewrite Hnone in Hex. discriminate.
Qed.

Lemma readErrorAt_guarded (fs : FileSystem) (p : string) (e : Err) :
  readErrorAt fs e p -> guarded e = true /\ isReadError e = true.
Proof. intros [[-> _]|[-> _]]; auto. Qed.

Lemma makeBlocks_throw (fs : FileSystem) (filename : string) (e : Err) :
  makeBlocks fs filename = Throw e -> readFileSync fs filename = Throw e.
Proof.
  unfold makeBlocks. destruct (readFileSync fs filename) as [f|e0]; simpl.
  - discriminate.
  - now intros [= <-].
Qed.

Lemma getImagesData_throw (fs : FileSystem) (p : string) (e : Err) :
  getImagesData fs p = Throw e -> readFileSync fs p = Throw e.
Proof.
  unfold getImagesData. destruct (readFileSync fs p) as [f|e0]; simpl.
  - discriminate.
  - now intros [= <-].
Qed.

Lemma mapM_throw {A B} (f : A -> Result B) (l : list A) (e : Err) :
  mapM f l = Throw e -> exists x, In x l /\ f x = Throw e.
Proof.
  induction l as [|x l IH]; simpl; [discriminate|].
  destruct (f x) as [y|e0] eqn:Hx; simpl.
  - destruct (mapM f l) as [ys|e1]; simpl; [discriminate|].
    intros [= <-]. destruct (IH eq_refl) as (x' & Hin & Hx'). eauto.
  - intros [= <-]. eauto.
Qed.

Lemma forEach_guarded {A} (f : A -> Result unit) (l : list A) (e : Err) :
  (forall x e', f x = Throw e' -> checkError e' = true) ->
  forEach f l = Throw e -> checkError e = true.
Proof.
  intros Hf H. apply forEach_throw in H as (pre & x & post & _ & _ & Hx).
  eapply Hf, Hx.
Qed.

Lemma lint_guarded (blocks : list string) (e : Err) :
  lint blocks = Throw e -> checkError e = true.
Proof.
  apply forEach_guarded. intros x e'. unfold lint_block.
  destruct (Nat.ltb 280 (String.length x)); [|discriminate]. now intros [= <-].
Qed.

Lemma checkFileExists_guarded (fs : FileSystem) (p : string) (e : Err) :
  checkFileExists fs p = Throw e -> checkError e = true.
Proof. intros H. now apply checkFileExists_throw in H as [-> _]. Qed.

Lemma checkImageNumberPerPost_guarded (contents : list Content) (e : Err) :
  checkImageNumberPerPost contents = Throw e -> checkError e = true.
Proof.
  apply forEach_guarded. intros c e' H. apply checkContent_throw in H as ->.
  now destruct (first_is_gif c || Nat.leb (length (images c)) 4).
Qed.

Lemma checkImageSize_guarded (img : ImageData) (e : Err) :
  checkImageSize img = Throw e -> checkError e = true.
Proof. intros H. now apply checkImageSize_throw in H as [-> _]. Qed.

(** An error of [prepare] is the error of a check, or that of reading
    the document or a referenced image that exists and cannot be read. *)
Lemma prepare_throw (fs : FileSystem) (cwd filename : string) (e : Err) :
  prepare fs cwd filename = Throw e ->
  checkError e = true
  \/ readErrorAt fs e filename
  \/ exists blocks contents c p,
       makeBlocks fs filename = Ok blocks
       /\ extractImage cwd blocks filename = Ok contents
       /\ In c contents /\ In p (images c)
       /\ readErrorAt fs e p.
Proof.
  unfold prepare.
  destruct (checkFileExists fs filename) as [[]|e0] eqn:Hex; simpl;
    [|intros [= <-]; left; eapply checkFileExists_guarded, Hex].
  destruct (makeBlocks fs filename) as [blocks|e0] eqn:Hb; simpl.
  2:{ intros [= <-]. right. left.
      eapply guarded_read; [exact Hex|]. now apply makeBlocks_throw. }
  destruct (extractImage_total cwd blocks filename) as [contents Hc]. rewrite Hc. simpl.
  destruct (lint (map text contents)) as [[]|e0] eqn:Hlint; simpl;
    [|intros [= <-]; left; eapply lint_guarded, Hlint].
  destruct (forEach (checkFileExists fs) (uniqueImagePaths contents)) as [[]|e0] eqn:Hfiles;
    simpl; [|intros [= <-]; left; eapply forEach_guarded, Hfiles;
             apply checkFileExists_guarded].
  destruct (checkImageNumberPerPost contents) as [[]|e0] eqn:Hnumber; simpl;
    [|intros [= <-]; left; eapply checkImageNumberPerPost_guarded, Hnumber].
  destruct (mapM (getImagesData fs) (uniqueImagePaths contents)) as [data|e0] eqn:Hdata;
    simpl.
  - destruct (forEach checkImageSize data) as [[]|e0] eqn:Hsize; simpl; [discriminate|].
    intros [= <-]. left. eapply forEach_guarded, Hsize. apply checkImageSize_guarded.
  - intros [= <-]. right. right.
    apply mapM_throw in Hdata as (p & Hp & Hread).
    apply getImagesData_throw in Hread.
    pose proof (proj1 (forEach_ok _ _) Hfiles p Hp) as Hexists.
    apply in_uniqueImagePaths in Hp as (c & Hin & Hp).
    exists blocks, contents, c, p. repeat split; try assumption.
    now apply guarded_read.
Qed.

End GuardFacts.



(** * The [apply] command *)

Section ApplyFacts.

Lemma ends_dash_cons (c : ascii) (s : string) :
  ends_dash (String c s) = match s with EmptyString => Js.is_dash c | _ => ends_dash s end.
Proof. reflexivity. Qed.

Lemma no_dash_app (a b : string) : no_dash (a +:+ b) = no_dash a && no_dash b.
Proof.
  induction a as [|c a IH]; [reflexivity|].
  rewrite append_cons. simpl. now rewrite IH, andb_assoc.
Qed.

Lemma no_dash_clean (a p : string) :
  no_dash a = true -> ~ hasDelimiter p -> ~ hasDelimiter (a +:+ p).
Proof.
  induction a as [|c a IH]; intros Ha Hp; [exact Hp|].
  simpl in Ha. apply andb_true_iff in Ha as [Hc Ha].
  intros (x & y & H). rewrite append_cons in H. destruct x as [|c' x].
  - change ("" +:+ "---" +:+ y) with ("---" +:+ y) in H. rewrite delimiter_app in H.
    injection H as -> _. discriminate.
  - rewrite append_cons in H. injection H as _ H.
    apply (IH Ha Hp). now exists x, y.
Qed.

Lemma no_dash_ends (a p : string) :
  no_dash a = true -> ends_dash (a +:+ p) = ends_dash p.
Proof.
  induction a as [|c a IH]; intros Ha; [reflexivity|].
  simpl in Ha. apply andb_true_iff in Ha as [Hc Ha].
  rewrite append_cons, ends_dash_cons.
  destruct (a +:+ p) as [|c' r] eqn:Hap.
  - destruct a; [|discriminate]. change (p = "") in Hap. rewrite Hap. simpl.
    now apply negb_true_iff in Hc.
  - apply IH, Ha.
Qed.

Lemma no_dash_uint (u : Decimal.uint) : no_dash (NilEmpty.string_of_uint u) = true.
Proof. induction u; simpl; auto. Qed.

Lemma no_dash_of_nat (n : nat) : no_dash (Js.of_nat n) = true.
Proof.
  unfold Js.of_nat, NilZero.string_of_uint.
  destruct (Nat.to_uint n) eqn:H; try reflexivity; rewrite <- H; apply no_dash_uint.
Qed.

Lemma no_dash_counter (i total : nat) : no_dash (counter i total +:+ " ") = true.
Proof.
  unfold counter. rewrite !no_dash_app, !no_dash_of_nat. reflexivity.
Qed.

(** The first piece of a text that goes on with the delimiter. *)
Lemma split_app (a b : string) :
  ~ hasDelimiter a -> ends_dash a = false ->
  Js.split_dashes (a +:+ "---" +:+ b) = a :: Js.split_dashes b.
Proof.
  induction a as [|c a IH]; intros Hclean Hend; [reflexivity|].
  rewrite append_cons. rewrite ends_dash_cons in Hend.
  rewrite split_step.
  - rewrite IH; [reflexivity| |].
    + intros (x & y & ->). apply Hclean. now exists (String c x), y.
    + destruct a; [reflexivity|exact Hend].
  - intros rest H. rewrite delimiter_app in H. injection H as -> H.
    destruct a as [|c2 a]; [discriminate|].
    rewrite append_cons in H. injection H as -> H. rewrite ends_dash_cons in Hend.
    destruct a as [|c3 a]; [discriminate|].
    rewrite append_cons in H. injection H as -> _.
    apply Hclean. exists "", a. reflexivity.
Qed.

(** [split] undoes [join] on pieces that could have come from a split. *)
Lemma split_join (xs : list string) :
  xs <> [] ->
  (forall x, In x xs -> ~ hasDelimiter x) ->
  (forall i x, xs !! i = Some x -> S i < length xs -> ends_dash x = false) ->
  Js.split_dashes (Js.join "---" xs) = xs.
Proof.
  induction xs as [|x xs IH]; intros Hne Hclean Hend; [congruence|].
  destruct xs as [|y xs].
  - simpl. apply split_single, Hclean. now left.
  - rewrite join_cons, split_app.
    + f_equal. apply IH; [discriminate| |].
      * intros z Hz. apply Hclean. now right.
      * intros i z Hi Hlt. apply (Hend (S i) z Hi). simpl in *. lia.
    + apply Hclean. now left.
    + apply (Hend 0 x eq_refl). simpl. lia.
Qed.

(** Only the last piece of a split can end with a dash. *)
Lemma split_pieces_end (s : string) (i : nat) (p : string) :
  Js.split_dashes s !! i = Some p -> S i < length (Js.split_dashes s) ->
  ends_dash p = false.
Proof.
  revert i p. induction s as [s IH] using string_length_ind. intros i p Hi Hlt.
  destruct s as [|c s].
  - simpl in Hlt. lia.
  - destruct (starts_with_delimiter_dec (String c s)) as [[rest Hs]|Hno].
    + rewrite Hs, split_at_delimiter in Hi, Hlt. destruct i as [|i].
      * injection Hi as <-. reflexivity.
      * apply (IH rest) with i; [rewrite Hs, delimiter_app; simpl; lia|exact Hi|].
        simpl in Hlt. lia.
    + rewrite split_step in Hi, Hlt by exact Hno.
      destruct (Js.split_dashes s) as [|p0 ps] eqn:Hsplit;
        [destruct (split_dashes_cons s) as (? & ? & ?); congruence|].
      simpl in Hi, Hlt. destruct i as [|i].
      * injection Hi as <-. rewrite ends_dash_cons.
        destruct p0 as [|c0 p0].
        -- destruct ps as [|q ps]; [simpl in Hlt; lia|].
           pose proof (join_split_dashes s) as Hj. rewrite Hsplit, join_cons in Hj.
           change ("" +:+ "---" +:+ Js.join "---" (q :: ps))
             with ("---" +:+ Js.join "---" (q :: ps)) in Hj.
           destruct (Ascii.eqb_spec c "-") as [->|Hc]; [|unfold Js.is_dash;
             now apply Ascii.eqb_neq].
           exfalso. apply (Hno (String "-" (Js.join "---" (q :: ps)))).
           rewrite <- Hj. reflexivity.
        -- apply (IH s ltac:(simpl; lia) 0 (String c0 p0)); [now rewrite Hsplit|].
           rewrite Hsplit. simpl in *. lia.
      * apply (IH s ltac:(simpl; lia) (S i) p); rewrite Hsplit; [exact Hi|simpl in *; lia].
Qed.

Lemma join_prefix (sep a y : string) (l : list string) :
  Js.join sep ((a +:+ y) :: l) = a +:+ Js.join sep (y :: l).
Proof. destruct l; [reflexivity|]. now rewrite !join_cons, append_assoc. Qed.

(** The line feed after a delimiter goes to the block that follows. *)
Lemma join_feed (x : string) (rest : list string) :
  Js.join ("---" +:+ LF) (x :: rest)
  = Js.join "---" (x :: map (String.append LF) rest).
Proof.
  revert x. induction rest as [|y rest IH]; intros x; [reflexivity|].
  rewrite join_cons, IH. cbn [map]. rewrite join_cons, join_prefix.
  now rewrite append_assoc.
Qed.

Lemma applied_blocks (total n : nat) (rest : list string) :
  map (String.append LF)
    (Js.mapi_from (fun it i => currentBlock i total it) (S n) rest)
  = Js.mapi_from (fun it i => appliedBlock i total it) (S n) rest.
Proof.
  revert n. induction rest as [|y rest IH]; intros n; [reflexivity|].
  simpl. now rewrite IH.
Qed.

Lemma appliedBlock_prefix (i total : nat) (t : string) :
  exists a, no_dash a = true /\ appliedBlock i total t = a +:+ t.
Proof.
  destruct i as [|i].
  - exists (counter 0 total +:+ " "). split; [apply no_dash_counter|].
    unfold appliedBlock, currentBlock. now rewrite append_assoc.
  - exists (LF +:+ counter (S i) total +:+ " "). split.
    + rewrite no_dash_app, no_dash_counter. reflexivity.
    + unfold appliedBlock, currentBlock. now rewrite !append_assoc.
Qed.

Lemma applied_split (blocks : list string) (total : nat) :
  blocks <> [] ->
  (forall p, In p blocks -> ~ hasDelimiter p) ->
  (forall i p, blocks !! i = Some p -> S i < length blocks -> ends_dash p = false) ->
  Js.split_dashes (Js.join "---" (Js.mapi_from (fun it i => appliedBlock i total it) 0 blocks))
  = Js.mapi_from (fun it i => appliedBlock i total it) 0 blocks.
Proof.
  intros Hne Hclean Hend. apply split_join.
  - destruct blocks; [congruence|discriminate].
  - intros x Hx. apply in_lookup in Hx as [i Hi]. rewrite mapi_from_lookup in Hi.
    destruct (blocks !! i) as [t|] eqn:Ht; [|discriminate]. injection Hi as <-.
    cbv beta. change (0 + i) with i.
    destruct (appliedBlock_prefix i total t) as (a & Ha & ->).
    apply no_dash_clean; [exact Ha|]. eapply Hclean, lookup_in, Ht.
  - intros i x Hi Hlt. rewrite mapi_from_length in Hlt. rewrite mapi_from_lookup in Hi.
    destruct (blocks !! i) as [t|] eqn:Ht; [|discriminate]. injection Hi as <-.
    cbv beta. change (0 + i) with i.
    destruct (appliedBlock_prefix i total t) as (a & Ha & ->).
    rewrite no_dash_ends by exact Ha. now apply (Hend i t).
Qed.

End ApplyFacts.

(** X2: [split] consumes every occurrence of three dashes as a
    separation, the leftmost first.  The pieces joined by the delimiter
    give back the document; no piece holds the delimiter; no piece but the
    last ends with a dash, for then a delimiter would start earlier than
    the one that closed the piece; and the split is the only list of pieces
    of which all this is true. *)
Theorem split_consumes_leftmost_delimiters (document : string) :
  Js.join "---" (Js.split_dashes document) = document
  /\ (forall piece, In piece (Js.split_dashes document) -> ~ hasDelimiter piece)
  /\ (forall i piece,
        Js.split_dashes document !! i = Some piece ->
        S i < length (Js.split_dashes document) ->
        ends_dash piece = false)
  /\ (forall pieces,
        pieces <> [] ->
        Js.join "---" pieces = document ->
        (forall piece, In piece pieces -> ~ hasDelimiter piece) ->
        (forall i piece, pieces !! i = Some piece -> S i < length pieces ->
           ends_dash piece = false) ->
        pieces = Js.split_dashes document).
Proof.
  split; [apply join_split_dashes|]. split; [apply split_pieces_clean|].
  split; [apply split_pieces_end|].
  intros pieces Hne Hjoin Hclean Hend. rewrite <- Hjoin. symmetry.
  now apply split_join.
Qed.

Lemma split_consumes_leftmost_delimiters_witness :
  Js.split_dashes "a----b" = ["a"; "-b"]
  /\ ["a-"; "b"] <> Js.split_dashes "a----b".
Proof.
  destruct (split_consumes_leftmost_delimiters "a----b") as (_ & _ & Hend & Hunique).
  assert (Hsplit : ["a"; "-b"] = Js.split_dashes "a----b").
  { apply Hunique.
    - discriminate.
    - reflexivity.
    - intros piece [<-|[<-|[]]] (a & b & H).
      + destruct a as [|c [|c' a]]; try discriminate;
          injection H as _ H; destruct a; discriminate.
      + destruct a as [|c [|c' [|c'' a]]]; try discriminate;
          repeat (injection H as _ H); destruct a; discriminate.
    - intros [|[|i]] piece Hi Hlt; try discriminate; [|simpl in Hlt; lia].
      injection Hi as <-. reflexivity. }
  split; [now rewrite <- Hsplit|].
  intros H. specialize (Hend 0 "a-"). rewrite <- H in Hend.
  specialize (Hend eq_refl ltac:(simpl; lia)). discriminate.
Defined.

(** X24: [apply] keeps the blocks apart.  Splitting its output at the
    delimiter gives back the blocks of the document, one for one and in
    order, each behind its label and a space; the line feed that [apply]
    puts after a delimiter opens the block that follows. *)
Theorem apply_keeps_the_blocks (fs : FileSystem) (filename : string) (file : File) :
  fs filename = Some (RegularFile file) ->
  exists rendered,
    applyCommand fs filename = Ok [rendered]
    /\ Js.split_dashes rendered
       = Js.mapi (fun it i =>
                    appliedBlock i (length (Js.split_dashes (utf8 file)) - 1) it)
           (Js.split_dashes (utf8 file)).
Proof.
  intros Hfile. unfold applyCommand, existsSync, readFileSync. rewrite Hfile.
  cbn [negb bind]. eexists. split; [reflexivity|].
  set (total := length (Js.split_dashes (utf8 file)) - 1).
  pose proof (split_pieces_clean (utf8 file)) as Hclean.
  pose proof (split_pieces_end (utf8 file)) as Hend.
  destruct (Js.split_dashes (utf8 file)) as [|b0 rest] eqn:Hsplit;
    [destruct (split_dashes_cons (utf8 file)) as (? & ? & ?); congruence|].
  unfold Js.mapi. cbn [Js.mapi_from]. rewrite join_feed, applied_blocks.
  apply (applied_split (b0 :: rest) total); [discriminate|exact Hclean|exact Hend].
Qed.

Lemma apply_keeps_the_blocks_witness :
  exists rendered,
    applyCommand Sample.helloFs "thread.md" = Ok [rendered]
    /\ Js.split_dashes rendered
       = ["0/1 Hello ![a](./img.png)" +:+ LF; LF +:+ "1/1 " +:+ LF +:+ "World"].
Proof.
  apply (apply_keeps_the_blocks Sample.helloFs "thread.md"
           (Sample.textFile Sample.helloWorld)).
  reflexivity.
Defined.
